(** * XSD name-collision pipeline: detector, resolver, finalizer

    A shallow embedding of [ps/find_collisions.py], [ps/fix_collisions.py]
    and [ps/finalize_schema.py], and the properties of the three programs.

    Each [main] is a function of the parsed document (and of the options that
    matter): parsing, serialization and argument handling belong to the
    libraries.  What a program prints is kept as a [message], what it writes
    as an optional document, and how it exits as the exit status.  The one
    loop that may run for ever, the resolver's search for a free name, takes
    fuel; it is shown to end, within a bound, for every pattern that gives
    different suffixes for different numbers.

    The document tree follows lxml's element API: an element has a tag (in
    Clark notation), an ordered attribute mapping, text, children and a tail;
    comments sit in the tree next to elements.  Python [dict]s and [set]s
    whose iteration order is not observed are [gmap]s and [gset]s; the
    insertion-ordered [by_name] dictionary, whose order decides which names
    are taken first, is an association list. *)

From Stdlib Require Import Ascii.
From Stdlib Require String.
From stdpp Require Import base option list strings gmap sets pretty sorting.

Set Warnings "-register-all,-clear-no-such-hyp".

(** ** Python [str] operations used by the three programs *)

Module Py.

(** [s.startswith(p)] *)
Fixpoint startswith (p s : string) : bool :=
  match p, s with
  | EmptyString, _ => true
  | String _ _, EmptyString => false
  | String a p', String b s' => if Ascii.eqb a b then startswith p' s' else false
  end.

(** [s[n:]] *)
Fixpoint drop (n : nat) (s : string) : string :=
  match n, s with
  | 0, _ => s
  | S _, EmptyString => EmptyString
  | S n', String _ s' => drop n' s'
  end.

(** [s.partition(sep)] when [sep] occurs in [s]: the text before its first
    occurrence and the text after it; [None] when [sep] does not occur. *)
Fixpoint partition (sep s : string) {struct s} : option (string * string) :=
  if startswith sep s then Some (EmptyString, drop (String.length sep) s)
  else match s with
       | EmptyString => None
       | String c s' =>
           match partition sep s' with
           | Some (b, a) => Some (String c b, a)
           | None => None
           end
       end.

(** [sep in s] *)
Definition contains (sep s : string) : bool :=
  match partition sep s with Some _ => true | None => false end.

(** [s.split(sep)[0]] *)
Definition split_head (sep s : string) : string :=
  match partition sep s with Some (b, _) => b | None => s end.

(** [s.count(sub)]: occurrences of [sub] counted from the left without
    overlap.  [skip] is the number of characters of the last match that are
    still to be passed over. *)
Fixpoint count_from (sub : string) (skip : nat) (s : string) : nat :=
  match s with
  | EmptyString => if startswith sub EmptyString then 1 else 0
  | String _ s' =>
      match skip with
      | S k => count_from sub k s'
      | 0 =>
          if startswith sub s
          then S (count_from sub (String.length sub - 1) s')
          else count_from sub 0 s'
      end
  end.

Definition count (sub s : string) : nat := count_from sub 0 s.

(** [s.lower()] on the ASCII letters; the bytes of other characters are kept
    (no character outside ASCII lowers to a letter of the tokens that
    [guess_affinity] looks for). *)
Definition lower_char (c : ascii) : ascii :=
  let n := nat_of_ascii c in
  if Nat.leb 65 n && Nat.leb n 90 then ascii_of_nat (n + 32) else c.

Fixpoint lower (s : string) : string :=
  match s with
  | EmptyString => EmptyString
  | String c s' => String (lower_char c) (lower s')
  end.

(** [d[key].append(x)] on a [defaultdict(list)]: a new key goes last, an
    existing key keeps its place. *)
Fixpoint dict_append {A} (key : string) (x : A)
    (d : list (string * list A)) : list (string * list A) :=
  match d with
  | [] => [(key, [x])]
  | (k, xs) :: d' =>
      if decide (k = key) then (k, xs ++ [x]) :: d'
      else (k, xs) :: dict_append key x d'
  end.

(** [d[key]], the empty list for a key that is missing. *)
Fixpoint dict_get {A} (key : string) (d : list (string * list A)) : list A :=
  match d with
  | [] => []
  | (k, xs) :: d' => if decide (k = key) then xs else dict_get key d'
  end.

(** The dictionary that [for x in l: d[kf(x)].append(x)] builds. *)
Definition group_by {A} (kf : A → string) (l : list A) : list (string * list A) :=
  foldl (λ d x, dict_append (kf x) x d) [] l.

(** [sep] occurs in [s] *)
Definition occurs (sep s : string) : Prop :=
  ∃ b a, s = b +:+ sep +:+ a.

(** [b] is the text of [s] before the first occurrence of [sep] *)
Definition before_first (sep s b : string) : Prop :=
  (∃ a, s = b +:+ sep +:+ a) ∧
  ∀ b' a', s = b' +:+ sep +:+ a' → (String.length b ≤ String.length b')%nat.

End Py.

(** ** The document tree *)

Module Xml.

Definition attrs := list (string * string).

Inductive node :=
| Element (tag : string) (attrib : attrs) (text : string)
    (children : list node) (tail : string)
| Comment (text : string) (tail : string).

(** [e.tag]; a comment's tag is not a string and equals none. *)
Definition tag (e : node) : option string :=
  match e with Element t _ _ _ _ => Some t | Comment _ _ => None end.

Definition attrib (e : node) : attrs :=
  match e with Element _ a _ _ _ => a | Comment _ _ => [] end.

(** [list(e)] *)
Definition children (e : node) : list node :=
  match e with Element _ _ _ cs _ => cs | Comment _ _ => [] end.

Fixpoint attr_get (k : string) (a : attrs) : option string :=
  match a with
  | [] => None
  | (k', v) :: a' => if decide (k' = k) then Some v else attr_get k a'
  end.

(** Setting an attribute keeps its place in the mapping, or appends it. *)
Fixpoint attr_set (k v : string) (a : attrs) : attrs :=
  match a with
  | [] => [(k, v)]
  | (k', v') :: a' =>
      if decide (k' = k) then (k, v) :: a' else (k', v') :: attr_set k v a'
  end.

(** [e.get(k)] *)
Definition get (k : string) (e : node) : option string := attr_get k (attrib e).

(** [e.set(k, v)] *)
Definition set (k v : string) (e : node) : node :=
  match e with
  | Element t a x cs tl => Element t (attr_set k v a) x cs tl
  | Comment _ _ => e
  end.

(** [e.iter()]: the node and its descendants in document order. *)
Fixpoint iter (e : node) : list node :=
  e :: match e with
       | Element _ _ _ cs _ => flat_map iter cs
       | Comment _ _ => []
       end.

(** One pass over the tree that updates the attribute mapping of every
    element in place with [f] and adds up the counts [f] returns.  Comments
    carry no attributes: [get] on them answers [None] and they are left as
    they are, whether the traversal visits them ([iter_all],
    [fix_collisions.py]) or not ([iter('*')], [finalize_schema.py]). *)
Fixpoint update_attribs (f : attrs → attrs * nat) (e : node) : node * nat :=
  match e with
  | Element t a x cs tl =>
      let '(a', k) := f a in
      let '(cs', ks) :=
        (fix go (cs : list node) : list node * nat :=
           match cs with
           | [] => ([], 0)
           | c :: cs0 =>
               let '(c', kc) := update_attribs f c in
               let '(cs0', k0) := go cs0 in
               (c' :: cs0', kc + k0)
           end) cs in
      (Element t a' x cs' tl, k + ks)
  | Comment _ _ => (e, 0)
  end.

(** [e'] is [e] up to the value of its [name] attribute. *)
Definition renamed_only (e e' : node) : Prop :=
  tag e' = tag e ∧ ∀ a, a ≠ "name" → get a e' = get a e.

(** The tree after the pass, without the count. *)
Definition updated (f : attrs → attrs * nat) (e : node) : node :=
  (update_attribs f e).1.

End Xml.

(** ** Names shared by the three programs *)

Module Xsd.

Definition XS_NS : string := "http://www.w3.org/2001/XMLSchema".

(** [q(local)]: the Clark notation of a name in the schema namespace. *)
Definition q (local : string) : string := "{" +:+ XS_NS +:+ "}" +:+ local.

(** [e.tag in kinds] *)
Definition tag_in (e : Xml.node) (kinds : list string) : bool :=
  match Xml.tag e with
  | Some t => bool_decide (t ∈ kinds)
  | None => false
  end.

Definition GLOBAL_KINDS : list string :=
  [q "element"; q "complexType"; q "simpleType"].

(** The names of the global declarations of a document, in document order:
    the [name] attributes of the root's children that are elements, complex
    types or simple types. *)
Definition global_names (root : Xml.node) : list string :=
  omap (λ ch, if tag_in ch GLOBAL_KINDS then Xml.get "name" ch else None)
    (Xml.children root).

(** The [(prefix, local name)] split at the first colon that both rewriting
    loops make; the prefix keeps its colon. *)
Definition split_qname (v : string) : string * string :=
  match Py.partition ":" v with
  | Some (pfx, lname) => (pfx +:+ ":", lname)
  | None => ("", v)
  end.

End Xsd.

(** ** [find_collisions.py] *)

Module Detector.

Import Xsd.

Definition GLOBAL_KINDS : list string :=
  [q "element"; q "complexType"; q "simpleType"].

Definition localname (tag : string) : string :=
  match Py.partition "}" tag with
  | Some (_, l) => l
  | None => tag
  end.

Record location := Location { kind : string; line : option nat }.

Inductive message :=
| RootNotSchema
| NoDuplicatesFound
| DuplicateGroups (groups : nat) (lines : list (string * nat * list string)).

Record outcome := Outcome {
  exit_status : Z;
  said : message;
  json_written : option (list (string * list location))
}.

Section Detector.

(** lxml's [sourceline] of the children of the root, by their position among
    them: the line belongs to the element object, so that two children that
    look the same still stand on different lines.  [None] where there is
    none, and everywhere when lxml is missing. *)
Variable sourceline : nat → option nat.

(** The body of [for ch in root], on a child with its position. *)
Definition add_child (by_name : list (string * list location))
    (d : nat * Xml.node) : list (string * list location) :=
  if tag_in d.2 GLOBAL_KINDS then
    match Xml.get "name" d.2, Xml.tag d.2 with
    | Some name, Some t =>
        Py.dict_append name (Location (localname t) (sourceline d.1)) by_name
    | _, _ => by_name
    end
  else by_name.

Definition by_name (root : Xml.node) : list (string * list location) :=
  foldl add_child [] (imap pair (Xml.children root)).

Definition dupes (root : Xml.node) : list (string * list location) :=
  filter (λ kv, 1 < length kv.2) (by_name root).

Definition loc_text (it : location) : string :=
  match line it with
  | Some (S n) => kind it +:+ ":" +:+ pretty (S n)
  | _ => kind it
  end.

Definition summary (d : list (string * list location)) : message :=
  if decide (d = []) then NoDuplicatesFound
  else
    DuplicateGroups (length d)
      ((λ kv, (kv.1, length kv.2, loc_text <$> kv.2)) <$>
         merge_sort (λ x y, String.le x.1 y.1) d).

Definition main (json : bool) (root : Xml.node) : outcome :=
  if decide (Xml.tag root = Some (q "schema")) then
    let d := dupes root in
    Outcome 0 (summary d) (if json then Some d else None)
  else Outcome 2 RootNotSchema None.

End Detector.

End Detector.

(** ** [fix_collisions.py] *)

Module Resolver.

Import Xsd.

Definition GLOBAL_KINDS : list string :=
  [q "element"; q "complexType"; q "simpleType"].
Definition REF_ATTRS : list string := ["type"; "base"; "ref"].

(** A global declaration with the position of the child among the root's
    children, which stands for the object identity [id(node)]. *)
Definition gdecl : Type := nat * Xml.node.

Definition is_global (ch : Xml.node) : bool :=
  tag_in ch GLOBAL_KINDS && bool_decide (is_Some (Xml.get "name" ch)).

(** [ch.attrib["name"]] of a global declaration *)
Definition name_of (ch : Xml.node) : string := default "" (Xml.get "name" ch).

(** [order]: the global declarations in document order. *)
Definition order (root : Xml.node) : list gdecl :=
  filter (λ d, is_global d.2) (imap pair (Xml.children root)).

Definition by_name (root : Xml.node) : list (string * list gdecl) :=
  foldl (λ groups d, Py.dict_append (name_of d.2) d groups) [] (order root).

Record plan_state := PlanState {
  chosen_names : gset string;
  rename_plan : gmap nat (string * string);
  canonical_name : gmap string string
}.

Inductive message :=
| RootNotSchema
| NoDuplicatesToFix
| Planned (renames : list (string * string)) (updates : nat).

Record outcome := Outcome {
  exit_status : Z;
  said : message;
  tree : Xml.node;
  written : option Xml.node
}.

Inductive affinity := RequestLike | ResponseLike | Undetermined.

(** The suffix that [guess_affinity] returns for a class. *)
Definition suffix (a : affinity) : option string :=
  match a with
  | RequestLike => Some "_Rq"
  | ResponseLike => Some "_Rs"
  | Undetermined => None
  end.

Section Resolver.

(** [ET.tostring(elem, encoding="unicode")], the serializer of the XML
    library. *)
Variable tostring : Xml.node → string.

(** [args.fallback_suffix.format(n=n)] as a function of [n], for a pattern
    that [format] accepts; the default pattern is [fallback_default] below. *)
Variable fallback_suffix : nat → string.

Definition text_blob (elem : Xml.node) : string := tostring elem.

(** The two counters after one attribute of one node. *)
Definition attr_signal (n : Xml.node) (sc : nat * nat) (attr : string) : nat * nat :=
  let v := Py.lower (default "" (Xml.get attr n)) in
  let rq := if Py.contains "rq" v then sc.1 + 1 else sc.1 in
  let rs := if Py.contains "rs" v then sc.2 + 1 else sc.2 in
  (rq, rs).

Definition node_signal (sc : nat * nat) (n : Xml.node) : nat * nat :=
  foldl (attr_signal n) sc ["name"; "type"; "base"].

Definition scores (elem : Xml.node) : nat * nat :=
  let blob := Py.lower (text_blob elem) in
  let rq := Py.count "request" blob + Py.count "rqecho" blob + Py.count ">rq<" blob in
  let rs := Py.count "response" blob + Py.count "echoflag" blob + Py.count ">rs<" blob in
  foldl node_signal (rq, rs) (Xml.iter elem).

Definition guess_affinity (elem : Xml.node) : option string :=
  let '(rq, rs) := scores elem in
  if decide (rs + 2 ≤ rq) then Some "_Rq"
  else if decide (rq + 2 ≤ rs) then Some "_Rs"
  else if decide (rs < rq ∧ 2 ≤ rq) then Some "_Rq"
  else if decide (rq < rs ∧ 2 ≤ rs) then Some "_Rs"
  else None.

(** The heuristic in the words of the specification: the values of the
    [name], [type] and [base] attributes in the subtree, the two scores and
    the ordered decision rule. *)
Definition signal_values (elem : Xml.node) : list string :=
  n ← Xml.iter elem; omap (λ a, Xml.get a n) ["name"; "type"; "base"].

Definition mentions (token v : string) : bool :=
  Py.contains token (Py.lower v).

Definition rq_score (elem : Xml.node) : nat :=
  let text := Py.lower (tostring elem) in
  Py.count "request" text + Py.count "rqecho" text + Py.count ">rq<" text
  + length (filter (mentions "rq") (signal_values elem)).

Definition rs_score (elem : Xml.node) : nat :=
  let text := Py.lower (tostring elem) in
  Py.count "response" text + Py.count "echoflag" text + Py.count ">rs<" text
  + length (filter (mentions "rs") (signal_values elem)).

Definition classify (rq rs : nat) : affinity :=
  if rs + 2 <=? rq then RequestLike
  else if rq + 2 <=? rs then ResponseLike
  else if (rs <? rq) && (2 <=? rq) then RequestLike
  else if (rq <? rs) && (2 <=? rs) then ResponseLike
  else Undetermined.

(** The [while new_name in chosen_names] loop; [fuel] bounds the number of
    times its body runs. *)
Fixpoint bump_loop (fuel : nat) (name : string) (chosen : gset string)
    (new_name : string) (bump : nat) : option string :=
  if decide (new_name ∈ chosen) then
    match fuel with
    | 0 => None
    | S fuel' =>
        bump_loop fuel' name chosen (name +:+ fallback_suffix (S bump)) (S bump)
    end
  else Some new_name.

(** The body of [for i, node in enumerate(nodes, start=1)]. *)
Definition rename_member (fuel : nat) (name : string) (i : nat) (d : gdecl)
    (s : plan_state) : option plan_state :=
  if decide (i = 1) then Some s
  else
    let hx := guess_affinity d.2 in
    let base := name +:+ default (fallback_suffix i) hx in
    new_name ← bump_loop fuel name (chosen_names s) base i;
    Some (PlanState ({[new_name]} ∪ chosen_names s)
            (<[d.1 := (name, new_name)]> (rename_plan s))
            (canonical_name s)).

Fixpoint rename_members (fuel : nat) (name : string) (i : nat)
    (nodes : list gdecl) (s : plan_state) : option plan_state :=
  match nodes with
  | [] => Some s
  | d :: nodes' =>
      s' ← rename_member fuel name i d s;
      rename_members fuel name (S i) nodes' s'
  end.

(** The body of [for name, nodes in by_name.items()]. *)
Definition rename_group (fuel : nat) (g : string * list gdecl)
    (s : plan_state) : option plan_state :=
  if decide (length g.2 ≤ 1) then Some s
  else
    rename_members fuel g.1 1 g.2
      (PlanState (chosen_names s) (rename_plan s)
         (<[g.1 := g.1]> (canonical_name s))).

Fixpoint rename_groups (fuel : nat) (groups : list (string * list gdecl))
    (s : plan_state) : option plan_state :=
  match groups with
  | [] => Some s
  | g :: groups' => s' ← rename_group fuel g s; rename_groups fuel groups' s'
  end.

Definition build_plan (fuel : nat) (groups : list (string * list gdecl))
    : option plan_state :=
  rename_groups fuel groups (PlanState (list_to_set groups.*1) ∅ ∅).

(** Step 3: [ch.set("name", new)] on the children that the plan names. *)
Definition apply_rename (plan : gmap nat (string * string))
    (cs : list Xml.node) (d : gdecl) : list Xml.node :=
  match plan !! d.1 with
  | Some (_, new) => alter (Xml.set "name" new) d.1 cs
  | None => cs
  end.

Definition apply_renames (plan : gmap nat (string * string)) (root : Xml.node)
    : Xml.node :=
  match root with
  | Xml.Element t a x cs tl =>
      Xml.Element t a x (foldl (apply_rename plan) cs (order root)) tl
  | Xml.Comment _ _ => root
  end.

Definition changed_groups (plan : gmap nat (string * string)) : gset string :=
  list_to_set ((λ kv, kv.2.1) <$> map_to_list plan).

(** Step 4, one attribute of one node; the state is the node's attribute
    mapping and the running [updates]. *)
Definition update_reference (changed : gset string)
    (canonical : gmap string string)
    (st : Xml.attrs * nat) (a : string) : Xml.attrs * nat :=
  match Xml.attr_get a st.1 with
  | None => st
  | Some v =>
      if decide (v = "") then st
      else
        let '(prefix, lname) := split_qname v in
        if decide (lname ∈ changed) then
          let canon := default lname (canonical !! lname) in
          let nv := prefix +:+ canon in
          if decide (nv ≠ v) then (Xml.attr_set a nv st.1, S st.2) else st
        else st
  end.

Definition update_element (changed : gset string)
    (canonical : gmap string string) (a : Xml.attrs) : Xml.attrs * nat :=
  foldl (update_reference changed canonical) (a, 0) REF_ATTRS.

Definition update_references (changed : gset string)
    (canonical : gmap string string) (root : Xml.node) : Xml.node * nat :=
  Xml.update_attribs (update_element changed canonical) root.

Definition planned_renames (plan : gmap nat (string * string))
    (root : Xml.node) : list (string * string) :=
  omap (λ d : gdecl, plan !! d.1) (order root).

(** [main]; [None] when a [while] loop is still running after [fuel]
    rounds. *)
Definition main (fuel : nat) (dry_run : bool) (root : Xml.node) : option outcome :=
  if decide (Xml.tag root = Some (q "schema")) then
    s ← build_plan fuel (by_name root);
    if decide (rename_plan s = ∅) then
      Some (Outcome 0 NoDuplicatesToFix root None)
    else
      let renamed := apply_renames (rename_plan s) root in
      let '(final, updates) :=
        update_references (changed_groups (rename_plan s)) (canonical_name s)
          renamed in
      Some (Outcome 0 (Planned (planned_renames (rename_plan s) root) updates)
              final (if dry_run then None else Some final))
  else Some (Outcome 2 RootNotSchema root None).

End Resolver.

(** The default [--fallback-suffix], [_x{n}]. *)
Definition fallback_default (n : nat) : string := "_x" +:+ pretty n.

(** What holds of the state of the plan-building loop, [existing] being the
    set of names the document came with: the chosen names include them,
    every planned new name is chosen and is none of them, no two
    declarations are given the same new name, and a canonical name is the
    name itself. *)
Definition plan_inv (existing : gset string) (s : plan_state) : Prop :=
  existing ⊆ chosen_names s ∧
  (∀ j o n, rename_plan s !! j = Some (o, n) →
     n ∈ chosen_names s ∧ n ∉ existing) ∧
  (∀ j j' o o' n, rename_plan s !! j = Some (o, n) →
     rename_plan s !! j' = Some (o', n) → j = j') ∧
  (∀ k v, canonical_name s !! k = Some v → v = k).

(** The name under which a global declaration leaves step 3. *)
Definition final_name (plan : gmap nat (string * string)) (d : gdecl) : string :=
  match plan !! d.1 with
  | Some (_, new) => new
  | None => name_of d.2
  end.

(** Step 3 on one child, by its position. *)
Definition rename_child (plan : gmap nat (string * string)) (j : nat)
    (ch : Xml.node) : Xml.node :=
  if is_global ch then
    match plan !! j with
    | Some (_, new) => Xml.set "name" new ch
    | None => ch
    end
  else ch.

(** The members that the plan-building loop names, in the order in which it
    names them: for each group, in the order of [by_name], its members after
    the first, each with the name of the group and its 1-based position. *)
Definition renamed_members (groups : list (string * list gdecl))
    : list (string * nat * gdecl) :=
  groups ≫= λ g, imap (λ p d, (g.1, p + 2, d)) (tail g.2).

(** The new names that a plan holds for some of these members. *)
Definition new_names (plan : gmap nat (string * string))
    (l : list (string * nat * gdecl)) : list string :=
  omap (λ x, snd <$> plan !! x.2.1) l.

(** The names that are taken when the loop comes to the member at position
    [q] of [members]: the names in [existing] and the new names of the
    members before it. *)
Definition taken_before (existing : gset string)
    (plan : gmap nat (string * string))
    (members : list (string * nat * gdecl)) (q : nat) : gset string :=
  existing ∪ list_to_set (new_names plan (take q members)).

(** The loop went from [s] to [s'] naming the members [l] one after the
    other: each got the name that the [while] loop accepts on the names
    that [s] had chosen and the new names of the members before it, the
    chosen names grew by these new names, and the plan is as it was for
    every other declaration. *)
Definition plan_trace (tostring : Xml.node → string)
    (fallback_suffix : nat → string) (fuel : nat)
    (l : list (string * nat * gdecl)) (s s' : plan_state) : Prop :=
  chosen_names s' = chosen_names s ∪ list_to_set (new_names (rename_plan s') l) ∧
  (∀ j, j ∉ l.*2.*1 → rename_plan s' !! j = rename_plan s !! j) ∧
  (∀ q name i d, l !! q = Some (name, i, d) →
     ∃ n, rename_plan s' !! d.1 = Some (name, n) ∧
       bump_loop fallback_suffix fuel name
         (taken_before (chosen_names s) (rename_plan s') l q)
         (name +:+ default (fallback_suffix i) (guess_affinity tostring d.2)) i
       = Some n).

End Resolver.

(** ** [finalize_schema.py] *)

Module Finalize.

Import Xsd.

Definition GLOBAL_DEFINITIONS : list string := [q "complexType"; q "simpleType"].
Definition GLOBAL_COMPONENTS : list string :=
  [q "element"; q "complexType"; q "simpleType"].
Definition REF_ATTRS : list string := ["type"; "base"; "ref"].

Definition add_global_name (names : gset string) (child : Xml.node) : gset string :=
  if tag_in child GLOBAL_COMPONENTS then
    match Xml.get "name" child with
    | Some n => {[n]} ∪ names
    | None => names
    end
  else names.

Definition get_global_names (root : Xml.node) : gset string :=
  foldl add_global_name ∅ (Xml.children root).

(** The body of the loop over [renamed_components]. *)
Definition infer_step (renamed : string) (ambiguous_names : gset string) : gset string :=
  if Py.contains "_x" renamed then {[Py.split_head "_x" renamed]} ∪ ambiguous_names
  else if Py.contains "_R" renamed then {[Py.split_head "_R" renamed]} ∪ ambiguous_names
  else ambiguous_names.

Definition ambiguous_names (original_globals fixed_globals : gset string) : gset string :=
  let renamed_components := fixed_globals ∖ original_globals in
  set_fold infer_step ∅ renamed_components.

Definition rename_plan (ambiguous : gset string) : gmap string string :=
  set_to_map (λ name, (name, name +:+ "Type")) ambiguous.

(** Part A, one child of the root. *)
Definition rename_definition (plan : gmap string string) (child : Xml.node) : Xml.node :=
  if tag_in child GLOBAL_DEFINITIONS then
    match Xml.get "name" child with
    | Some old_name =>
        match plan !! old_name with
        | Some new_name => Xml.set "name" new_name child
        | None => child
        end
    | None => child
    end
  else child.

Definition rename_definitions (plan : gmap string string) (root : Xml.node) : Xml.node :=
  match root with
  | Xml.Element t a x cs tl => Xml.Element t a x (rename_definition plan <$> cs) tl
  | Xml.Comment _ _ => root
  end.

(** Part B, one attribute of one element; the state is the element's
    attribute mapping and the running [update_count]. *)
Definition update_reference (plan : gmap string string)
    (st : Xml.attrs * nat) (attr_name : string) : Xml.attrs * nat :=
  match Xml.attr_get attr_name st.1 with
  | None => st
  | Some attr_value =>
      if decide (attr_value = "") then st
      else
        let '(prefix, local_name) := split_qname attr_value in
        match plan !! local_name with
        | Some new_local_name =>
            (Xml.attr_set attr_name (prefix +:+ new_local_name) st.1, S st.2)
        | None => st
        end
  end.

Definition update_element (plan : gmap string string) (a : Xml.attrs) : Xml.attrs * nat :=
  foldl (update_reference plan) (a, 0) REF_ATTRS.

Definition update_references (plan : gmap string string) (root : Xml.node) : Xml.node * nat :=
  Xml.update_attribs (update_element plan) root.

(** What one round of the inference loop adds to [ambiguous_names]. *)
Definition infer (renamed : string) : option string :=
  if Py.contains "_x" renamed then Some (Py.split_head "_x" renamed)
  else if Py.contains "_R" renamed then Some (Py.split_head "_R" renamed)
  else None.

(** The base name read off an introduced name, in the words of the
    specification: the text before the first [_x] if there is one, else the
    text before the first [_R]. *)
Definition inferred_base (renamed base : string) : Prop :=
  Py.before_first "_x" renamed base ∨
  (¬ Py.occurs "_x" renamed ∧ Py.before_first "_R" renamed base).

(** The value that Part B leaves in a reference attribute holding [v]. *)
Definition new_value (plan : gmap string string) (v : string) : string :=
  if decide (v = "") then v
  else
    match plan !! (split_qname v).2 with
    | Some new_local_name => (split_qname v).1 +:+ new_local_name
    | None => v
    end.

(** The rename plan of a run. *)
Definition plan_of (original fixed : Xml.node) : gmap string string :=
  rename_plan (ambiguous_names (get_global_names original) (get_global_names fixed)).

Inductive message :=
| NoChangesNeeded
| Finalized (ambiguous : gset string) (update_count : nat).

Record outcome := Outcome {
  exit_status : Z;
  said : message;
  written : option Xml.node
}.

Definition main (original_root fixed_root : Xml.node) : outcome :=
  let original_globals := get_global_names original_root in
  let fixed_globals := get_global_names fixed_root in
  let ambiguous := ambiguous_names original_globals fixed_globals in
  if decide (ambiguous = ∅) then Outcome 0 NoChangesNeeded None
  else
    let plan := rename_plan ambiguous in
    let renamed := rename_definitions plan original_root in
    let '(final, update_count) := update_references plan renamed in
    Outcome 0 (Finalized ambiguous update_count) (Some final).

End Finalize.

(** ** Sample documents *)

Module Samples.

Import Xml Xsd.

Definition schema (cs : list node) : node := Element (q "schema") [] "" cs "".

Definition complex_type (name : string) (cs : list node) : node :=
  Element (q "complexType") [("name", name)] "" cs "".

Definition element (name type : string) : node :=
  Element (q "element") [("name", name); ("type", type)] "" [] "".

Definition element_ref (ref : string) : node :=
  Element (q "element") [("ref", ref)] "" [] "".

(** Two complex types named [Foo], referred to with and without a prefix. *)
Definition foo_original : node :=
  schema [complex_type "Foo" []; element "a" "tns:Foo"; element "b" "Foo";
          complex_type "Foo" [element "c" "xs:string"]].

Definition foo_fixed : node :=
  schema [complex_type "Foo" []; element "a" "tns:Foo"; element "b" "Foo";
          complex_type "Foo_x2" [element "c" "xs:string"]].

Definition foo_final : node :=
  schema [complex_type "FooType" []; element "a" "tns:FooType";
          element "b" "FooType";
          complex_type "FooType" [element "c" "xs:string"]].

(** Two complex types with an empty name and an empty reference. *)
Definition empty_original : node :=
  schema [complex_type "" []; element "a" ""; complex_type "" []].

Definition empty_fixed : node :=
  schema [complex_type "" []; element "a" ""; complex_type "_x2" []].

Definition empty_final : node :=
  schema [complex_type "Type" []; element "a" ""; complex_type "Type" []].

(** Two global elements named [Foo] and a reference to them. *)
Definition ref_original : node :=
  schema [element "Foo" "xs:string"; element "Foo" "xs:int";
          complex_type "Holder" [element_ref "Foo"]].

Definition ref_fixed : node :=
  schema [element "Foo" "xs:string"; element "Foo_x2" "xs:int";
          complex_type "Holder" [element_ref "Foo"]].

Definition ref_final : node :=
  schema [element "Foo" "xs:string"; element "Foo" "xs:int";
          complex_type "Holder" [element_ref "FooType"]].

(** A serializer for documents without text: the heuristic then sees the
    attribute values only. *)
Definition no_text (e : node) : string := "".

(** What the resolver does on [foo_original] under the default pattern. *)
Definition foo_plan : Resolver.plan_state :=
  Resolver.PlanState
    (list_to_set ["Foo"; "a"; "b"; "Foo_x2"])
    (<[3 := ("Foo", "Foo_x2")]> ∅)
    (<["Foo" := "Foo"]> ∅).

Definition foo_resolved : Resolver.outcome :=
  Resolver.Outcome 0 (Resolver.Planned [("Foo", "Foo_x2")] 0)
    foo_fixed (Some foo_fixed).

(** A document whose root is not a schema element. *)
Definition not_a_schema : node :=
  Element "root" [] "" [complex_type "Foo" []; complex_type "Foo" []] "".

Definition not_a_schema_fixed : node :=
  Element "root" [] "" [complex_type "Foo" []; complex_type "Foo_x2" []] "".

Definition not_a_schema_final : node :=
  Element "root" [] "" [complex_type "FooType" []; complex_type "FooType" []] "".

(** Two complex types named [Op]; the second mentions [Rq] in two attribute
    values of its subtree. *)
Definition rq_original : node :=
  schema [complex_type "Op" []; complex_type "Op" [element "aRq" "xRq"]].

Definition rq_plan : Resolver.plan_state :=
  Resolver.PlanState
    (list_to_set ["Op"; "Op_Rq"])
    (<[1 := ("Op", "Op_Rq")]> ∅)
    (<["Op" := "Op"]> ∅).

(** A global element and a global complex type, both named [Foo]; the
    element is of type [Foo]. *)
Definition mixed_original : node :=
  schema [element "Foo" "Foo"; complex_type "Foo" []].

Definition mixed_fixed : node :=
  schema [element "Foo" "Foo"; complex_type "Foo_x2" []].

(** Three complex types named [Foo] and one named [Foo_x2]. *)
Definition numbered_original : node :=
  schema [complex_type "Foo" []; complex_type "Foo_x2" [];
          complex_type "Foo" []; complex_type "Foo" []].

(** What the resolver does on [numbered_original] under the default pattern:
    [Foo_x2] is there, the second [Foo] becomes [Foo_x3], and the third,
    which finds [Foo_x3] taken, [Foo_x4]. *)
Definition numbered_plan : Resolver.plan_state :=
  Resolver.PlanState
    (list_to_set ["Foo"; "Foo_x2"; "Foo_x3"; "Foo_x4"])
    (<[2 := ("Foo", "Foo_x3")]> (<[3 := ("Foo", "Foo_x4")]> ∅))
    (<["Foo" := "Foo"]> ∅).

(** Three complex types named [Foo]. *)
Definition triple_original : node :=
  schema [complex_type "Foo" []; complex_type "Foo" []; complex_type "Foo" []].

End Samples.

(** * Properties *)

(** ** Strings *)

Module PyFacts.

Import Py.

Lemma app_nil_l (s : string) : "" +:+ s = s.
Proof. reflexivity. Qed.

Lemma app_cons (c : ascii) (s t : string) : String c s +:+ t = String c (s +:+ t).
Proof. reflexivity. Qed.

Lemma app_nil_r (s : string) : s +:+ "" = s.
Proof. induction s as [|c s IH]; [done|]. by rewrite app_cons, IH. Qed.

Lemma app_assoc (s t u : string) : (s +:+ t) +:+ u = s +:+ t +:+ u.
Proof. induction s as [|c s IH]; [done|]. by rewrite !app_cons, IH. Qed.

Lemma app_length (s t : string) :
  String.length (s +:+ t) = String.length s + String.length t.
Proof. induction s as [|c s IH]; [done|]. rewrite app_cons. simpl. by rewrite IH. Qed.

Lemma startswith_app (p r : string) : startswith p (p +:+ r) = true.
Proof.
  induction p as [|c p IH]; [done|]. rewrite app_cons. simpl.
  by rewrite Ascii.eqb_refl.
Qed.

Lemma startswith_inv (p s : string) :
  startswith p s = true → s = p +:+ drop (String.length p) s.
Proof.
  revert s. induction p as [|c p IH]; intros [|d s]; simpl; try done.
  destruct (Ascii.eqb c d) eqn:E; [|done]. apply Ascii.eqb_eq in E as ->.
  intros H. rewrite app_cons. f_equal. by apply IH.
Qed.

Lemma startswith_false (p s r : string) : startswith p s = false → s ≠ p +:+ r.
Proof. intros H ->. by rewrite startswith_app in H. Qed.

Lemma partition_sound (sep s b a : string) :
  partition sep s = Some (b, a) → s = b +:+ sep +:+ a.
Proof.
  revert b a. induction s as [|c s IH]; intros b a; simpl.
  - destruct (startswith sep "") eqn:E; [|done].
    intros [= <- <-]. by apply startswith_inv in E.
  - destruct (startswith sep (String c s)) eqn:E.
    + intros [= <- <-]. by apply startswith_inv in E.
    + destruct (partition sep s) as [[b0 a0]|]; [|done].
      intros [= <- <-]. rewrite app_cons. f_equal. by apply IH.
Qed.

Lemma partition_first (sep s b a b' a' : string) :
  partition sep s = Some (b, a) → s = b' +:+ sep +:+ a' →
  String.length b ≤ String.length b'.
Proof.
  revert b a b'. induction s as [|c s IH]; intros b a b'; simpl.
  - destruct (startswith sep "") eqn:E; [|done].
    intros [= <- <-] _. simpl. lia.
  - destruct (startswith sep (String c s)) eqn:E.
    + intros [= <- <-] _. simpl. lia.
    + destruct (partition sep s) as [[b0 a0]|] eqn:Ep; [|done].
      intros [= <- <-] Hs. destruct b' as [|c' b'].
      * by apply startswith_false with (r := a') in E.
      * rewrite app_cons in Hs. injection Hs as -> Hs. simpl.
        apply le_n_S. by eapply IH.
Qed.

Lemma partition_complete (sep s b a : string) :
  s = b +:+ sep +:+ a → is_Some (partition sep s).
Proof.
  revert s. induction b as [|c b IH]; intros s ->.
  - destruct a, sep; simpl; rewrite ?app_nil_l, ?startswith_app; eauto.
    all: rewrite ?app_cons; simpl; rewrite ?Ascii.eqb_refl, ?startswith_app; eauto.
  - rewrite app_cons. simpl.
    destruct (startswith sep (String c (b +:+ sep +:+ a))); [eauto|].
    destruct (IH _ eq_refl) as [[b0 a0] ->]. eauto.
Qed.

Lemma app_same_length (b b' r r' : string) :
  b +:+ r = b' +:+ r' → String.length b = String.length b' → b = b'.
Proof.
  revert b'. induction b as [|c b IH]; intros [|c' b']; simpl; try done.
  rewrite !app_cons. intros [= -> H] [= Hl]. f_equal. by apply IH.
Qed.

Lemma partition_before_first (sep s b : string) :
  before_first sep s b ↔ ∃ a, partition sep s = Some (b, a).
Proof.
  split.
  - intros [[a Ha] Hmin].
    destruct (partition_complete sep s b a Ha) as [[b0 a0] Hp].
    exists a0. rewrite Hp. do 2 f_equal.
    pose proof (partition_sound _ _ _ _ Hp) as Hs.
    pose proof (partition_first _ _ _ _ _ _ Hp Ha) as Hle.
    pose proof (Hmin _ _ Hs) as Hge.
    symmetry. eapply app_same_length; [by rewrite <-Ha, <-Hs|lia].
  - intros [a Hp]. split.
    + exists a. by apply partition_sound.
    + intros b' a' Hs. by eapply partition_first.
Qed.

Lemma contains_occurs (sep s : string) : contains sep s = true ↔ occurs sep s.
Proof.
  unfold contains, occurs. split.
  - destruct (partition sep s) as [[b a]|] eqn:Hp; [|done].
    intros _. exists b, a. by apply partition_sound.
  - intros (b & a & Hs). by destruct (partition_complete _ _ _ _ Hs) as [? ->].
Qed.

Lemma split_head_before_first (sep s : string) :
  contains sep s = true → before_first sep s (split_head sep s).
Proof.
  unfold contains, split_head.
  destruct (partition sep s) as [[b a]|] eqn:Hp; [|done].
  intros _. apply partition_before_first. eauto.
Qed.

(** A separator of one character: the text before its first occurrence does
    not contain it, and the split of a concatenation is the split of its
    second part when the first has no separator. *)
Lemma partition_char_before (c : ascii) (s b a : string) :
  partition (String c "") s = Some (b, a) → partition (String c "") b = None.
Proof.
  revert b a. induction s as [|d s IH]; intros b a; simpl; [done|].
  destruct (Ascii.eqb c d) eqn:E.
  - intros [= <- <-]. done.
  - destruct (partition (String c "") s) as [[b0 a0]|] eqn:Hp; [|done].
    intros [= <- <-]. simpl. rewrite E. by erewrite IH.
Qed.

Lemma partition_char_app (c : ascii) (s t : string) :
  partition (String c "") s = None →
  partition (String c "") (s +:+ t) =
    match partition (String c "") t with
    | Some (b, a) => Some (s +:+ b, a)
    | None => None
    end.
Proof.
  induction s as [|d s IH]; intros H.
  - rewrite app_nil_l. destruct (partition _ t) as [[??]|]; by rewrite ?app_nil_l.
  - simpl in H. destruct (Ascii.eqb c d) eqn:E; [done|].
    destruct (partition (String c "") s) as [[b0 a0]|] eqn:Hp; [done|].
    rewrite app_cons. simpl. rewrite E, IH by done.
    destruct (partition _ t) as [[??]|]; by rewrite ?app_cons.
Qed.

End PyFacts.

(** ** The document tree *)

Module XmlFacts.

Import Xml.

(** Induction over a tree whose children satisfy the property. *)
Lemma node_forall_ind (P : node → Prop) :
  (∀ t a x cs tl, Forall P cs → P (Element t a x cs tl)) →
  (∀ x tl, P (Comment x tl)) →
  ∀ e, P e.
Proof.
  intros HE HC. fix IH 1. intros [t a x cs tl|x tl]; [|apply HC].
  apply HE. induction cs as [|c cs IHcs]; constructor; [apply IH|apply IHcs].
Qed.

Lemma attr_get_set_eq (k v : string) (a : attrs) :
  attr_get k (attr_set k v a) = Some v.
Proof.
  induction a as [|[k' v'] a IH]; simpl; repeat (case_decide; simpl); done.
Qed.

Lemma attr_get_set_ne (k k' v : string) (a : attrs) :
  k ≠ k' → attr_get k' (attr_set k v a) = attr_get k' a.
Proof.
  intros Hne. induction a as [|[k0 v0] a IH]; simpl;
    repeat (case_decide; simpl); congruence.
Qed.

Lemma tag_set (k v : string) (e : node) : tag (set k v e) = tag e.
Proof. by destruct e. Qed.

Lemma children_set (k v : string) (e : node) : children (set k v e) = children e.
Proof. by destruct e. Qed.

Lemma get_set_ne (k k' v : string) (e : node) :
  k ≠ k' → get k' (set k v e) = get k' e.
Proof. intros ?. destruct e; [|done]. by apply attr_get_set_ne. Qed.

Lemma get_set_eq (k v : string) (e : node) :
  is_Some (tag e) → get k (set k v e) = Some v.
Proof. destruct e; [|by intros [? [=]]]. intros _. apply attr_get_set_eq. Qed.

Lemma iter_set (k v : string) (e : node) :
  iter (set k v e) = set k v e :: tail (iter e).
Proof. by destruct e. Qed.

Lemma iter_unfold (e : node) : iter e = e :: flat_map iter (children e).
Proof. by destruct e. Qed.

Lemma update_attribs_element f t a x cs tl :
  update_attribs f (Element t a x cs tl) =
    (Element t (f a).1 x (updated f <$> cs) tl,
     (f a).2 + sum_list ((λ c, (update_attribs f c).2) <$> cs)).
Proof.
  simpl. destruct (f a) as [a' k]. simpl.
  match goal with
  | |- (let '(_, _) := ?g cs in _) = _ =>
      assert (g cs = (updated f <$> cs,
                      sum_list ((λ c, (update_attribs f c).2) <$> cs))) as ->
  end; [|done].
  induction cs as [|c cs IH]; [done|].
  rewrite IH. unfold updated. simpl. by destruct (update_attribs f c).
Qed.

Lemma tag_updated f e : tag (updated f e) = tag e.
Proof.
  destruct e; [|done]. unfold updated. by rewrite update_attribs_element.
Qed.

Lemma children_updated f e : children (updated f e) = updated f <$> children e.
Proof.
  destruct e; [|done]. unfold updated at 1. by rewrite update_attribs_element.
Qed.

Lemma attrib_updated f e :
  is_Some (tag e) → attrib (updated f e) = (f (attrib e)).1.
Proof.
  destruct e; [|by intros [? [=]]]. intros _.
  unfold updated. by rewrite update_attribs_element.
Qed.

Lemma get_updated f k e :
  get k (updated f e) =
    attr_get k (match tag e with Some _ => (f (attrib e)).1 | None => [] end).
Proof.
  destruct e; [|done]. unfold updated, get.
  by rewrite update_attribs_element.
Qed.

Lemma iter_updated f e : iter (updated f e) = updated f <$> iter e.
Proof.
  induction e as [t a x cs tl IH|x tl] using node_forall_ind; [|done].
  rewrite (iter_unfold (updated _ _)), children_updated.
  rewrite (iter_unfold (Element _ _ _ _ _)), fmap_cons. f_equal.
  change (children (Element t a x cs tl)) with cs.
  induction IH as [|c cs Hc _ IHcs]; [done|].
  rewrite fmap_cons. simpl flat_map. by rewrite fmap_app, Hc, IHcs.
Qed.

(** A pass whose function changes nothing and counts nothing leaves the
    tree as it is and counts nothing. *)
Lemma update_attribs_id f e :
  (∀ a, f a = (a, 0)) → update_attribs f e = (e, 0).
Proof.
  intros Hf. induction e as [t a x cs tl IH|x tl] using node_forall_ind; [|done].
  rewrite update_attribs_element, Hf.
  assert (updated f <$> cs = cs ∧
          sum_list ((λ c, (update_attribs f c).2) <$> cs) = 0) as [-> ->]; [|done].
  induction IH as [|c cs Hc _ [IH1 IH2]]; [done|].
  rewrite !fmap_cons. unfold updated at 1. rewrite Hc. simpl. by rewrite IH1, IH2.
Qed.

Lemma renamed_only_refl (e : node) : renamed_only e e.
Proof. by split. Qed.

Lemma renamed_only_set (v : string) (e : node) : renamed_only e (set "name" v e).
Proof. split; [apply tag_set|]. intros a Ha. by apply get_set_ne. Qed.

Lemma Forall2_renamed_only_refl (l : list node) : Forall2 renamed_only l l.
Proof. induction l; constructor; auto using renamed_only_refl. Qed.

(** Renaming children only: the two trees agree node by node, in document
    order, up to [name] attributes. *)
Lemma iter_renamed_children t a x cs cs' tl :
  Forall2 (λ c c', renamed_only c c' ∧ tail (iter c') = tail (iter c)) cs cs' →
  Forall2 renamed_only (iter (Element t a x cs tl)) (iter (Element t a x cs' tl)).
Proof.
  intros H. rewrite !(iter_unfold (Element _ _ _ _ _)).
  constructor; [by split|].
  change (children (Element t a x cs tl)) with cs.
  change (children (Element t a x cs' tl)) with cs'.
  induction H as [|c c' cs cs' [Hc Ht] _ IH]; [constructor|].
  simpl flat_map. apply Forall2_app; [|done].
  rewrite (iter_unfold c), (iter_unfold c').
  rewrite (iter_unfold c), (iter_unfold c') in Ht. simpl in Ht. rewrite Ht.
  constructor; [done|apply Forall2_renamed_only_refl].
Qed.

End XmlFacts.

(** ** Qualified names and global names *)

Module XsdFacts.

Import Xml Xsd XmlFacts.

Lemma elem_of_global_names (root : node) (n : string) :
  n ∈ global_names root ↔
  ∃ ch, ch ∈ children root ∧ tag_in ch GLOBAL_KINDS = true ∧ get "name" ch = Some n.
Proof.
  unfold global_names. rewrite list_elem_of_omap. split.
  - intros (ch & Hch & H). exists ch. destruct (tag_in ch GLOBAL_KINDS); naive_solver.
  - intros (ch & Hch & Ht & Hn). exists ch. by rewrite Ht.
Qed.

Lemma split_qname_join v : (split_qname v).1 +:+ (split_qname v).2 = v.
Proof.
  unfold split_qname. destruct (Py.partition ":" v) as [[pfx l]|] eqn:E; [|done].
  simpl. rewrite PyFacts.app_assoc. symmetry. by apply PyFacts.partition_sound.
Qed.

Lemma tag_in_is_Some ch kinds : tag_in ch kinds = true → is_Some (tag ch).
Proof. unfold tag_in. destruct (tag ch); [eauto|done]. Qed.

Lemma tag_in_renamed_only e e' kinds :
  renamed_only e e' → tag_in e' kinds = tag_in e kinds.
Proof. intros [Ht _]. unfold tag_in. by rewrite Ht. Qed.

Lemma tag_in_updated f e kinds : tag_in (updated f e) kinds = tag_in e kinds.
Proof. unfold tag_in. by rewrite tag_updated. Qed.

Lemma tag_in_set k v e kinds : tag_in (set k v e) kinds = tag_in e kinds.
Proof. unfold tag_in. by rewrite tag_set. Qed.

End XsdFacts.

(** ** [finalize_schema.py]: names and plan *)

Module FinalizeFacts.

Import Xml Xsd Finalize XmlFacts XsdFacts.

Lemma elem_of_get_global_names (root : node) (n : string) :
  n ∈ get_global_names root ↔ n ∈ global_names root.
Proof.
  unfold get_global_names, global_names.
  assert (∀ acc : gset string,
    n ∈ foldl add_global_name acc (children root) ↔
    n ∈ acc ∨ n ∈ omap (λ ch, if tag_in ch GLOBAL_KINDS then get "name" ch else None)
                    (children root)) as H.
  { induction (children root) as [|ch cs IH]; intros acc; simpl.
    - rewrite elem_of_nil. tauto.
    - rewrite IH. unfold add_global_name.
      change GLOBAL_COMPONENTS with GLOBAL_KINDS.
      destruct (tag_in ch GLOBAL_KINDS); [|tauto].
      destruct (get "name" ch) as [m|]; [|tauto].
      rewrite elem_of_cons, elem_of_union, elem_of_singleton. tauto. }
  rewrite H, elem_of_empty. tauto.
Qed.

Lemma infer_inferred_base (n b : string) : infer n = Some b ↔ inferred_base n b.
Proof.
  unfold infer, inferred_base.
  destruct (Py.contains "_x" n) eqn:Ex.
  - pose proof (PyFacts.split_head_before_first _ _ Ex) as Hb.
    apply PyFacts.contains_occurs in Ex. split.
    + intros [= <-]. by left.
    + intros [Hb'|[? _]]; [|done]. f_equal.
      apply PyFacts.partition_before_first in Hb as [a Ha].
      apply PyFacts.partition_before_first in Hb' as [a' Ha']. congruence.
  - assert (¬ Py.occurs "_x" n) as Hx.
    { rewrite <-PyFacts.contains_occurs. by rewrite Ex. }
    destruct (Py.contains "_R" n) eqn:Er.
    + pose proof (PyFacts.split_head_before_first _ _ Er) as Hb. split.
      * intros [= <-]. by right.
      * intros [[[a ->] _]|[_ Hb']]; [destruct Hx; by eexists _, _|]. f_equal.
        apply PyFacts.partition_before_first in Hb as [a Ha].
        apply PyFacts.partition_before_first in Hb' as [a' Ha']. congruence.
    + split; [done|].
      intros [[[a ->] _]|[_ [[a ->] _]]]; [destruct Hx; by eexists _, _|].
      assert (Py.contains "_R" (b +:+ "_R" +:+ a) = true) as E; [|congruence].
      apply PyFacts.contains_occurs. by eexists _, _.
Qed.

Lemma elem_of_infer_step (m b : string) (X : gset string) :
  b ∈ infer_step m X ↔ infer m = Some b ∨ b ∈ X.
Proof.
  unfold infer_step, infer.
  destruct (Py.contains "_x" m); [|destruct (Py.contains "_R" m)];
    rewrite ?elem_of_union, ?elem_of_singleton; naive_solver.
Qed.

Lemma elem_of_infer_fold (l : list string) (b : string) :
  b ∈ foldr infer_step ∅ l ↔ ∃ n, n ∈ l ∧ infer n = Some b.
Proof.
  induction l as [|m l IH]; simpl.
  - rewrite elem_of_empty. split; [done|]. intros (n & Hn & _). by apply elem_of_nil in Hn.
  - rewrite elem_of_infer_step, IH. split.
    + intros [H|(n & Hn & H)]; [exists m|exists n]; rewrite elem_of_cons; auto.
    + intros (n & Hn & H). apply elem_of_cons in Hn as [->|Hn]; eauto.
Qed.

Lemma elem_of_ambiguous_names (orig fixd : gset string) (b : string) :
  b ∈ ambiguous_names orig fixd ↔
  ∃ n, n ∈ fixd ∧ (n ∉ orig) ∧ inferred_base n b.
Proof.
  unfold ambiguous_names, set_fold. simpl. rewrite elem_of_infer_fold.
  setoid_rewrite elem_of_elements. setoid_rewrite elem_of_difference.
  setoid_rewrite infer_inferred_base. naive_solver.
Qed.

Lemma lookup_rename_plan (A : gset string) (b t : string) :
  rename_plan A !! b = Some t ↔ b ∈ A ∧ t = b +:+ "Type".
Proof.
  unfold rename_plan. rewrite lookup_set_to_map by naive_solver. naive_solver.
Qed.

(** *** Part B on one attribute mapping *)

Lemma update_reference_get plan st a a' :
  attr_get a' (update_reference plan st a).1 =
    if decide (a' = a) then new_value plan <$> attr_get a' st.1
    else attr_get a' st.1.
Proof.
  unfold update_reference, new_value.
  destruct (attr_get a st.1) as [v|] eqn:E.
  - destruct (decide (v = "")) as [->|Hv].
    + case_decide as Ha; [subst a'; rewrite E; simpl|]; done.
    + destruct (split_qname v) as [pfx l] eqn:Es. simpl.
      destruct (plan !! l) as [new|] eqn:El; simpl.
      * case_decide as Ha.
        -- subst a'. rewrite E. simpl. rewrite decide_False by done.
           rewrite Es. simpl. by rewrite El, attr_get_set_eq.
        -- by rewrite attr_get_set_ne.
      * case_decide as Ha; [|done]. subst a'. rewrite E. simpl.
        rewrite decide_False, Es by done. simpl. by rewrite El.
  - case_decide as Ha; [|done]. subst a'. by rewrite E.
Qed.

Lemma update_element_get plan al a' :
  attr_get a' (update_element plan al).1 =
    if decide (a' ∈ REF_ATTRS) then new_value plan <$> attr_get a' al
    else attr_get a' al.
Proof.
  unfold update_element, REF_ATTRS. simpl foldl.
  rewrite !update_reference_get. simpl.
  repeat case_decide; subst; try done; exfalso;
    repeat match goal with
           | H : _ ∈ _ :: _ |- _ => apply elem_of_cons in H as [?|H]
           | H : _ ∈ [] |- _ => by apply elem_of_nil in H
           | H : _ ∉ _ |- _ => apply H; clear H
           end; try done; set_solver.
Qed.

Lemma get_updated_reference plan e a :
  get a (updated (update_element plan) e) =
    if decide (a ∈ REF_ATTRS) then new_value plan <$> get a e else get a e.
Proof.
  rewrite XmlFacts.get_updated. destruct e; simpl.
  - apply update_element_get.
  - by case_decide.
Qed.

(** *** Part A *)

Lemma rename_definition_cases plan ch :
  rename_definition plan ch = ch ∨
  ∃ n new, tag_in ch GLOBAL_DEFINITIONS = true ∧ get "name" ch = Some n ∧
    plan !! n = Some new ∧ rename_definition plan ch = set "name" new ch.
Proof.
  unfold rename_definition.
  destruct (tag_in ch GLOBAL_DEFINITIONS); [|by left].
  destruct (get "name" ch) as [n|]; [|by left].
  destruct (plan !! n) as [new|] eqn:E; [|by left].
  right. by exists n, new.
Qed.

Lemma rename_definition_name plan ch :
  get "name" (rename_definition plan ch) =
    (λ n, if tag_in ch GLOBAL_DEFINITIONS then default n (plan !! n) else n)
      <$> get "name" ch.
Proof.
  unfold rename_definition.
  destruct (tag_in ch GLOBAL_DEFINITIONS) eqn:Et.
  - destruct (get "name" ch) as [n|] eqn:En; simpl; [|by rewrite En].
    destruct (plan !! n) as [new|]; simpl; [|by rewrite En].
    apply XmlFacts.get_set_eq. by eapply tag_in_is_Some.
  - by destruct (get "name" ch).
Qed.

Lemma rename_definition_related plan ch :
  renamed_only ch (rename_definition plan ch) ∧
  tail (iter (rename_definition plan ch)) = tail (iter ch).
Proof.
  destruct (rename_definition_cases plan ch) as [->|(n & new & _ & _ & _ & ->)].
  - split; [apply XmlFacts.renamed_only_refl|done].
  - split; [apply XmlFacts.renamed_only_set|]. by rewrite XmlFacts.iter_set.
Qed.

Lemma children_rename_definitions plan root :
  children (rename_definitions plan root) = rename_definition plan <$> children root.
Proof. by destruct root. Qed.

Lemma iter_rename_definitions plan root :
  Forall2 renamed_only (iter root) (iter (rename_definitions plan root)).
Proof.
  destruct root as [t a x cs tl|x tl]; [|apply XmlFacts.Forall2_renamed_only_refl].
  apply XmlFacts.iter_renamed_children.
  induction cs; constructor; auto using rename_definition_related.
Qed.

(** *** The whole run *)

Lemma main_written original fixed out :
  written (main original fixed) = Some out →
  out = updated (update_element (plan_of original fixed))
          (rename_definitions (plan_of original fixed) original).
Proof.
  unfold main, plan_of, update_references, updated.
  case_decide; [done|].
  destruct (update_attribs _ _) as [final n]. simpl. by intros [= ->].
Qed.

Lemma main_child original fixed out j ch :
  written (main original fixed) = Some out →
  children original !! j = Some ch →
  children out !! j =
    Some (updated (update_element (plan_of original fixed))
            (rename_definition (plan_of original fixed) ch)).
Proof.
  intros ->%main_written Hj.
  rewrite XmlFacts.children_updated, children_rename_definitions.
  by rewrite !list_lookup_fmap, Hj.
Qed.

Lemma main_node original fixed out k e a :
  written (main original fixed) = Some out →
  iter original !! k = Some e →
  a ∈ REF_ATTRS →
  ∃ e', iter out !! k = Some e' ∧
        get a e' = new_value (plan_of original fixed) <$> get a e.
Proof.
  intros ->%main_written Hk Ha.
  destruct (Forall2_lookup_l _ _ _ _ _
    (iter_rename_definitions (plan_of original fixed) original) Hk)
    as (e1 & Hk1 & _ & Hget).
  exists (updated (update_element (plan_of original fixed)) e1). split.
  - by rewrite XmlFacts.iter_updated, list_lookup_fmap, Hk1.
  - rewrite get_updated_reference, decide_True by done.
    rewrite Hget; [done|]. intros ->. revert Ha. unfold REF_ATTRS.
    rewrite !elem_of_cons, elem_of_nil. naive_solver.
Qed.

Lemma tag_in_definitions_kinds ch :
  tag_in ch GLOBAL_DEFINITIONS = true → tag_in ch GLOBAL_KINDS = true.
Proof.
  unfold tag_in. destruct (tag ch) as [t|]; [|done].
  rewrite !bool_decide_eq_true. unfold GLOBAL_DEFINITIONS, GLOBAL_KINDS.
  rewrite !elem_of_cons. tauto.
Qed.

Lemma name_not_reference : "name" ∉ REF_ATTRS.
Proof. unfold REF_ATTRS. rewrite !elem_of_cons, elem_of_nil. naive_solver. Qed.

(** The name under which a child of the root leaves the finalizer. *)
Lemma main_child_name original fixed out j ch :
  written (main original fixed) = Some out →
  children original !! j = Some ch →
  ∃ ch', children out !! j = Some ch' ∧ tag ch' = tag ch ∧
    get "name" ch' =
      (λ n, if tag_in ch GLOBAL_DEFINITIONS
            then default n (plan_of original fixed !! n) else n)
        <$> get "name" ch.
Proof.
  intros Hw Hj. eexists. split; [by eapply main_child|]. split.
  - rewrite tag_updated.
    by destruct (rename_definition_related (plan_of original fixed) ch) as [[? _] _].
  - rewrite get_updated_reference, decide_False by apply name_not_reference.
    apply rename_definition_name.
Qed.

(** Appending to the local name of a qualified name leaves its prefix. *)
Lemma split_qname_type v :
  split_qname ((split_qname v).1 +:+ (split_qname v).2 +:+ "Type") =
    ((split_qname v).1, (split_qname v).2 +:+ "Type").
Proof.
  unfold split_qname. destruct (Py.partition ":" v) as [[pfx l]|] eqn:E; simpl.
  - rewrite PyFacts.app_assoc.
    rewrite PyFacts.partition_char_app by by eapply PyFacts.partition_char_before.
    simpl. by rewrite PyFacts.app_nil_r.
  - rewrite PyFacts.app_nil_l. by rewrite PyFacts.partition_char_app.
Qed.

(** A reference to a global type definition still names a global declaration
    after the finalizer, under the same prefix. *)
Lemma type_reference_resolves original fixed out k e a v :
  written (main original fixed) = Some out →
  iter original !! k = Some e →
  a ∈ REF_ATTRS →
  get a e = Some v →
  v ≠ "" →
  (∃ ch, ch ∈ children original ∧ tag_in ch GLOBAL_DEFINITIONS = true ∧
         get "name" ch = Some (split_qname v).2) →
  ∃ e' v', iter out !! k = Some e' ∧ get a e' = Some v' ∧
    (split_qname v').1 = (split_qname v).1 ∧
    (split_qname v').2 ∈ global_names out.
Proof.
  intros Hw Hk Ha Hv Hne (ch & Hch & Ht & Hn).
  destruct (main_node _ _ _ _ _ _ Hw Hk Ha) as (e' & Hk' & Hget).
  rewrite Hv in Hget. simpl in Hget.
  apply list_elem_of_lookup in Hch as [j Hj].
  destruct (main_child_name _ _ _ _ _ Hw Hj) as (ch' & Hj' & Htag & Hname).
  rewrite Hn, Ht in Hname. simpl in Hname.
  assert (tag_in ch' GLOBAL_KINDS = true) as Hk1.
  { apply tag_in_definitions_kinds in Ht. revert Ht. unfold tag_in.
    by rewrite Htag. }
  exists e', (new_value (plan_of original fixed) v). split; [done|]. split; [done|].
  unfold new_value. rewrite decide_False by done.
  destruct (plan_of original fixed !! (split_qname v).2) as [new|] eqn:E.
  - apply lookup_rename_plan in E as [_ ->]. rewrite split_qname_type. simpl.
    split; [done|]. apply elem_of_global_names. exists ch'.
    split; [by eapply list_elem_of_lookup_2|]. by split.
  - split; [done|]. apply elem_of_global_names. exists ch'.
    split; [by eapply list_elem_of_lookup_2|]. by split.
Qed.

(** Below the children of the root no [name] attribute changes. *)
Lemma main_names_kept original fixed out j ch k e :
  written (main original fixed) = Some out →
  children original !! j = Some ch →
  0 < k → iter ch !! k = Some e →
  ∃ ch' e', children out !! j = Some ch' ∧ iter ch' !! k = Some e' ∧
    get "name" e' = get "name" e.
Proof.
  intros Hw Hj Hk He. eexists _, _. split; [by eapply main_child|].
  destruct k as [|k]; [lia|]. rewrite iter_updated, list_lookup_fmap.
  rewrite <-lookup_tail.
  destruct (rename_definition_related (plan_of original fixed) ch) as [_ ->].
  rewrite lookup_tail, He. split; [done|].
  by rewrite get_updated_reference, decide_False by apply name_not_reference.
Qed.

(** C4. The finalizer's inference: the ambiguous names are the texts before
    the first [_x] (else before the first [_R]) of the global names that the
    fixed document has and the original has not, and the rename plan maps
    exactly each ambiguous name to that name followed by [Type]. *)
Theorem finalizer_plan_inference (original fixed : node) (b : string) :
  let ambiguous :=
    ambiguous_names (get_global_names original) (get_global_names fixed) in
  (b ∈ ambiguous ↔
     ∃ n, n ∈ global_names fixed ∧ (n ∉ global_names original) ∧
          inferred_base n b) ∧
  (∀ t, rename_plan ambiguous !! b = Some t ↔ b ∈ ambiguous ∧ t = b +:+ "Type").
Proof.
  simpl. split.
  - rewrite elem_of_ambiguous_names.
    by setoid_rewrite elem_of_get_global_names.
  - intros t. apply lookup_rename_plan.
Qed.

(** C5, as amended. Applied to the original document, the plan renames
    exactly the global complex and simple type definitions whose name is a
    plan key (every other child of the root keeps its name, elements
    included, and so does every node below the children of the root), and
    every non-empty [type], [base] or [ref] attribute of the document whose
    local name is a plan key gets its prefix followed by the new name; the
    other non-empty references keep their value, and an empty reference is
    skipped: it stays empty. *)
Theorem finalizer_applies_plan (original fixed out : node) :
  written (main original fixed) = Some out →
  (∀ j ch, children original !! j = Some ch →
     ∃ ch', children out !! j = Some ch' ∧ tag ch' = tag ch ∧
       get "name" ch' =
         (λ n, if tag_in ch GLOBAL_DEFINITIONS
               then default n (plan_of original fixed !! n) else n)
           <$> get "name" ch) ∧
  (∀ k e a v, iter original !! k = Some e → a ∈ REF_ATTRS →
     get a e = Some v → v ≠ "" →
     ∃ e', iter out !! k = Some e' ∧
       (∀ new, plan_of original fixed !! (split_qname v).2 = Some new →
          get a e' = Some ((split_qname v).1 +:+ new)) ∧
       (plan_of original fixed !! (split_qname v).2 = None →
          get a e' = Some v)) ∧
  (∀ j ch k e, children original !! j = Some ch → 0 < k →
     iter ch !! k = Some e →
     ∃ ch' e', children out !! j = Some ch' ∧ iter ch' !! k = Some e' ∧
       get "name" e' = get "name" e) ∧
  (∀ k e a, iter original !! k = Some e → a ∈ REF_ATTRS →
     get a e = Some "" →
     ∃ e', iter out !! k = Some e' ∧ get a e' = Some "").
Proof.
  intros Hw. split; [|split; [|split]].
  - intros j ch Hj. by eapply main_child_name.
  - intros k e a v Hk Ha Hv Hne.
    destruct (main_node _ _ _ _ _ _ Hw Hk Ha) as (e' & Hk' & Hget).
    exists e'. split; [done|]. rewrite Hv in Hget. simpl in Hget.
    unfold new_value in Hget. rewrite decide_False in Hget by done.
    split; [intros new E|intros E]; by rewrite E in Hget.
  - intros j ch k e Hj Hk He. by eapply main_names_kept.
  - intros k e a Hk Ha Hv.
    destruct (main_node _ _ _ _ _ _ Hw Hk Ha) as (e' & Hk' & Hget).
    exists e'. split; [done|]. by rewrite Hget, Hv.
Qed.

(** The finalizer on the sample with two types named [Foo]: [tns:Foo]
    becomes [tns:FooType] and [Foo] becomes [FooType]. *)
Lemma finalizer_applies_plan_witness :
  written (main Samples.foo_original Samples.foo_fixed) = Some Samples.foo_final ∧
  (∀ j ch, children Samples.foo_original !! j = Some ch →
     ∃ ch', children Samples.foo_final !! j = Some ch' ∧ tag ch' = tag ch ∧
       get "name" ch' =
         (λ n, if tag_in ch GLOBAL_DEFINITIONS
               then default n (plan_of Samples.foo_original Samples.foo_fixed !! n)
               else n)
           <$> get "name" ch) ∧
  (∀ k e a v, iter Samples.foo_original !! k = Some e → a ∈ REF_ATTRS →
     get a e = Some v → v ≠ "" →
     ∃ e', iter Samples.foo_final !! k = Some e' ∧
       (∀ new, plan_of Samples.foo_original Samples.foo_fixed
                 !! (split_qname v).2 = Some new →
          get a e' = Some ((split_qname v).1 +:+ new)) ∧
       (plan_of Samples.foo_original Samples.foo_fixed !! (split_qname v).2 = None →
          get a e' = Some v)) ∧
  (∀ j ch k e, children Samples.foo_original !! j = Some ch → 0 < k →
     iter ch !! k = Some e →
     ∃ ch' e', children Samples.foo_final !! j = Some ch' ∧
       iter ch' !! k = Some e' ∧ get "name" e' = get "name" e) ∧
  (∀ k e a, iter Samples.foo_original !! k = Some e → a ∈ REF_ATTRS →
     get a e = Some "" →
     ∃ e', iter Samples.foo_final !! k = Some e' ∧ get a e' = Some "").
Proof.
  split; [by vm_compute|].
  apply (finalizer_applies_plan Samples.foo_original Samples.foo_fixed
           Samples.foo_final).
  by vm_compute.
Defined.

(** C5 as stated fails on an empty reference: with the empty name a plan
    key, the attribute [type=""] has a local name that is a plan key and
    keeps its value. *)
Lemma finalizer_keeps_empty_reference :
  written (main Samples.empty_original Samples.empty_fixed)
    = Some Samples.empty_final ∧
  get "type" <$> iter Samples.empty_original !! 2 = Some (Some "") ∧
  plan_of Samples.empty_original Samples.empty_fixed !! (split_qname "").2
    = Some "Type" ∧
  get "type" <$> iter Samples.empty_final !! 2 = Some (Some "") ∧
  (split_qname "").1 +:+ "Type" ≠ "".
Proof. by vm_compute. Qed.

End FinalizeFacts.

(** ** [fix_collisions.py]: the affinity heuristic *)

Module AffinityFacts.

Import Xml Xsd Resolver.

Section Affinity.

Variable tostring : node → string.

Lemma attr_signal_fold (n : node) (attrs : list string) (sc : nat * nat) :
  foldl (attr_signal n) sc attrs =
    (sc.1 + length (filter (mentions "rq") (omap (λ a, get a n) attrs)),
     sc.2 + length (filter (mentions "rs") (omap (λ a, get a n) attrs))).
Proof.
  revert sc. induction attrs as [|a attrs IH]; intros [rq rs].
  - simpl. f_equal; lia.
  - simpl foldl. rewrite IH. clear IH.
    set (l := omap (λ a, get a n) attrs).
    assert (omap (λ a, get a n) (a :: attrs)
            = from_option (λ v, v :: l) l (get a n)) as ->.
    { simpl. by destruct (get a n). }
    unfold attr_signal. destruct (get a n) as [v|]; simpl; [|done].
    rewrite !filter_cons. unfold mentions.
    destruct (Py.contains "rq" (Py.lower v)), (Py.contains "rs" (Py.lower v));
      simpl; f_equal; lia.
Qed.

Lemma node_signal_fold (l : list node) (sc : nat * nat) :
  foldl node_signal sc l =
    (sc.1 + length (filter (mentions "rq")
                      (n ← l; omap (λ a, get a n) ["name"; "type"; "base"])),
     sc.2 + length (filter (mentions "rs")
                      (n ← l; omap (λ a, get a n) ["name"; "type"; "base"]))).
Proof.
  revert sc. induction l as [|n l IH]; intros [rq rs].
  - simpl. f_equal; lia.
  - simpl foldl. rewrite IH. unfold node_signal. rewrite attr_signal_fold.
    rewrite bind_cons, !filter_app, !length_app. simpl. f_equal; lia.
Qed.

Lemma scores_spec (elem : node) :
  scores tostring elem = (rq_score tostring elem, rs_score tostring elem).
Proof. unfold scores, rq_score, rs_score. by rewrite node_signal_fold. Qed.

(** C6. [guess_affinity] is the ordered decision rule on the two scores,
    each the count of its three tokens in the lower-cased serialized text
    plus one for each [name], [type] or [base] attribute value of the
    subtree that contains [rq] (respectively [rs]) in lower case. *)
Theorem guess_affinity_spec (elem : node) :
  guess_affinity tostring elem =
    suffix (classify (rq_score tostring elem) (rs_score tostring elem)).
Proof.
  unfold guess_affinity. rewrite scores_spec. unfold classify.
  generalize (rq_score tostring elem) (rs_score tostring elem). intros rq rs.
  repeat case_decide;
    repeat match goal with
           | |- context [?a <=? ?b] => destruct (Nat.leb_spec a b)
           | |- context [?a <? ?b] => destruct (Nat.ltb_spec a b)
           end; simpl; try done; lia.
Qed.

End Affinity.

End AffinityFacts.

(** ** The insertion-ordered dictionary of lists *)

Module DictFacts.

Import Py.

Section Dict.

Context {A : Type}.
Implicit Types (d : list (string * list A)) (k : string) (x : A).

Lemma dict_get_append k k' x d :
  dict_get k' (dict_append k x d) =
    if decide (k' = k) then dict_get k d ++ [x] else dict_get k' d.
Proof.
  induction d as [|[k0 xs] d IH]; simpl.
  - repeat case_decide; congruence.
  - repeat (case_decide; simpl); subst; congruence.
Qed.

Lemma dict_append_keys k x d :
  (dict_append k x d).*1 = if decide (k ∈ d.*1) then d.*1 else d.*1 ++ [k].
Proof.
  induction d as [|[k0 xs] d IH].
  - rewrite decide_False; [done|]. apply not_elem_of_nil.
  - cbn [dict_append].
    destruct (decide (k0 = k)) as [->|Hne]; rewrite !fmap_cons; cbn [fst].
    + rewrite decide_True; [done|]. apply elem_of_cons. by left.
    + rewrite IH. destruct (decide (k ∈ d.*1)) as [Hin|Hnin].
      * rewrite decide_True; [done|]. apply elem_of_cons. by right.
      * rewrite decide_False; [done|]. rewrite elem_of_cons. naive_solver.
Qed.

Lemma dict_append_NoDup k x d : NoDup d.*1 → NoDup (dict_append k x d).*1.
Proof.
  intros Hd. rewrite dict_append_keys. case_decide; [done|].
  apply NoDup_app. split; [done|]. split.
  - intros y Hy Hy'. apply list_elem_of_singleton in Hy'. by subst.
  - apply NoDup_singleton.
Qed.

Lemma dict_get_elem_of k xs d : NoDup d.*1 → (k, xs) ∈ d → dict_get k d = xs.
Proof.
  induction d as [|[k0 xs0] d IH]; simpl; intros Hd Hin.
  - by apply elem_of_nil in Hin.
  - apply NoDup_cons in Hd as [Hk0 Hd].
    apply elem_of_cons in Hin as [[= <- <-]|Hin].
    + by rewrite decide_True.
    + rewrite decide_False; [by apply IH|]. intros ->. apply Hk0.
      apply list_elem_of_fmap. by exists (k, xs).
Qed.

Lemma elem_of_dict_get k d : k ∈ d.*1 → (k, dict_get k d) ∈ d.
Proof.
  induction d as [|[k0 xs0] d IH]; simpl; intros Hin.
  - by apply elem_of_nil in Hin.
  - case_decide as Hk; [subst; apply elem_of_cons; by left|].
    apply elem_of_cons in Hin as [?|Hin]; [done|].
    apply elem_of_cons. right. by apply IH.
Qed.

Variable kf : A → string.

Lemma group_by_snoc (l : list A) x :
  group_by kf (l ++ [x]) = dict_append (kf x) x (group_by kf l).
Proof. unfold group_by. by rewrite foldl_snoc. Qed.

Lemma group_by_NoDup (l : list A) : NoDup (group_by kf l).*1.
Proof.
  induction l as [|x l IH] using rev_ind; [constructor|].
  rewrite group_by_snoc. by apply dict_append_NoDup.
Qed.

Lemma dict_get_group_by k (l : list A) :
  dict_get k (group_by kf l) = filter (λ x, kf x = k) l.
Proof.
  induction l as [|x l IH] using rev_ind; [done|].
  rewrite group_by_snoc, dict_get_append, filter_app, filter_cons, filter_nil.
  destruct (decide (k = kf x)) as [->|Hne].
  - by rewrite decide_True, IH.
  - rewrite decide_False by done. by rewrite app_nil_r.
Qed.

Lemma group_by_keys k (l : list A) :
  k ∈ (group_by kf l).*1 ↔ ∃ x, x ∈ l ∧ kf x = k.
Proof.
  revert k. induction l as [|x l IH] using rev_ind; intros k.
  - split; [by intros ?%elem_of_nil|]. by intros (? & ?%elem_of_nil & _).
  - rewrite group_by_snoc, dict_append_keys.
    setoid_rewrite elem_of_app. setoid_rewrite list_elem_of_singleton.
    case_decide as Hin.
    + rewrite IH. apply IH in Hin. naive_solver.
    + rewrite elem_of_app, list_elem_of_singleton, IH. naive_solver.
Qed.

(** A group is the list of the elements with its key, in their order, and
    is not empty. *)
Lemma elem_of_group_by k xs (l : list A) :
  (k, xs) ∈ group_by kf l ↔ xs = filter (λ x, kf x = k) l ∧ xs ≠ [].
Proof.
  split.
  - intros Hin.
    pose proof (dict_get_elem_of _ _ _ (group_by_NoDup l) Hin) as Hget.
    rewrite dict_get_group_by in Hget. split; [done|].
    assert (k ∈ (group_by kf l).*1) as Hk.
    { apply list_elem_of_fmap. by exists (k, xs). }
    apply group_by_keys in Hk as (x & Hx & Hkx). subst xs.
    intros Hnil. assert (x ∈ filter (λ y, kf y = k) l) as Hf.
    { by apply list_elem_of_filter. }
    rewrite Hnil in Hf. by apply elem_of_nil in Hf.
  - intros [-> Hne]. rewrite <-dict_get_group_by. apply elem_of_dict_get.
    apply group_by_keys. destruct (filter _ l) as [|x xs] eqn:E; [done|].
    assert (x ∈ filter (λ y, kf y = k) l) as Hf.
    { rewrite E. apply elem_of_cons. by left. }
    apply list_elem_of_filter in Hf as [? ?]. eauto.
Qed.

End Dict.

End DictFacts.

(** ** [fix_collisions.py]: the global declarations in document order *)

Module OrderFacts.

Import Xml Xsd Resolver XmlFacts XsdFacts.

Section Lists.

Context {A : Type} (P : A → Prop) `{!∀ x, Decision (P x)}.

(** An element that is not the first of a filtered list comes after another
    element of the list that passes the filter. *)
Lemma filter_lookup_later (l : list A) (q : nat) (x : A) :
  filter P l !! q = Some x → 0 < q →
  ∃ p0 p x0, p0 < p ∧ l !! p0 = Some x0 ∧ P x0 ∧ l !! p = Some x.
Proof.
  revert q. induction l as [|y l IH]; intros q Hq Hpos; [done|].
  rewrite filter_cons in Hq. destruct (decide (P y)) as [Hy|Hy].
  - destruct q as [|q]; [lia|]. simpl in Hq.
    apply list_elem_of_lookup_2, list_elem_of_filter in Hq as [_ Hx].
    apply list_elem_of_lookup in Hx as [p Hp].
    exists 0, (S p), y. repeat split; [lia|done..].
  - destruct (IH _ Hq Hpos) as (p0 & p & x0 & ? & ? & ? & ?).
    exists (S p0), (S p), x0. repeat split; [lia|done..].
Qed.

(** The first element of a filtered list comes no later than any element of
    the list that passes the filter. *)
Lemma filter_head_first (l : list A) (x x' : A) (p' : nat) :
  filter P l !! 0 = Some x → l !! p' = Some x' → P x' →
  ∃ p, p ≤ p' ∧ l !! p = Some x.
Proof.
  revert p'. induction l as [|y l IH]; intros p' Hh Hp' Hx'; [done|].
  rewrite filter_cons in Hh. destruct (decide (P y)) as [Hy|Hy].
  - simpl in Hh. injection Hh as ->. exists 0. split; [lia|done].
  - destruct p' as [|p']; [simpl in Hp'; by simplify_eq|].
    destruct (IH _ Hh Hp' Hx') as (p & ? & ?). exists (S p). split; [lia|done].
Qed.

End Lists.

Lemma filter_key_length {A} (f : A → string) (k : string) (l : list A) :
  NoDup (f <$> l) → length (filter (λ x, f x = k) l) ≤ 1.
Proof.
  induction l as [|x l IH]; [simpl; lia|].
  rewrite fmap_cons, NoDup_cons, filter_cons. intros [Hx Hl].
  destruct (decide (f x = k)) as [<-|?]; [|by apply IH].
  assert (filter (λ y, f y = f x) l = []) as ->; [|simpl; lia].
  destruct (filter _ l) as [|y ys] eqn:E; [done|].
  assert (y ∈ filter (λ y, f y = f x) l) as Hy by (rewrite E; left).
  apply list_elem_of_filter in Hy as [Hfy Hy]. destruct Hx.
  rewrite <-Hfy. by apply list_elem_of_fmap_2.
Qed.

Lemma elem_of_order root j ch :
  (j, ch) ∈ order root ↔ children root !! j = Some ch ∧ is_global ch = true.
Proof.
  unfold order. rewrite list_elem_of_filter, elem_of_lookup_imap. simpl. split.
  - intros [Hg (i & y & [= -> ->] & Hl)]. split; [done|]. by apply Is_true_true.
  - intros [Hl Hg]. split; [by apply Is_true_true|]. eauto.
Qed.

Lemma order_ids_NoDup root : NoDup (order root).*1.
Proof.
  unfold order. eapply sublist_NoDup; [|apply fmap_sublist, sublist_filter].
  rewrite fmap_imap.
  rewrite (imap_ext _ (λ j _, id j)) by done.
  rewrite imap_seq_0, list_fmap_id. apply NoDup_seq.
Qed.

Lemma order_NoDup root : NoDup (order root).
Proof. eapply NoDup_fmap_1, order_ids_NoDup. Qed.

Lemma order_id_inj root d d' :
  d ∈ order root → d' ∈ order root → d.1 = d'.1 → d = d'.
Proof.
  destruct d as [j ch], d' as [j' ch']. simpl.
  intros [H1 _]%elem_of_order [H2 _]%elem_of_order ->. congruence.
Qed.

Lemma is_global_spec ch :
  is_global ch = true ↔
  tag_in ch GLOBAL_KINDS = true ∧ get "name" ch = Some (name_of ch).
Proof.
  unfold is_global, name_of. rewrite andb_true_iff, bool_decide_eq_true. split.
  - intros [? [n Hn]]. by rewrite Hn.
  - intros [? Hn]. by rewrite Hn.
Qed.

Lemma global_name_cases ch :
  (if tag_in ch Xsd.GLOBAL_KINDS then get "name" ch else None) =
    if is_global ch then Some (name_of ch) else None.
Proof.
  unfold is_global, name_of. change Resolver.GLOBAL_KINDS with Xsd.GLOBAL_KINDS.
  destruct (tag_in ch Xsd.GLOBAL_KINDS); [|done].
  by destruct (get "name" ch).
Qed.

Lemma order_names_offset (g : nat → nat) (cs : list node) :
  (λ d, name_of d.2) <$> filter (λ d : gdecl, is_global d.2) (imap (λ i x, (g i, x)) cs)
  = omap (λ ch, if tag_in ch Xsd.GLOBAL_KINDS then get "name" ch else None) cs.
Proof.
  revert g. induction cs as [|c cs IH]; intros g; [done|].
  rewrite imap_cons, filter_cons. simpl omap.
  rewrite global_name_cases. simpl.
  destruct (is_global c) eqn:E; simpl.
  - f_equal. apply (IH (g ∘ S)).
  - apply (IH (g ∘ S)).
Qed.

(** The names of the declarations in [order] are the global names. *)
Lemma order_names root :
  (λ d, name_of d.2) <$> order root = global_names root.
Proof. apply (order_names_offset id). Qed.

Lemma by_name_group_by root :
  by_name root = Py.group_by (λ d : gdecl, name_of d.2) (order root).
Proof. done. Qed.

End OrderFacts.

(** ** [fix_collisions.py]: building the rename plan *)

Module PlanFacts.

Import Xml Xsd Resolver XmlFacts XsdFacts OrderFacts.

Section Plan.

Variable tostring : node → string.
Variable fallback_suffix : nat → string.

Local Abbreviation bump_loop := (bump_loop fallback_suffix).
Local Abbreviation rename_member := (rename_member tostring fallback_suffix).
Local Abbreviation rename_members := (rename_members tostring fallback_suffix).
Local Abbreviation rename_group := (rename_group tostring fallback_suffix).
Local Abbreviation rename_groups := (rename_groups tostring fallback_suffix).
Local Abbreviation build_plan := (build_plan tostring fallback_suffix).

(** *** The [while] loop *)

Lemma bump_loop_spec fuel name chosen new b r :
  bump_loop fuel name chosen new b = Some r →
  (r ∉ chosen) ∧
  ((r = new) ∨
   (new ∈ chosen ∧ ∃ N, b < N ∧ r = name +:+ fallback_suffix N ∧
      ∀ k, b < k < N → name +:+ fallback_suffix k ∈ chosen)).
Proof.
  revert new b. induction fuel as [|fuel IH]; intros new b; simpl.
  - case_decide; [done|]. intros [= <-]. auto.
  - case_decide as Hin; [|intros [= <-]; auto].
    intros [Hr [->|(Hin' & N & HN & -> & Hk)]]%IH; (split; [done|right]).
    + split; [done|]. exists (S b). split; [lia|]. split; [done|]. intros k ?. lia.
    + split; [done|]. exists N. split; [lia|]. split; [done|].
      intros k ?. destruct (decide (k = S b)) as [->|]; [done|]. apply Hk. lia.
Qed.

Lemma bump_loop_mono fuel fuel' name chosen new b r :
  bump_loop fuel name chosen new b = Some r → fuel ≤ fuel' →
  bump_loop fuel' name chosen new b = Some r.
Proof.
  revert fuel' new b. induction fuel as [|fuel IH]; intros fuel' new b; simpl.
  - case_decide; [done|]. intros [= <-] _. destruct fuel'; simpl; by rewrite decide_False.
  - case_decide as Hin.
    + intros H Hle. destruct fuel' as [|fuel']; [lia|]. simpl.
      rewrite decide_True by done. apply IH; [done|lia].
    + intros [= <-] _. destruct fuel'; simpl; by rewrite decide_False.
Qed.

(** With an injective pattern the loop ends: each round passes a different
    name, and only the chosen names make it go on. *)
Lemma bump_loop_total_aux `{!Inj (=) (=) fallback_suffix} n :
  ∀ (T chosen : gset string) name new b fuel,
    size T ≤ n →
    (∀ k, b < k → name +:+ fallback_suffix k ∈ chosen →
          name +:+ fallback_suffix k ∈ T) →
    n < fuel →
    is_Some (bump_loop fuel name chosen new b).
Proof.
  induction n as [|n IH]; intros T chosen name new b fuel HT Hcov Hfuel.
  - destruct fuel as [|fuel]; [lia|]. simpl. case_decide; [|eauto].
    assert (name +:+ fallback_suffix (S b) ∉ chosen) as Hnot.
    { intros Hin. apply Hcov in Hin; [|lia].
      assert (size T ≠ 0); [|lia]. apply size_non_empty_iff. set_solver. }
    destruct fuel; simpl; rewrite decide_False by done; eauto.
  - destruct fuel as [|fuel]; [lia|]. simpl. case_decide; [|eauto].
    destruct (decide (name +:+ fallback_suffix (S b) ∈ chosen)) as [Hin|Hnot].
    + apply (IH (T ∖ {[name +:+ fallback_suffix (S b)]})); [| |lia].
      * assert (name +:+ fallback_suffix (S b) ∈ T) as HinT by (apply Hcov; [lia|done]).
        rewrite size_difference by set_solver. rewrite size_singleton.
        assert (size T ≠ 0) by (apply size_non_empty_iff; set_solver). lia.
      * intros k Hk Hkin. apply elem_of_difference. split; [apply Hcov; [lia|done]|].
        rewrite elem_of_singleton. intros Heq.
        apply (inj (String.app name)), (inj fallback_suffix) in Heq. lia.
    + destruct fuel; simpl; rewrite decide_False by done; eauto.
Qed.

Lemma bump_loop_total `{!Inj (=) (=) fallback_suffix} name chosen new b fuel :
  size chosen < fuel → is_Some (bump_loop fuel name chosen new b).
Proof. intros. by apply (bump_loop_total_aux (size chosen) chosen). Qed.

(** *** One member of a group *)

Lemma rename_member_cases fuel name i d s s' :
  rename_member fuel name i d s = Some s' →
  (i = 1 ∧ s' = s) ∨
  (i ≠ 1 ∧ ∃ new,
     bump_loop fuel name (chosen_names s)
       (name +:+ default (fallback_suffix i) (guess_affinity tostring d.2)) i
       = Some new ∧
     s' = PlanState ({[new]} ∪ chosen_names s)
            (<[d.1 := (name, new)]> (rename_plan s)) (canonical_name s)).
Proof.
  unfold Resolver.rename_member. case_decide as Hi; [intros [= <-]; by left|].
  intros H. right. split; [done|].
  destruct (bump_loop _ _ _ _ _) as [new|]; simpl in H; [|done].
  injection H as <-. eauto.
Qed.

Lemma rename_member_inv K fuel name i d s s' :
  plan_inv K s → rename_member fuel name i d s = Some s' → plan_inv K s'.
Proof.
  intros (HK & Hin & Hinj & Hcan)
    [[_ ->]|(Hi & new & Hb & ->)]%rename_member_cases; [done|].
  apply bump_loop_spec in Hb as [Hfresh _].
  split; [|split; [|split]]; simpl.
  - set_solver.
  - intros j o n [[<- [= <- <-]]|[Hne Hj]]%lookup_insert_Some.
    + split; [set_solver|]. intros HinK. apply Hfresh. by apply HK.
    + destruct (Hin _ _ _ Hj). split; [set_solver|done].
  - intros j j' o o' n
      [[<- [= <- <-]]|[Hne Hj]]%lookup_insert_Some
      [[<- E]|[Hne' Hj']]%lookup_insert_Some; simplify_eq.
    + done.
    + by destruct (Hin _ _ _ Hj').
    + by destruct (Hin _ _ _ Hj).
    + by eapply Hinj.
  - done.
Qed.

(** *** The members of a group, from index [i] on *)

Lemma rename_members_spec K fuel name nodes :
  ∀ i s s', rename_members fuel name i nodes s = Some s' →
    (plan_inv K s → plan_inv K s') ∧
    (∀ j o n, rename_plan s' !! j = Some (o, n) →
       rename_plan s !! j = Some (o, n) ∨
       (o = name ∧ ∃ p d c, nodes !! p = Some d ∧ i + p ≠ 1 ∧ d.1 = j ∧
          chosen_names s ⊆ c ∧ c ⊆ chosen_names s' ∧
          bump_loop fuel name c
            (name +:+ default (fallback_suffix (i + p))
                        (guess_affinity tostring d.2)) (i + p) = Some n)) ∧
    (∀ p d, nodes !! p = Some d → i + p ≠ 1 →
       is_Some (rename_plan s' !! d.1)) ∧
    (∀ j, is_Some (rename_plan s !! j) → is_Some (rename_plan s' !! j)) ∧
    canonical_name s' = canonical_name s ∧
    chosen_names s ⊆ chosen_names s'.
Proof.
  induction nodes as [|d nodes IH]; intros i s s'; simpl.
  - intros [= <-]. split; [done|]. split; [by left|].
    split; [intros p d Hp; by rewrite lookup_nil in Hp|]. by repeat split.
  - destruct (rename_member fuel name i d s) as [s1|] eqn:E1; simpl; [|done].
    intros (IHinv & IHA & IHB & IHC & IHcan & IHch)%IH.
    pose proof (rename_member_cases _ _ _ _ _ _ E1) as Hcases.
    assert (chosen_names s ⊆ chosen_names s1) as Hch1.
    { destruct Hcases as [[_ ->]|(Hi & new & _ & ->)]; [done|]. set_solver. }
    split; [|split; [|split; [|split; [|split]]]].
    + intros Hs. apply IHinv. by eapply rename_member_inv.
    + intros j o n [Hj|(-> & p & d' & c & Hp & Hip & <- & Hc1 & Hc2 & Hb)]%IHA.
      * destruct Hcases as [[_ ->]|(Hi & new & Hb & ->)]; [by left|].
        simpl in Hj. apply lookup_insert_Some in Hj as [[<- [= <- <-]]|[_ Hj]].
        -- right. split; [done|]. exists 0, d, (chosen_names s).
           rewrite Nat.add_0_r.
           split; [done|]. split; [lia|]. split; [done|]. split; [done|].
           split; [|done]. by etrans.
        -- by left.
      * right. split; [done|]. exists (S p), d', c.
        rewrite Nat.add_succ_r.
        split; [done|]. split; [lia|]. split; [done|]. split; [by etrans|].
        by split.
    + intros [|p] d' Hp Hip; simpl in Hp.
      * injection Hp as <-. apply IHC.
        destruct Hcases as [[-> _]|(Hi & new & _ & ->)]; [lia|].
        simpl. rewrite lookup_insert_eq. eauto.
      * eapply IHB; [done|lia].
    + intros j Hj. apply IHC.
      destruct Hcases as [[_ ->]|(Hi & new & _ & ->)]; [done|].
      simpl. apply lookup_insert_is_Some'. by right.
    + rewrite IHcan. by destruct Hcases as [[_ ->]|(Hi & new & _ & ->)].
    + by etrans.
Qed.

(** *** The groups *)

Lemma rename_group_cases fuel g s s' :
  rename_group fuel g s = Some s' →
  (length g.2 ≤ 1 ∧ s' = s) ∨
  (1 < length g.2 ∧
   rename_members fuel g.1 1 g.2
     (PlanState (chosen_names s) (rename_plan s)
        (<[g.1 := g.1]> (canonical_name s))) = Some s').
Proof.
  unfold Resolver.rename_group. case_decide as Hl; [intros [= <-]; by left|].
  intros H. right. split; [lia|done].
Qed.

Lemma plan_inv_canonical K s name :
  plan_inv K s →
  plan_inv K (PlanState (chosen_names s) (rename_plan s)
                (<[name := name]> (canonical_name s))).
Proof.
  intros (HK & Hin & Hinj & Hcan). repeat split; simpl; try done.
  - by eapply Hin.
  - by eapply Hin.
  - intros k v [[<- <-]|[_ Hk]]%lookup_insert_Some; [done|]. by apply Hcan.
Qed.

Lemma rename_groups_spec K fuel groups :
  ∀ s s', rename_groups fuel groups s = Some s' →
    (plan_inv K s → plan_inv K s') ∧
    (∀ j o n, rename_plan s' !! j = Some (o, n) →
       rename_plan s !! j = Some (o, n) ∨
       ∃ nodes p d c, (o, nodes) ∈ groups ∧ nodes !! p = Some d ∧ 0 < p ∧
         d.1 = j ∧ chosen_names s ⊆ c ∧ c ⊆ chosen_names s' ∧
         bump_loop fuel o c
           (o +:+ default (fallback_suffix (S p))
                    (guess_affinity tostring d.2)) (S p) = Some n) ∧
    (∀ o nodes p d, (o, nodes) ∈ groups → nodes !! p = Some d → 0 < p →
       is_Some (rename_plan s' !! d.1)) ∧
    (∀ j, is_Some (rename_plan s !! j) → is_Some (rename_plan s' !! j)) ∧
    chosen_names s ⊆ chosen_names s'.
Proof.
  induction groups as [|[name nodes] groups IH]; intros s s'; simpl.
  - intros [= <-]. split; [done|]. split; [by left|].
    split; [intros o nodes p d Hg; by apply elem_of_nil in Hg|done].
  - destruct (rename_group fuel (name, nodes) s) as [s1|] eqn:E1; simpl; [|done].
    intros (IHinv & IHA & IHB & IHC & IHch)%IH.
    apply rename_group_cases in E1 as [[Hlen ->]|[Hlen E1]]; simpl in *.
    + split; [done|]. split; [|split; [|done]].
      * intros j o n [Hj|(ns & p & d & c & Hg & Hp & Hpos & <- & ? & ? & ?)]%IHA;
          [by left|].
        right. exists ns, p, d, c. rewrite elem_of_cons. auto 10.
      * intros o ns p d [[= -> ->]|Hg]%elem_of_cons Hp Hpos; [|by eapply IHB].
        apply lookup_lt_Some in Hp. unfold gdecl in *. lia.
    + apply (rename_members_spec K) in E1 as (Minv & MA & MB & MC & _ & Mch).
      simpl in *. split; [|split; [|split; [|split]]].
      * intros Hs. by apply IHinv, Minv, plan_inv_canonical.
      * intros j o n [Hj|(ns & p & d & c & Hg & Hp & Hpos & <- & ? & ? & ?)]%IHA.
        -- apply MA in Hj
             as [Hj|(-> & p & d & c & Hp & Hip & <- & ? & ? & Hb)]; [by left|].
           right. exists nodes, p, d, c. rewrite elem_of_cons.
           split; [by left|]. split; [done|]. split; [lia|]. split; [done|].
           split; [done|]. split; [by etrans|done].
        -- right. exists ns, p, d, c. rewrite elem_of_cons.
           split; [by right|]. split; [done|]. split; [done|]. split; [done|].
           split; [by etrans|done].
      * intros o ns p d [[= -> ->]|Hg]%elem_of_cons Hp Hpos; [|by eapply IHB].
        apply IHC. eapply MB; [done|lia].
      * intros j Hj. by apply IHC, MC.
      * by etrans.
Qed.

Lemma plan_inv_initial (groups : list (string * list gdecl)) :
  plan_inv (list_to_set groups.*1) (PlanState (list_to_set groups.*1) ∅ ∅).
Proof. repeat split; simpl; try done; intros *; by rewrite lookup_empty. Qed.

(** The plan that the loop builds: the invariant holds of it; a planned
    declaration is a member of a group after its first, with the group's
    name as the old name and, as the new name, what the [while] loop gave
    for it on a set of names between the names the document came with and
    the names chosen in the end; and every such member is planned. *)
Lemma build_plan_spec fuel groups s :
  build_plan fuel groups = Some s →
  plan_inv (list_to_set groups.*1) s ∧
  (∀ j o n, rename_plan s !! j = Some (o, n) →
     ∃ nodes p d c, (o, nodes) ∈ groups ∧ nodes !! p = Some d ∧ 0 < p ∧
       d.1 = j ∧ list_to_set groups.*1 ⊆ c ∧ c ⊆ chosen_names s ∧
       bump_loop fuel o c
         (o +:+ default (fallback_suffix (S p))
                  (guess_affinity tostring d.2)) (S p) = Some n) ∧
  (∀ o nodes p d, (o, nodes) ∈ groups → nodes !! p = Some d → 0 < p →
     is_Some (rename_plan s !! d.1)).
Proof.
  unfold Resolver.build_plan.
  intros (Hinv & HA & HB & _)%(rename_groups_spec (list_to_set groups.*1)).
  split; [apply Hinv, plan_inv_initial|]. split; [|done].
  intros j o n [Hj|?]%HA; [|done]. simpl in Hj. by rewrite lookup_empty in Hj.
Qed.

(** *** Termination *)

Lemma rename_member_total `{!Inj (=) (=) fallback_suffix} name i d s :
  ∃ s', ∀ fuel, size (chosen_names s) < fuel →
    rename_member fuel name i d s = Some s'.
Proof.
  unfold Resolver.rename_member. case_decide; [eauto|].
  set (base := name +:+ default (fallback_suffix i) (guess_affinity tostring d.2)).
  destruct (bump_loop_total name (chosen_names s) base i (S (size (chosen_names s))))
    as [r Hr]; [lia|].
  eexists. intros fuel Hfuel.
  rewrite (bump_loop_mono _ fuel _ _ _ _ _ Hr) by lia. done.
Qed.

Lemma rename_members_total `{!Inj (=) (=) fallback_suffix} name nodes :
  ∀ i s, ∃ fuel0 s', ∀ fuel, fuel0 ≤ fuel →
    rename_members fuel name i nodes s = Some s'.
Proof.
  induction nodes as [|d nodes IH]; intros i s; simpl.
  - by exists 0, s.
  - destruct (rename_member_total name i d s) as [s1 H1].
    destruct (IH (S i) s1) as (f2 & s' & H2).
    exists (S (size (chosen_names s)) `max` f2), s'. intros fuel Hfuel.
    rewrite H1 by lia. simpl. apply H2. lia.
Qed.

Lemma rename_groups_total `{!Inj (=) (=) fallback_suffix} groups :
  ∀ s, ∃ fuel0 s', ∀ fuel, fuel0 ≤ fuel →
    rename_groups fuel groups s = Some s'.
Proof.
  induction groups as [|g groups IH]; intros s; simpl.
  - by exists 0, s.
  - assert (∃ f1 s1, ∀ fuel, f1 ≤ fuel → rename_group fuel g s = Some s1)
      as (f1 & s1 & H1).
    { unfold Resolver.rename_group. case_decide; [by exists 0, s|].
      apply rename_members_total. }
    destruct (IH s1) as (f2 & s' & H2).
    exists (f1 `max` f2), s'. intros fuel Hfuel.
    rewrite H1 by lia. simpl. apply H2. lia.
Qed.

Lemma build_plan_total `{!Inj (=) (=) fallback_suffix} groups :
  ∃ fuel0 s, ∀ fuel, fuel0 ≤ fuel → build_plan fuel groups = Some s.
Proof. apply rename_groups_total. Qed.

End Plan.

(** The default pattern gives different suffixes for different numbers. *)
Lemma fallback_default_inj : Inj (=) (=) fallback_default.
Proof.
  intros n m H. unfold fallback_default in H.
  apply (inj (String.app "_x")) in H. by apply (inj pretty) in H.
Qed.

End PlanFacts.

(** ** [fix_collisions.py]: applying the plan *)

Module StepFacts.

Import Xml Xsd Resolver XmlFacts XsdFacts OrderFacts.

(** *** Step 3 *)

Lemma foldl_apply_rename plan (ds : list gdecl) (cs : list node) (j : nat) :
  NoDup ds.*1 →
  foldl (apply_rename plan) cs ds !! j =
    (λ ch, if decide (j ∈ ds.*1)
           then match plan !! j with
                | Some (_, new) => set "name" new ch
                | None => ch
                end
           else ch) <$> cs !! j.
Proof.
  revert cs. induction ds as [|d ds IH]; intros cs Hnd.
  - simpl. by destruct (cs !! j).
  - rewrite fmap_cons in Hnd. apply NoDup_cons in Hnd as [Hd Hnd].
    simpl foldl. rewrite IH by done. unfold apply_rename. rewrite fmap_cons.
    destruct (decide (j = d.1)) as [->|Hne].
    + destruct (decide (d.1 ∈ ds.*1)); [done|].
      destruct (decide (d.1 ∈ d.1 :: ds.*1)) as [_|[]]; [|left].
      destruct (plan !! d.1) as [[o new]|].
      * rewrite list_lookup_alter_eq. by destruct (cs !! d.1).
      * by destruct (cs !! d.1).
    + assert ((match plan !! d.1 with
               | Some (_, new) => alter (set "name" new) d.1 cs
               | None => cs
               end) !! j = cs !! j) as ->.
      { destruct (plan !! d.1) as [[o new]|]; [|done].
        by rewrite list_lookup_alter_ne. }
      destruct (cs !! j) as [ch|]; [|done]. simpl. f_equal.
      destruct (decide (j ∈ ds.*1)).
      * by rewrite decide_True by by right.
      * rewrite decide_False; [done|]. rewrite elem_of_cons. naive_solver.
Qed.

Lemma elem_of_order_ids root j :
  j ∈ (order root).*1 ↔ ∃ ch, children root !! j = Some ch ∧ is_global ch = true.
Proof.
  rewrite list_elem_of_fmap. split.
  - intros ([j' ch] & -> & Hd). exists ch. by apply elem_of_order.
  - intros (ch & H). exists (j, ch). split; [done|]. by apply elem_of_order.
Qed.

Lemma children_apply_renames plan root :
  children (apply_renames plan root) = imap (rename_child plan) (children root).
Proof.
  destruct root as [t a x cs tl|x tl]; [|done].
  apply list_eq. intros j. unfold apply_renames. cbn [children].
  rewrite foldl_apply_rename by apply order_ids_NoDup.
  rewrite list_lookup_imap.
  destruct (cs !! j) as [ch|] eqn:E; [|done]. simpl. f_equal.
  unfold rename_child. destruct (is_global ch) eqn:Eg.
  - rewrite decide_True; [done|]. apply elem_of_order_ids. by exists ch.
  - rewrite decide_False; [done|]. rewrite elem_of_order_ids.
    intros (ch' & Hch' & Hg). simpl in Hch'. congruence.
Qed.

Lemma tag_apply_renames plan root : tag (apply_renames plan root) = tag root.
Proof. by destruct root. Qed.

Lemma apply_renames_element plan t a x cs tl :
  apply_renames plan (Element t a x cs tl) =
    Element t a x (imap (rename_child plan) cs) tl.
Proof.
  pose proof (children_apply_renames plan (Element t a x cs tl)) as H.
  unfold apply_renames in *. simpl in H. by rewrite H.
Qed.

Lemma rename_child_cases plan j ch :
  rename_child plan j ch = ch ∨
  ∃ o new, is_global ch = true ∧ plan !! j = Some (o, new) ∧
    rename_child plan j ch = set "name" new ch.
Proof.
  unfold rename_child. destruct (is_global ch); [|by left].
  destruct (plan !! j) as [[o new]|]; [|by left]. right. by exists o, new.
Qed.

Lemma rename_child_name plan j ch :
  (if tag_in (rename_child plan j ch) Xsd.GLOBAL_KINDS
   then get "name" (rename_child plan j ch) else None) =
    if is_global ch then Some (final_name plan (j, ch)) else None.
Proof.
  unfold rename_child, final_name. simpl.
  destruct (is_global ch) eqn:Eg; [|by rewrite global_name_cases, Eg].
  destruct (plan !! j) as [[o new]|]; [|by rewrite global_name_cases, Eg].
  apply is_global_spec in Eg as [Ht _].
  change Resolver.GLOBAL_KINDS with Xsd.GLOBAL_KINDS in Ht.
  rewrite tag_in_set, Ht. apply get_set_eq. by eapply tag_in_is_Some.
Qed.

Lemma final_names_offset plan (g : nat → nat) (cs : list node) :
  omap (λ ch, if tag_in ch Xsd.GLOBAL_KINDS then get "name" ch else None)
    (imap (λ i, rename_child plan (g i)) cs)
  = final_name plan <$>
      filter (λ d : gdecl, is_global d.2) (imap (λ i x, (g i, x)) cs).
Proof.
  revert g. induction cs as [|c cs IH]; intros g; [done|].
  rewrite !imap_cons, filter_cons. simpl omap.
  rewrite rename_child_name. simpl.
  destruct (is_global c) eqn:E; simpl.
  - f_equal. apply (IH (g ∘ S)).
  - apply (IH (g ∘ S)).
Qed.

(** The global names after step 3. *)
Lemma global_names_apply_renames plan root :
  global_names (apply_renames plan root) = final_name plan <$> order root.
Proof.
  unfold global_names. rewrite children_apply_renames.
  apply (final_names_offset plan id).
Qed.

Lemma rename_children_related plan (g : nat → nat) (cs : list node) :
  Forall2 (λ c c', renamed_only c c' ∧ tail (iter c') = tail (iter c))
    cs (imap (λ i, rename_child plan (g i)) cs).
Proof.
  revert g. induction cs as [|c cs IH]; intros g; [constructor|].
  rewrite imap_cons. constructor; [|apply (IH (g ∘ S))].
  destruct (rename_child_cases plan (g 0) c) as [->|(o & new & _ & _ & ->)].
  - split; [apply renamed_only_refl|done].
  - split; [apply renamed_only_set|]. by rewrite iter_set.
Qed.

(** Step 3 changes [name] attributes only. *)
Lemma iter_apply_renames plan root :
  Forall2 renamed_only (iter root) (iter (apply_renames plan root)).
Proof.
  destruct root as [t a x cs tl|x tl]; [|apply Forall2_renamed_only_refl].
  rewrite apply_renames_element. apply iter_renamed_children.
  apply (rename_children_related plan id).
Qed.

Lemma apply_renames_empty root : apply_renames ∅ root = root.
Proof.
  destruct root as [t a x cs tl|x tl]; [|done].
  rewrite apply_renames_element. f_equal.
  apply list_eq. intros j. rewrite list_lookup_imap.
  destruct (cs !! j) as [ch|]; [|done]. simpl. f_equal.
  unfold rename_child. rewrite lookup_empty. by destruct (is_global ch).
Qed.

(** *** Step 4 *)

Lemma update_reference_id changed canonical st a :
  (∀ k v, canonical !! k = Some v → v = k) →
  update_reference changed canonical st a = st.
Proof.
  intros Hcan. unfold update_reference.
  destruct (attr_get a st.1) as [v|]; [|done].
  case_decide; [done|].
  pose proof (split_qname_join v) as Hjoin.
  destruct (split_qname v) as [pfx lname]. simpl in Hjoin.
  case_decide; [|done].
  assert (default lname (canonical !! lname) = lname) as ->.
  { destruct (canonical !! lname) as [c|] eqn:E; [|done]. simpl. by eapply Hcan. }
  rewrite decide_False; [done|]. intros Hne. by apply Hne.
Qed.

Lemma update_references_id changed canonical root :
  (∀ k v, canonical !! k = Some v → v = k) →
  update_references changed canonical root = (root, 0).
Proof.
  intros Hcan. apply update_attribs_id. intros a.
  unfold update_element, REF_ATTRS. simpl foldl.
  by rewrite !update_reference_id.
Qed.

End StepFacts.

(** ** [fix_collisions.py]: the plan, name by name *)

Module TraceFacts.

Import Xml Xsd Resolver XmlFacts XsdFacts OrderFacts PlanFacts.

Lemma new_names_app plan l1 l2 :
  new_names plan (l1 ++ l2) = new_names plan l1 ++ new_names plan l2.
Proof. apply omap_app. Qed.

Lemma new_names_ext (plan plan' : gmap nat (string * string)) l :
  (∀ x, x ∈ l → plan !! x.2.1 = plan' !! x.2.1) →
  new_names plan l = new_names plan' l.
Proof.
  intros H. induction l as [|x l IH]; [done|]. unfold new_names in *.
  change (omap ?f (x :: l)) with
    (match f x with Some y => y :: omap f l | None => omap f l end).
  cbv beta. rewrite (H x) by left. rewrite IH; [done|]. intros y Hy. apply H. by right.
Qed.

Lemma elem_of_ids (l : list (string * nat * gdecl)) x :
  x ∈ l → x.2.1 ∈ l.*2.*1.
Proof.
  intros Hx. apply list_elem_of_fmap. exists x.2. split; [done|].
  apply list_elem_of_fmap. by exists x.
Qed.

Lemma group_members root o nodes :
  (o, nodes) ∈ by_name root ↔
  nodes = filter (λ d : gdecl, name_of d.2 = o) (order root) ∧ nodes ≠ [].
Proof. rewrite by_name_group_by. apply DictFacts.elem_of_group_by. Qed.

Lemma group_keys root :
  list_to_set (by_name root).*1 =@{gset string} list_to_set (global_names root).
Proof.
  apply set_eq. intros k.
  rewrite !elem_of_list_to_set, by_name_group_by, DictFacts.group_by_keys.
  rewrite <-order_names, list_elem_of_fmap. naive_solver.
Qed.

Section Trace.

Variable tostring : node → string.
Variable fallback_suffix : nat → string.

Local Abbreviation plan_trace := (plan_trace tostring fallback_suffix).
Local Abbreviation rename_member := (rename_member tostring fallback_suffix).
Local Abbreviation rename_members := (rename_members tostring fallback_suffix).
Local Abbreviation rename_group := (rename_group tostring fallback_suffix).
Local Abbreviation rename_groups := (rename_groups tostring fallback_suffix).
Local Abbreviation build_plan := (build_plan tostring fallback_suffix).

Lemma trace_nil fuel s s' :
  chosen_names s' = chosen_names s → rename_plan s' = rename_plan s →
  plan_trace fuel [] s s'.
Proof.
  intros Hc Hp. split; [|split].
  - rewrite Hc. unfold new_names. simpl. set_solver.
  - intros j _. by rewrite Hp.
  - intros q name i d Hq. done.
Qed.

Lemma trace_start fuel l s0 s s' :
  chosen_names s0 = chosen_names s → rename_plan s0 = rename_plan s →
  plan_trace fuel l s0 s' → plan_trace fuel l s s'.
Proof. unfold Resolver.plan_trace. intros -> ->. done. Qed.

Lemma trace_single fuel name i d s s' :
  rename_member fuel name i d s = Some s' → i ≠ 1 →
  plan_trace fuel [(name, i, d)] s s'.
Proof.
  intros [[? _]|(_ & new & Hb & ->)]%rename_member_cases Hi; [done|].
  split; [|split]; cbn [chosen_names rename_plan].
  - unfold new_names.
    change (omap ?f [?x]) with (match f x with Some y => [y] | None => [] end).
    cbn [fst snd]. rewrite lookup_insert_eq. simpl. set_solver.
  - intros j Hj. rewrite lookup_insert_ne; [done|]. intros <-. apply Hj.
    simpl. by left.
  - intros q name' i' d' Hq. destruct q as [|q]; [|done].
    injection Hq as <- <- <-. exists new. rewrite lookup_insert_eq.
    split; [done|]. unfold taken_before. simpl take. unfold new_names. simpl omap.
    assert (chosen_names s ∪ list_to_set [] = chosen_names s) as -> by set_solver.
    done.
Qed.

Lemma trace_app fuel l1 l2 s s1 s1' s2 :
  plan_trace fuel l1 s s1 → plan_trace fuel l2 s1' s2 →
  chosen_names s1' = chosen_names s1 → rename_plan s1' = rename_plan s1 →
  (∀ j, j ∈ l1.*2.*1 → j ∉ l2.*2.*1) →
  plan_trace fuel (l1 ++ l2) s s2.
Proof.
  intros (Hc1 & Hf1 & He1) (Hc2 & Hf2 & He2) Hc Hp Hdisj.
  assert (∀ l, (∀ x, x ∈ l → x ∈ l1) →
            new_names (rename_plan s2) l = new_names (rename_plan s1) l) as Hsame.
  { intros l Hl. apply new_names_ext. intros x Hx.
    rewrite Hf2, Hp; [done|]. by apply Hdisj, elem_of_ids, Hl. }
  split; [|split].
  - rewrite Hc2, Hc, Hc1, new_names_app, list_to_set_app_L, (Hsame l1) by done.
    by rewrite (assoc_L (∪)).
  - intros j Hj. rewrite !fmap_app, !elem_of_app in Hj.
    rewrite Hf2, Hp, Hf1; [done|tauto|tauto].
  - intros q name i d Hq. apply lookup_app_Some in Hq as [Hq|[Hge Hq]].
    + destruct (He1 _ _ _ _ Hq) as (n & Hn & Hb). exists n. split.
      * rewrite Hf2, Hp; [done|].
        apply Hdisj, (elem_of_ids l1 (name, i, d)). by eapply list_elem_of_lookup_2.
      * unfold taken_before in *.
        pose proof (lookup_lt_Some _ _ _ Hq) as Hlt.
        rewrite take_app_le by (unfold gdecl in *; lia).
        rewrite Hsame; [done|]. intros x (i0 & Hi0 & _)%elem_of_take.
        by eapply list_elem_of_lookup_2.
    + destruct (He2 _ _ _ _ Hq) as (n & Hn & Hb). exists n. split; [done|].
      unfold taken_before in *.
      rewrite take_app_ge, new_names_app, list_to_set_app_L by done.
      rewrite (Hsame l1) by done. rewrite Hc, Hc1 in Hb.
      by rewrite (assoc_L (∪)).
Qed.

Lemma rename_members_trace fuel name nodes :
  ∀ i s s', 2 ≤ i → NoDup nodes.*1 →
    rename_members fuel name i nodes s = Some s' →
    plan_trace fuel (imap (λ p d, (name, p + i, d)) nodes) s s'.
Proof.
  induction nodes as [|d nodes IH]; intros i s s' Hi Hnd Hs.
  - injection Hs as <-. by apply trace_nil.
  - cbn [Resolver.rename_members] in Hs.
    destruct (rename_member fuel name i d s) as [s1|] eqn:E1; [|done].
    cbn [mbind option_bind] in Hs.
    rewrite fmap_cons in Hnd. apply NoDup_cons in Hnd as [Hd Hnd].
    rewrite imap_cons.
    rewrite (imap_ext _ (λ p d0, (name, p + S i, d0)))
      by (intros p x _; simpl; do 2 f_equal; lia).
    apply (trace_app fuel [(name, 0 + i, d)] _ s s1 s1 s').
    + apply trace_single; [done|lia].
    + apply IH; [lia|done|done].
    + done.
    + done.
    + intros j Hj Hj'. simpl in Hj. apply list_elem_of_singleton in Hj as ->.
      apply Hd. rewrite <-!list_fmap_compose in Hj'.
      apply list_elem_of_fmap in Hj' as ([[n0 i0] d0] & Hid & Hin).
      apply list_elem_of_lookup in Hin as [p Hp].
      rewrite list_lookup_imap in Hp.
      destruct (nodes !! p) as [d1|] eqn:Ed; [|done]. injection Hp as <- <- <-.
      simpl in Hid. rewrite Hid. apply list_elem_of_fmap. exists d1.
      split; [done|]. by eapply list_elem_of_lookup_2.
Qed.

Lemma rename_group_trace fuel g s s' :
  NoDup (tail g.2).*1 →
  rename_group fuel g s = Some s' →
  plan_trace fuel (imap (λ p d, (g.1, p + 2, d)) (tail g.2)) s s'.
Proof.
  destruct g as [k nodes]. cbn [fst snd].
  intros Hnd [[Hle ->]|[Hlt Hm]]%rename_group_cases; cbn [fst snd] in *.
  - destruct nodes as [|d0 [|d1 rest]]; [| |simpl in Hle; lia]; by apply trace_nil.
  - destruct nodes as [|d0 rest]; [simpl in Hlt; lia|].
    cbn [Resolver.rename_members] in Hm.
    unfold Resolver.rename_member at 1 in Hm. rewrite decide_True in Hm by done.
    cbn [mbind option_bind tail] in *.
    eapply trace_start; [| |by apply (rename_members_trace fuel k rest 2)]; done.
Qed.

Lemma renamed_members_cons g groups :
  renamed_members (g :: groups) =
    imap (λ p d, (g.1, p + 2, d)) (tail g.2) ++ renamed_members groups.
Proof. done. Qed.

Lemma rename_groups_trace fuel groups :
  ∀ s s', NoDup (renamed_members groups).*2.*1 →
    rename_groups fuel groups s = Some s' →
    plan_trace fuel (renamed_members groups) s s'.
Proof.
  induction groups as [|g groups IH]; intros s s' Hnd Hs.
  - injection Hs as <-. by apply trace_nil.
  - cbn [Resolver.rename_groups] in Hs.
    destruct (rename_group fuel g s) as [s1|] eqn:Eg; [|done].
    cbn [mbind option_bind] in Hs.
    rewrite renamed_members_cons in *. rewrite !fmap_app in Hnd.
    apply NoDup_app in Hnd as (Hnd1 & Hdisj & Hnd2).
    apply (trace_app fuel _ _ s s1 s1 s'); [|by apply IH|done|done|done].
    apply rename_group_trace; [|done].
    revert Hnd1. rewrite <-!list_fmap_compose.
    assert (∀ (l : list gdecl) (f : nat → gdecl → string * nat * gdecl),
              (∀ p d, (f p d).2 = d) → (fst ∘ snd) <$> imap f l = l.*1) as Hids.
    { intros l. induction l as [|x l IHl]; intros f Hf; [done|].
      rewrite imap_cons, !fmap_cons. simpl. rewrite Hf. f_equal.
      apply IHl. intros p d. apply Hf. }
    by rewrite Hids.
Qed.

End Trace.

(** Each later member of a group is named once. *)
Lemma renamed_members_ids_NoDup root :
  NoDup (renamed_members (by_name root)).*2.*1.
Proof.
  rewrite <-list_fmap_compose. apply NoDup_fmap_2_strong.
  - intros [[n i] d] [[n' i'] d'] Hx Hx' Hid. simpl in Hid.
    unfold renamed_members in Hx, Hx'.
    apply list_elem_of_bind in Hx as ([k nodes] & Hx & Hg).
    apply list_elem_of_bind in Hx' as ([k' nodes'] & Hx' & Hg').
    apply list_elem_of_lookup in Hx as [p Hp], Hx' as [p' Hp'].
    rewrite list_lookup_imap in Hp, Hp'. simpl in Hp, Hp'.
    destruct (tail nodes !! p) as [d0|] eqn:Ep; [|done].
    destruct (tail nodes' !! p') as [d0'|] eqn:Ep'; [|done].
    injection Hp as <- <- <-. injection Hp' as <- <- <-.
    apply group_members in Hg as [Hnodes _], Hg' as [Hnodes' _].
    rewrite lookup_tail in Ep, Ep'.
    assert (d0 ∈ nodes) as Hd by by eapply list_elem_of_lookup_2.
    assert (d0' ∈ nodes') as Hd' by by eapply list_elem_of_lookup_2.
    rewrite Hnodes in Hd. rewrite Hnodes' in Hd'.
    apply list_elem_of_filter in Hd as [Hkd Hd], Hd' as [Hkd' Hd'].
    assert (d0' = d0) as -> by by apply (order_id_inj root).
    assert (k' = k) as -> by congruence.
    assert (nodes' = nodes) as -> by congruence.
    assert (S p' = S p) as [= ->]; [|done].
    eapply NoDup_lookup; [|done..]. rewrite Hnodes.
    apply NoDup_filter, order_NoDup.
  - unfold renamed_members. apply NoDup_bind.
    + intros [k nodes] [k' nodes'] [[n i] d] Hg Hg' Hx Hx'.
      apply list_elem_of_lookup in Hx as [p Hp], Hx' as [p' Hp'].
      rewrite list_lookup_imap in Hp, Hp'. simpl in Hp, Hp'.
      destruct (tail nodes !! p) as [d0|] eqn:Ep; [|done].
      destruct (tail nodes' !! p') as [d0'|] eqn:Ep'; [|done].
      injection Hp as <- <- <-. injection Hp' as <- _ _.
      apply group_members in Hg as [Hnodes _], Hg' as [Hnodes' _].
      congruence.
    + intros [k nodes] Hg. apply group_members in Hg as [Hnodes _].
      apply NoDup_alt. intros p p' x. rewrite !list_lookup_imap. cbn [fst snd].
      destruct (tail nodes !! p) as [d0|] eqn:Ep; [|done].
      destruct (tail nodes !! p') as [d0'|] eqn:Ep'; [|done].
      simpl. intros <- [= Hpp _]. lia.
    + rewrite by_name_group_by. eapply NoDup_fmap_1, DictFacts.group_by_NoDup.
Qed.

Lemma renamed_members_lookup root name nodes p d :
  (name, nodes) ∈ by_name root → nodes !! S p = Some d →
  ∃ q, renamed_members (by_name root) !! q = Some (name, S (S p), d).
Proof.
  intros Hg Hp. apply list_elem_of_lookup. unfold renamed_members.
  apply list_elem_of_bind. exists (name, nodes). split; [|done].
  apply list_elem_of_lookup. exists p. rewrite list_lookup_imap. simpl.
  rewrite lookup_tail, Hp. simpl. by replace (p + 2) with (S (S p)) by lia.
Qed.

Lemma taken_before_chosen tostring fallback_suffix fuel l s0 s q :
  plan_trace tostring fallback_suffix fuel l s0 s →
  taken_before (chosen_names s0) (rename_plan s) l q ⊆ chosen_names s.
Proof.
  intros (Hc & _ & _). rewrite Hc. unfold taken_before.
  apply union_mono_l. intros x. rewrite !elem_of_list_to_set.
  unfold new_names. rewrite !list_elem_of_omap.
  intros (y & (i0 & Hy & _)%elem_of_take & Hx). exists y.
  split; [by eapply list_elem_of_lookup_2|done].
Qed.

Lemma build_plan_trace tostring fallback_suffix fuel root s :
  build_plan tostring fallback_suffix fuel (by_name root) = Some s →
  plan_trace tostring fallback_suffix fuel (renamed_members (by_name root))
    (PlanState (list_to_set (global_names root)) ∅ ∅) s.
Proof.
  intros Hs. eapply trace_start; [| |apply rename_groups_trace;
    [apply renamed_members_ids_NoDup|exact Hs]]; [|done].
  cbn [chosen_names]. apply group_keys.
Qed.

End TraceFacts.

(** ** [fix_collisions.py]: the plan of a document *)

Module ResolverFacts.

Import Xml Xsd Resolver XmlFacts XsdFacts OrderFacts PlanFacts StepFacts TraceFacts.

Section Run.

Variable tostring : node → string.
Variable fallback_suffix : nat → string.

Local Abbreviation build_plan := (build_plan tostring fallback_suffix).
Local Abbreviation main := (main tostring fallback_suffix).

Lemma elem_of_by_name root o nodes :
  (o, nodes) ∈ by_name root ↔
  nodes = filter (λ d : gdecl, name_of d.2 = o) (order root) ∧ nodes ≠ [].
Proof. rewrite by_name_group_by. apply DictFacts.elem_of_group_by. Qed.

Lemma by_name_keys root (k : string) :
  k ∈ (by_name root).*1 ↔ k ∈ global_names root.
Proof.
  rewrite by_name_group_by, DictFacts.group_by_keys, <-order_names.
  rewrite list_elem_of_fmap. naive_solver.
Qed.

(** A planned declaration comes after another declaration of its old name. *)
Lemma plan_entry_later fuel root s j o n :
  build_plan fuel (by_name root) = Some s →
  rename_plan s !! j = Some (o, n) →
  ∃ p d p' d', order root !! p = Some d ∧ d.1 = j ∧ name_of d.2 = o ∧
    p' < p ∧ order root !! p' = Some d' ∧ name_of d'.2 = o.
Proof.
  intros (_ & HA & _)%build_plan_spec Hj.
  destruct (HA _ _ _ Hj)
    as (nodes & q & d & c & [-> _]%elem_of_by_name & Hq & Hpos & <- & _).
  pose proof (list_elem_of_lookup_2 _ _ _ Hq) as [Hd _]%list_elem_of_filter.
  destruct (filter_lookup_later _ _ _ _ Hq Hpos) as (p0 & p & d0 & ? & ? & ? & ?).
  by exists p, d, p0, d0.
Qed.

(** A declaration that comes after another of the same name is planned. *)
Lemma later_member_planned fuel root s p d p' d' :
  build_plan fuel (by_name root) = Some s →
  order root !! p = Some d → order root !! p' = Some d' → p' < p →
  name_of d'.2 = name_of d.2 →
  is_Some (rename_plan s !! d.1).
Proof.
  intros (_ & _ & HB)%build_plan_spec Hp Hp' Hlt Hname.
  set (nodes := filter (λ x : gdecl, name_of x.2 = name_of d.2) (order root)).
  assert (d ∈ nodes) as Hd.
  { apply list_elem_of_filter. split; [done|]. by eapply list_elem_of_lookup_2. }
  assert ((name_of d.2, nodes) ∈ by_name root) as Hg.
  { apply elem_of_by_name. split; [done|]. intros E. rewrite E in Hd.
    by apply elem_of_nil in Hd. }
  apply list_elem_of_lookup in Hd as [q Hq].
  destruct q as [|q]; [|eapply HB; [done..|lia]].
  destruct (filter_head_first _ _ _ _ _ Hq Hp' Hname) as (p2 & Hle & Hp2).
  pose proof (NoDup_lookup _ _ _ _ (order_NoDup root) Hp Hp2). lia.
Qed.

(** The first declaration of a name is not planned. *)
Lemma first_member_unplanned fuel root s p d :
  build_plan fuel (by_name root) = Some s →
  order root !! p = Some d →
  (∀ p' d', p' < p → order root !! p' = Some d' → name_of d'.2 ≠ name_of d.2) →
  rename_plan s !! d.1 = None.
Proof.
  intros Hs Hp Hfirst.
  destruct (rename_plan s !! d.1) as [[o n]|] eqn:E; [|done].
  destruct (plan_entry_later _ _ _ _ _ _ Hs E)
    as (p2 & d2 & p' & d' & Hp2 & Hid & Hn2 & Hlt & Hp' & Hn').
  assert (d2 = d) as ->.
  { apply (order_id_inj root); [by eapply list_elem_of_lookup_2..|done]. }
  pose proof (NoDup_lookup _ _ _ _ (order_NoDup root) Hp Hp2) as ->.
  destruct (Hfirst _ _ Hlt Hp'). congruence.
Qed.

(** No two global declarations leave step 3 under the same name. *)
Lemma final_name_inj fuel root s d d' :
  build_plan fuel (by_name root) = Some s →
  d ∈ order root → d' ∈ order root →
  final_name (rename_plan s) d = final_name (rename_plan s) d' → d = d'.
Proof.
  intros Hs Hd Hd'.
  destruct (build_plan_spec _ _ _ _ _ Hs) as ((HK & Hin & Hinj & _) & _ & _).
  assert (∀ x, x ∈ order root → name_of x.2 ∈ (list_to_set (by_name root).*1 : gset string))
    as Hkey.
  { intros x Hx. rewrite elem_of_list_to_set, by_name_keys, <-order_names.
    apply list_elem_of_fmap. eauto. }
  unfold final_name.
  destruct (rename_plan s !! d.1) as [[o n]|] eqn:E;
    destruct (rename_plan s !! d'.1) as [[o' n']|] eqn:E'.
  - intros ->. apply (order_id_inj root); [done..|]. by eapply Hinj.
  - intros ->. destruct (Hin _ _ _ E) as [_ []]. by apply Hkey.
  - intros <-. destruct (Hin _ _ _ E') as [_ []]. by apply Hkey.
  - intros Hname.
    apply list_elem_of_lookup in Hd as [p Hp], Hd' as [p' Hp'].
    destruct (decide (p = p')) as [->|Hne]; [congruence|].
    destruct (decide (p < p')).
    + assert (is_Some (rename_plan s !! d'.1)) as [? ?]; [|congruence].
      by eapply (later_member_planned _ _ _ p' d' p d).
    + assert (is_Some (rename_plan s !! d.1)) as [? ?]; [|congruence].
      eapply (later_member_planned _ _ _ p d p' d'); [done..|lia|done].
Qed.

(** *** The whole run *)

Lemma main_not_schema fuel dry root :
  tag root ≠ Some (q "schema") →
  main fuel dry root = Some (Outcome 2 RootNotSchema root None).
Proof. intros H. unfold Resolver.main. by rewrite decide_False. Qed.

Lemma main_schema fuel dry root o :
  tag root = Some (q "schema") →
  main fuel dry root = Some o →
  ∃ s, build_plan fuel (by_name root) = Some s ∧
    tree o = apply_renames (rename_plan s) root ∧
    exit_status o = 0%Z ∧
    ((rename_plan s = ∅ ∧ said o = NoDuplicatesToFix ∧ written o = None) ∨
     (rename_plan s ≠ ∅ ∧
      said o = Planned (planned_renames (rename_plan s) root) 0 ∧
      written o = if dry then None else Some (tree o))).
Proof.
  intros Ht. unfold Resolver.main. rewrite decide_True by done.
  destruct (build_plan fuel (by_name root)) as [s|] eqn:Es; simpl; [|done].
  destruct (build_plan_spec _ _ _ _ _ Es) as ((_ & _ & _ & Hcan) & _ & _).
  rewrite update_references_id by done.
  case_decide as He; intros [= <-]; exists s; simpl.
  - rewrite He, apply_renames_empty. repeat split. by left.
  - split; [done|]. split; [done|]. split; [done|]. by right.
Qed.

Lemma main_total `{!Inj (=) (=) fallback_suffix} dry root :
  ∃ fuel0 o, ∀ fuel, fuel0 ≤ fuel → main fuel dry root = Some o.
Proof.
  destruct (decide (tag root = Some (q "schema"))) as [Ht|Ht].
  - destruct (build_plan_total tostring fallback_suffix (by_name root))
      as (f0 & s & Hs).
    assert (∀ fuel, f0 ≤ fuel → main fuel dry root = main f0 dry root) as Heq.
    { intros fuel Hf. unfold Resolver.main. rewrite !decide_True by done.
      by rewrite (Hs fuel), (Hs f0) by lia. }
    exists f0. destruct (main f0 dry root) as [o|] eqn:E; [by exists o|].
    exfalso. unfold Resolver.main in E.
    rewrite decide_True, (Hs f0) in E by done. simpl in E.
    case_decide; [done|]. by destruct (update_references _ _ _).
  - exists 0. eexists. intros fuel _. by apply main_not_schema.
Qed.

Lemma names_unique fuel root s :
  build_plan fuel (by_name root) = Some s →
  NoDup (global_names (apply_renames (rename_plan s) root)).
Proof.
  intros Hs. rewrite global_names_apply_renames.
  apply NoDup_fmap_2_strong; [|apply order_NoDup].
  intros d d' Hd Hd'. by eapply final_name_inj.
Qed.

(** C2. On a schema document every run of the resolver ends with pairwise
    distinct global names; a planned new name is none of the names the
    document came with, is recorded as chosen, and is planned for one
    declaration only; and with a pattern that gives different suffixes for
    different numbers the resolver does end. *)
Theorem resolver_names_unique dry root :
  tag root = Some (q "schema") →
  (∀ fuel o, main fuel dry root = Some o → NoDup (global_names (tree o))) ∧
  (∀ fuel s j o n, build_plan fuel (by_name root) = Some s →
     rename_plan s !! j = Some (o, n) →
     (n ∉ global_names root) ∧ n ∈ chosen_names s ∧
     ∀ j' o', rename_plan s !! j' = Some (o', n) → j' = j) ∧
  (Inj (=) (=) fallback_suffix →
   ∃ fuel0 o, ∀ fuel, fuel0 ≤ fuel → main fuel dry root = Some o).
Proof.
  intros Ht. split; [|split].
  - intros fuel o (s & Hs & -> & _)%main_schema; [|done]. by eapply names_unique.
  - intros fuel s j o n ((HK & Hin & Hinj & _) & _ & _)%build_plan_spec Hj.
    destruct (Hin _ _ _ Hj) as [Hc Hk]. split; [|split; [done|]].
    + intros Hn. apply Hk. by rewrite elem_of_list_to_set, by_name_keys.
    + intros j' o' Hj'. by eapply Hinj.
  - intros ?. apply main_total.
Qed.

(** A run leaves the [type], [base] and [ref] attributes of every node. *)
Lemma references_kept fuel dry root o k e a :
  main fuel dry root = Some o →
  iter root !! k = Some e → a ∈ REF_ATTRS →
  ∃ e', iter (tree o) !! k = Some e' ∧ get a e' = get a e.
Proof.
  intros Ho Hk Ha.
  assert (Forall2 renamed_only (iter root) (iter (tree o))) as Hrel.
  { destruct (decide (tag root = Some (q "schema"))) as [Ht|Ht].
    - destruct (main_schema _ _ _ _ Ht Ho) as (s & _ & -> & _).
      apply iter_apply_renames.
    - rewrite main_not_schema in Ho by done. injection Ho as <-.
      apply Forall2_renamed_only_refl. }
  destruct (Forall2_lookup_l _ _ _ _ _ Hrel Hk) as (e' & Hk' & _ & Hget).
  exists e'. split; [done|]. apply Hget. intros ->. revert Ha.
  unfold REF_ATTRS. rewrite !elem_of_cons, elem_of_nil. naive_solver.
Qed.

(** C3. The reference-update phase of the resolver changes no attribute and
    counts no update: on the plan and the canonical names of any document it
    leaves any tree as it is and returns 0, a run reports 0 updated
    references, and every [type], [base] and [ref] attribute of the
    document has its value after the run. *)
Theorem resolver_references_unchanged fuel dry root o :
  main fuel dry root = Some o →
  (∀ s t, build_plan fuel (by_name root) = Some s →
     update_references (changed_groups (rename_plan s)) (canonical_name s) t
       = (t, 0)) ∧
  (∀ renames updates, said o = Planned renames updates → updates = 0) ∧
  (∀ k e a, iter root !! k = Some e → a ∈ REF_ATTRS →
     ∃ e', iter (tree o) !! k = Some e' ∧ get a e' = get a e).
Proof.
  intros Ho. split; [|split].
  - intros s t ((_ & _ & _ & Hcan) & _)%build_plan_spec.
    by apply update_references_id.
  - destruct (decide (tag root = Some (q "schema"))) as [Ht|Ht].
    + destruct (main_schema _ _ _ _ Ht Ho)
        as (s & _ & _ & _ & [(_ & -> & _)|(_ & -> & _)]); [done|].
      by intros ?? [= _ <-].
    + rewrite main_not_schema in Ho by done. by injection Ho as <-.
  - intros k e a Hk Ha. by eapply references_kept.
Qed.

(** C7. A member of a duplicate group after the first whose affinity is
    undetermined is planned under the old name followed by the pattern at
    [N], where [N] is at least the member's 1-based position.  The names
    that decide are those taken when the loop comes to the member: the
    global names that the document came with and the new names of the
    members that the loop named before it.  The accepted name is none of
    them, and every number from the position up to [N] gave one of them; all
    of them are among the names chosen by the end of the run.  Every later
    member of a group is named in its turn, once, under the name of its
    group.  Step by step: the loop body on a state accepts the first such
    name that is not among the state's chosen names and adds it to them;
    and with a pattern that gives different suffixes for different numbers
    the body ends. *)
Theorem fallback_numbering fuel root s name nodes p d :
  build_plan fuel (by_name root) = Some s →
  (name, nodes) ∈ by_name root →
  nodes !! p = Some d →
  0 < p →
  guess_affinity tostring d.2 = None →
  (∃ q N,
     renamed_members (by_name root) !! q = Some (name, S p, d) ∧
     rename_plan s !! d.1 = Some (name, name +:+ fallback_suffix N) ∧
     S p ≤ N ∧
     taken_before (list_to_set (global_names root)) (rename_plan s)
       (renamed_members (by_name root)) q ⊆ chosen_names s ∧
     (name +:+ fallback_suffix N ∉
        taken_before (list_to_set (global_names root)) (rename_plan s)
          (renamed_members (by_name root)) q) ∧
     (∀ k, S p ≤ k < N →
        name +:+ fallback_suffix k ∈
          taken_before (list_to_set (global_names root)) (rename_plan s)
            (renamed_members (by_name root)) q)) ∧
  (∀ q x, renamed_members (by_name root) !! q = Some x →
     (∃ n, rename_plan s !! x.2.1 = Some (x.1.1, n)) ∧
     (∀ q' x', renamed_members (by_name root) !! q' = Some x' →
        x'.2.1 = x.2.1 → q' = q)) ∧
  (∀ fuel' i s0 s1, i ≠ 1 →
     rename_member tostring fallback_suffix fuel' name i d s0 = Some s1 →
     ∃ N, i ≤ N ∧
       s1 = PlanState ({[name +:+ fallback_suffix N]} ∪ chosen_names s0)
              (<[d.1 := (name, name +:+ fallback_suffix N)]> (rename_plan s0))
              (canonical_name s0) ∧
       (name +:+ fallback_suffix N ∉ chosen_names s0) ∧
       (∀ k, i ≤ k < N → name +:+ fallback_suffix k ∈ chosen_names s0)) ∧
  (Inj (=) (=) fallback_suffix →
   ∀ i s0, ∃ s1, ∀ fuel', size (chosen_names s0) < fuel' →
     rename_member tostring fallback_suffix fuel' name i d s0 = Some s1).
Proof.
  intros Hs Hg Hp Hpos Hguess.
  assert (∀ fuel' c i r,
    bump_loop fallback_suffix fuel' name c
      (name +:+ default (fallback_suffix i) (guess_affinity tostring d.2)) i
      = Some r →
    ∃ N, i ≤ N ∧ r = name +:+ fallback_suffix N ∧ (r ∉ c) ∧
      ∀ k, i ≤ k < N → name +:+ fallback_suffix k ∈ c) as Hloop.
  { intros fuel' c i r Hb. rewrite Hguess in Hb. simpl in Hb.
    apply bump_loop_spec in Hb as [Hr [->|(Hin & N & HN & -> & Hk)]].
    - exists i. split; [done|]. split; [done|]. split; [done|]. intros k ?. lia.
    - exists N. split; [lia|]. split; [done|]. split; [done|].
      intros k ?. destruct (decide (k = i)) as [->|]; [done|]. apply Hk. lia. }
  destruct (build_plan_trace _ _ _ _ _ Hs) as (Hc & _ & He).
  cbn [chosen_names] in Hc, He.
  split; [|split; [|split]].
  - destruct p as [|p]; [lia|].
    destruct (renamed_members_lookup root name nodes p d Hg Hp) as [q Hq].
    destruct (He _ _ _ _ Hq) as (n & Hn & Hb).
    destruct (Hloop _ _ _ _ Hb) as (N & HN & -> & Hfresh & Hk).
    exists q, N. split; [done|]. split; [done|]. split; [done|].
    split; [|done]. rewrite Hc. unfold taken_before.
    apply union_mono_l. intros x. rewrite !elem_of_list_to_set.
    unfold new_names. rewrite !list_elem_of_omap.
    intros (y & (i0 & Hy & _)%elem_of_take & Hx). exists y.
    split; [by eapply list_elem_of_lookup_2|done].
  - intros q [[n0 i0] d0] Hq. split.
    + destruct (He _ _ _ _ Hq) as (n & Hn & _). by exists n.
    + intros q' [[n1 i1] d1] Hq' Hid.
      simpl in Hid.
      apply (NoDup_lookup _ _ _ d0.1 (renamed_members_ids_NoDup root)).
      * rewrite list_lookup_fmap. apply fmap_Some. exists d1. split; [|done].
        rewrite list_lookup_fmap. apply fmap_Some. by exists (n1, i1, d1).
      * rewrite list_lookup_fmap. apply fmap_Some. exists d0. split; [|done].
        rewrite list_lookup_fmap. apply fmap_Some. by exists (n0, i0, d0).
  - intros fuel' i s0 s1 Hi [[? _]|(_ & new & Hb & ->)]%rename_member_cases; [done|].
    destruct (Hloop _ _ _ _ Hb) as (N & HN & -> & Hfresh & Hk). by exists N.
  - intros ? i s0. by apply rename_member_total.
Qed.

(** C8. The first declaration of a name in document order is not in the
    rename plan and leaves the resolver as it came; a child of the root
    that the run changed is a global declaration that comes after another
    one of the same name. *)
Theorem canonical_first_member fuel dry root o p d :
  main fuel dry root = Some o →
  order root !! p = Some d →
  (∀ p' d', p' < p → order root !! p' = Some d' → name_of d'.2 ≠ name_of d.2) →
  (∀ s, build_plan fuel (by_name root) = Some s → rename_plan s !! d.1 = None) ∧
  children (tree o) !! d.1 = Some d.2 ∧
  get "name" d.2 = Some (name_of d.2) ∧
  (∀ j ch, children root !! j = Some ch → children (tree o) !! j ≠ Some ch →
     ∃ q q' d', q' < q ∧ order root !! q = Some (j, ch) ∧
       order root !! q' = Some d' ∧ name_of d'.2 = name_of ch).
Proof.
  intros Ho Hp Hfirst.
  pose proof (list_elem_of_lookup_2 _ _ _ Hp) as Hd.
  destruct d as [i c]. apply elem_of_order in Hd as [Hc Hglob]. simpl in *.
  split; [|split; [|split]].
  - intros s Hs. by eapply (first_member_unplanned _ _ _ p (i, c)).
  - destruct (decide (tag root = Some (q "schema"))) as [Ht|Ht].
    + destruct (main_schema _ _ _ _ Ht Ho) as (s & Hs & -> & _).
      rewrite children_apply_renames, list_lookup_imap, Hc. simpl.
      unfold rename_child.
      pose proof (first_member_unplanned _ _ _ p (i, c) Hs Hp Hfirst) as Hnone.
      simpl in Hnone. rewrite Hnone. by destruct (is_global c).
    + rewrite main_not_schema in Ho by done. by injection Ho as <-.
  - by apply is_global_spec in Hglob as [_ ?].
  - intros j ch Hj Hne.
    destruct (decide (tag root = Some (q "schema"))) as [Ht|Ht].
    + destruct (main_schema _ _ _ _ Ht Ho) as (s & Hs & Htree & _).
      rewrite Htree, children_apply_renames, list_lookup_imap, Hj in Hne.
      simpl in Hne.
      destruct (rename_child_cases (rename_plan s) j ch)
        as [E|(old & new & Hg & Hplan & _)]; [by rewrite E in Hne|].
      destruct (plan_entry_later _ _ _ _ _ _ Hs Hplan)
        as (q0 & d0 & q' & d' & Hq & Hid & Hn0 & Hlt & Hq' & Hn').
      assert (d0 = (j, ch)) as ->.
      { apply (order_id_inj root); [by eapply list_elem_of_lookup_2| |done].
        by apply elem_of_order. }
      exists q0, q', d'. simpl in *. split; [done|]. split; [done|].
      split; [done|]. congruence.
    + rewrite main_not_schema in Ho by done. injection Ho as <-. simpl in Hne.
      congruence.
Qed.

End Run.

End ResolverFacts.

(** ** [find_collisions.py] *)

Module DetectorFacts.

Import Xml Xsd Detector XmlFacts XsdFacts.

Section Detect.

Variable sourceline : nat → option nat.

Local Abbreviation by_name := (by_name sourceline).
Local Abbreviation dupes := (dupes sourceline).
Local Abbreviation main := (main sourceline).

Lemma imap_pair_snd {A} (l : list A) : (imap pair l).*2 = l.
Proof.
  apply list_eq. intros i. rewrite list_lookup_fmap, list_lookup_imap.
  by destruct (l !! i).
Qed.

Lemma by_name_spec (ds : list (nat * node)) :
  let d := foldl (add_child sourceline) [] ds in
  NoDup d.*1 ∧
  ∀ k, length (Py.dict_get k d) =
       length (filter (λ n, n = k)
                 (omap (λ ch, if tag_in ch Xsd.GLOBAL_KINDS
                              then get "name" ch else None) ds.*2)).
Proof.
  simpl. induction ds as [|[j ch] ds [IHnd IHlen]] using rev_ind.
  - split; [constructor|done].
  - rewrite foldl_snoc. unfold add_child at 1 3. cbn [fst snd].
    change Detector.GLOBAL_KINDS with Xsd.GLOBAL_KINDS.
    rewrite fmap_app. cbn [fmap list_fmap snd].
    destruct (tag_in ch Xsd.GLOBAL_KINDS) eqn:Et.
    + destruct (tag_in_is_Some _ _ Et) as [t Htag]. rewrite Htag.
      destruct (get "name" ch) as [n|] eqn:En.
      * split; [by apply DictFacts.dict_append_NoDup|].
        intros k. rewrite DictFacts.dict_get_append, omap_app, filter_app.
        simpl omap. rewrite Et, En. rewrite filter_cons, filter_nil.
        rewrite !length_app, <-IHlen.
        destruct (decide (k = n)) as [->|Hne].
        -- rewrite decide_True by done. by rewrite length_app.
        -- rewrite decide_False by congruence. simpl. lia.
      * split; [done|]. intros k. rewrite omap_app, filter_app.
        simpl omap. rewrite Et, En, app_nil_r. apply IHlen.
    + split; [done|]. intros k. rewrite omap_app, filter_app.
      simpl omap. rewrite Et, app_nil_r. apply IHlen.
Qed.

Lemma filter_none {A} (P : A → Prop) `{!∀ x, Decision (P x)} (l : list A) :
  (∀ x, x ∈ l → ¬ P x) → filter P l = [].
Proof.
  induction l as [|x l IH]; intros Hall; [done|].
  rewrite filter_cons, decide_False by (apply Hall; left).
  apply IH. intros y Hy. apply Hall. by right.
Qed.

(** A document whose global names are pairwise distinct has no duplicate
    group. *)
Lemma dupes_unique root : NoDup (global_names root) → dupes root = [].
Proof.
  intros Hnd. unfold Detector.dupes. apply filter_none. intros [k xs] Hin.
  destruct (by_name_spec (imap pair (children root))) as [Hkeys Hlen].
  rewrite imap_pair_snd in Hlen. simpl in *.
  pose proof (DictFacts.dict_get_elem_of _ _ _ Hkeys Hin) as Hget.
  specialize (Hlen k). rewrite Hget in Hlen. rewrite Hlen.
  pose proof (OrderFacts.filter_key_length id k (global_names root)) as Hle.
  rewrite list_fmap_id in Hle. specialize (Hle Hnd).
  unfold global_names in Hle. simpl in Hle. lia.
Qed.

End Detect.

End DetectorFacts.

(** ** The three programs together *)

Module Pipeline.

Import Xml Xsd XmlFacts XsdFacts OrderFacts PlanFacts StepFacts ResolverFacts.

(** A declaration that is the first of its name in document order. *)
Lemma first_of_name root (x : string) :
  x ∈ global_names root →
  ∃ p d, Resolver.order root !! p = Some d ∧ Resolver.name_of d.2 = x ∧
    ∀ p' d', p' < p → Resolver.order root !! p' = Some d' →
      Resolver.name_of d'.2 ≠ Resolver.name_of d.2.
Proof.
  rewrite <-order_names. intros (d1 & -> & Hd1)%list_elem_of_fmap.
  set (x := Resolver.name_of d1.2).
  destruct (filter (λ d : Resolver.gdecl, Resolver.name_of d.2 = x)
              (Resolver.order root)) as [|d0 rest] eqn:E.
  { assert (d1 ∈ filter (λ d : Resolver.gdecl, Resolver.name_of d.2 = x)
                   (Resolver.order root)) as H.
    { by apply list_elem_of_filter. }
    rewrite E in H. by apply elem_of_nil in H. }
  assert (d0 ∈ filter (λ d : Resolver.gdecl, Resolver.name_of d.2 = x)
                 (Resolver.order root)) as [Hx0 Hd0]%list_elem_of_filter.
  { rewrite E. left. }
  apply list_elem_of_lookup in Hd0 as [p Hp].
  exists p, d0. split; [done|]. split; [done|].
  intros p' d' Hlt Hp' Hname. rewrite Hx0 in Hname.
  destruct (filter_head_first
              (λ d : Resolver.gdecl, Resolver.name_of d.2 = x)
              (Resolver.order root) d0 d' p') as (p2 & Hle & Hp2); [by rewrite E|done..|].
  pose proof (NoDup_lookup _ _ _ _ (order_NoDup root) Hp Hp2). lia.
Qed.

(** The resolver keeps every global name of the document. *)
Lemma resolver_keeps_names tostring fallback_suffix fuel dry root o (x : string) :
  Resolver.main tostring fallback_suffix fuel dry root = Some o →
  x ∈ global_names root → x ∈ global_names (Resolver.tree o).
Proof.
  intros Ho Hx.
  destruct (decide (tag root = Some (q "schema"))) as [Ht|Ht].
  - destruct (main_schema _ _ _ _ _ _ Ht Ho) as (s & Hs & -> & _).
    rewrite global_names_apply_renames.
    destruct (first_of_name _ _ Hx) as (p & d & Hp & <- & Hfirst).
    apply list_elem_of_fmap. exists d.
    split; [|by eapply list_elem_of_lookup_2].
    unfold Resolver.final_name.
    by rewrite (first_member_unplanned _ _ _ _ _ _ _ Hs Hp Hfirst).
  - rewrite main_not_schema in Ho by done. by injection Ho as <-.
Qed.

Lemma unique_names_no_plan tostring fallback_suffix fuel root :
  NoDup (global_names root) →
  Resolver.build_plan tostring fallback_suffix fuel (Resolver.by_name root)
    = Some (Resolver.PlanState (list_to_set (Resolver.by_name root).*1) ∅ ∅).
Proof.
  intros Hnd. unfold Resolver.build_plan.
  assert (Forall (λ g : string * list Resolver.gdecl, length g.2 ≤ 1)
            (Resolver.by_name root)) as Hall.
  { apply Forall_forall. intros [k xs] [-> _]%elem_of_by_name. simpl.
    apply filter_key_length. by rewrite order_names. }
  generalize (Resolver.PlanState (list_to_set (Resolver.by_name root).*1) ∅ ∅).
  induction Hall as [|g gs Hg _ IH]; intros s; [done|].
  simpl. unfold Resolver.rename_group at 1. rewrite decide_True by done.
  simpl. apply IH.
Qed.

(** The first declaration of a name leaves the resolver as it came. *)
Lemma first_declaration_kept tostring fallback_suffix fuel dry root o (x : string) :
  Resolver.main tostring fallback_suffix fuel dry root = Some o →
  x ∈ global_names root →
  ∃ p d, Resolver.order root !! p = Some d ∧ Resolver.name_of d.2 = x ∧
    (∀ p' d', p' < p → Resolver.order root !! p' = Some d' →
       Resolver.name_of d'.2 ≠ x) ∧
    children root !! d.1 = Some d.2 ∧
    children (Resolver.tree o) !! d.1 = Some d.2.
Proof.
  intros Ho Hx. destruct (first_of_name _ _ Hx) as (p & d & Hp & <- & Hfirst).
  exists p, d. split; [done|]. split; [done|]. split; [done|].
  pose proof (list_elem_of_lookup_2 _ _ _ Hp) as Hd.
  destruct d as [i c]. apply elem_of_order in Hd as [Hc Hglob]. cbn [fst snd] in *.
  split; [done|].
  destruct (decide (tag root = Some (q "schema"))) as [Ht|Ht].
  - destruct (main_schema _ _ _ _ _ _ Ht Ho) as (s & Hs & -> & _).
    rewrite children_apply_renames, list_lookup_imap, Hc. simpl.
    unfold Resolver.rename_child.
    pose proof (first_member_unplanned _ _ _ _ _ p (i, c) Hs Hp Hfirst) as Hnone.
    simpl in Hnone. rewrite Hnone. by destruct (Resolver.is_global c).
  - rewrite main_not_schema in Ho by done. by injection Ho as <-.
Qed.

(** The global names of the finalizer's output: the names of the global
    declarations of the original, those of type definitions as the plan
    gives them. *)
Lemma finalizer_global_names original fixed out (n : string) :
  Finalize.written (Finalize.main original fixed) = Some out →
  n ∈ global_names out ↔
  ∃ ch m, ch ∈ children original ∧ tag_in ch GLOBAL_KINDS = true ∧
    get "name" ch = Some m ∧
    n = if tag_in ch Finalize.GLOBAL_DEFINITIONS
        then default m (Finalize.plan_of original fixed !! m) else m.
Proof.
  intros Hw. rewrite elem_of_global_names. split.
  - intros (c' & Hc' & Hk & Hn).
    apply list_elem_of_lookup in Hc' as [j Hj].
    assert (is_Some (children original !! j)) as [ch Hch].
    { apply lookup_lt_is_Some. apply lookup_lt_Some in Hj.
      rewrite (FinalizeFacts.main_written _ _ _ Hw) in Hj.
      by rewrite children_updated, length_fmap,
        FinalizeFacts.children_rename_definitions, length_fmap in Hj. }
    destruct (FinalizeFacts.main_child_name _ _ _ _ _ Hw Hch)
      as (c2 & Hj2 & Htag & Hname).
    assert (c2 = c') as -> by congruence.
    rewrite Hn in Hname. destruct (get "name" ch) as [m|] eqn:Em; [|done].
    injection Hname as ->. exists ch, m.
    split; [by eapply list_elem_of_lookup_2|]. split; [|done].
    revert Hk. unfold tag_in. by rewrite Htag.
  - intros (ch & m & Hch & Hk & Hm & ->).
    apply list_elem_of_lookup in Hch as [j Hj].
    destruct (FinalizeFacts.main_child_name _ _ _ _ _ Hw Hj)
      as (c' & Hj' & Htag & Hname).
    exists c'. split; [by eapply list_elem_of_lookup_2|]. split.
    + revert Hk. unfold tag_in. by rewrite Htag.
    + by rewrite Hname, Hm.
Qed.

(** C1, as amended. The resolver leaves every [type], [base] and [ref]
    attribute as it is, and a reference whose local name was a global name
    of the input names a global declaration of the output: the first
    declaration of that name in document order, which is left as it came,
    whatever its kind.  The global names of the finalizer's output are the
    names of the global declarations of the original, those of type
    definitions as the plan gives them.  After the finalizer every
    reference has the prefix it had; a reference whose local name is not a
    plan key has the value it had and, if its local name was a global name
    of the original, it is one of the output; an empty reference stays
    empty; and a non-empty reference whose local name is the name of a
    global complex or simple type of the original has a local name that is
    a global name of the output. *)
Theorem reference_integrity tostring fallback_suffix fuel dry root o
    original fixed out :
  (Resolver.main tostring fallback_suffix fuel dry root = Some o →
   ∀ k e a v, iter root !! k = Some e → a ∈ Resolver.REF_ATTRS →
     get a e = Some v →
     ∃ e', iter (Resolver.tree o) !! k = Some e' ∧ get a e' = Some v ∧
       ((split_qname v).2 ∈ global_names root →
        (split_qname v).2 ∈ global_names (Resolver.tree o) ∧
        ∃ p d, Resolver.order root !! p = Some d ∧
          Resolver.name_of d.2 = (split_qname v).2 ∧
          (∀ p' d', p' < p → Resolver.order root !! p' = Some d' →
             Resolver.name_of d'.2 ≠ (split_qname v).2) ∧
          children root !! d.1 = Some d.2 ∧
          children (Resolver.tree o) !! d.1 = Some d.2)) ∧
  (Finalize.written (Finalize.main original fixed) = Some out →
   (∀ n, n ∈ global_names out ↔
      ∃ ch m, ch ∈ children original ∧ tag_in ch GLOBAL_KINDS = true ∧
        get "name" ch = Some m ∧
        n = if tag_in ch Finalize.GLOBAL_DEFINITIONS
            then default m (Finalize.plan_of original fixed !! m) else m) ∧
   ∀ k e a v, iter original !! k = Some e → a ∈ Finalize.REF_ATTRS →
     get a e = Some v →
     ∃ e' v', iter out !! k = Some e' ∧ get a e' = Some v' ∧
       (split_qname v').1 = (split_qname v).1 ∧
       (Finalize.plan_of original fixed !! (split_qname v).2 = None →
          v' = v ∧
          ((split_qname v).2 ∈ global_names original →
           (split_qname v).2 ∈ global_names out)) ∧
       (v = "" → v' = "") ∧
       (v ≠ "" →
        (∃ ch, ch ∈ children original ∧
           tag_in ch Finalize.GLOBAL_DEFINITIONS = true ∧
           get "name" ch = Some (split_qname v).2) →
        (split_qname v').2 ∈ global_names out)).
Proof.
  split.
  - intros Ho k e a v Hk Ha Hv.
    destruct (references_kept _ _ _ _ _ _ _ _ _ Ho Hk Ha) as (e' & Hk' & Hget).
    exists e'. split; [done|]. split; [congruence|]. intros Hx.
    split; [by eapply resolver_keeps_names|].
    by eapply first_declaration_kept.
  - intros Hw. split; [intros n; by apply finalizer_global_names|].
    intros k e a v Hk Ha Hv.
    destruct (FinalizeFacts.main_node _ _ _ _ _ _ Hw Hk Ha) as (e' & Hk' & Hget).
    rewrite Hv in Hget. simpl in Hget.
    exists e', (Finalize.new_value (Finalize.plan_of original fixed) v).
    split; [done|]. split; [done|]. split; [|split; [|split]].
    + unfold Finalize.new_value. case_decide; [done|].
      destruct (Finalize.plan_of original fixed !! (split_qname v).2)
        as [new|] eqn:E; [|done].
      apply FinalizeFacts.lookup_rename_plan in E as [_ ->].
      by rewrite FinalizeFacts.split_qname_type.
    + intros Hnone. unfold Finalize.new_value. rewrite Hnone.
      split; [by case_decide|]. intros Hx.
      apply (finalizer_global_names _ _ _ _ Hw).
      apply elem_of_global_names in Hx as (ch & Hch & Hkind & Hname).
      exists ch, (split_qname v).2. split; [done|]. split; [done|].
      split; [done|]. rewrite Hnone.
      by destruct (tag_in ch Finalize.GLOBAL_DEFINITIONS).
    + intros ->. done.
    + intros Hne Hdecl.
      destruct (FinalizeFacts.type_reference_resolves _ _ _ _ _ _ _
                  Hw Hk Ha Hv Hne Hdecl) as (e2 & v2 & Hk2 & Hget2 & _ & Hres).
      assert (e2 = e') as -> by congruence.
      assert (v2 = Finalize.new_value (Finalize.plan_of original fixed) v)
        as -> by congruence.
      done.
Qed.

(** C9, as amended. The detector and the resolver exit with status 2,
    writing nothing, when the root is not a schema element, and with status
    0 when it is (the resolver whenever it ends, which it does with a
    pattern that gives different suffixes for different numbers); the
    finalizer does not look at the root and exits with status 0, and it
    writes its output exactly when it infers an ambiguous name. *)
Theorem exit_status_by_root sourceline tostring fallback_suffix json dry
    root fixed :
  (tag root ≠ Some (q "schema") →
   Detector.main sourceline json root
     = Detector.Outcome 2 Detector.RootNotSchema None ∧
   ∀ fuel, Resolver.main tostring fallback_suffix fuel dry root
     = Some (Resolver.Outcome 2 Resolver.RootNotSchema root None)) ∧
  (tag root = Some (q "schema") →
   Detector.exit_status (Detector.main sourceline json root) = 0%Z ∧
   (∀ fuel o, Resolver.main tostring fallback_suffix fuel dry root = Some o →
      Resolver.exit_status o = 0%Z) ∧
   (Inj (=) (=) fallback_suffix →
    ∃ fuel0 o, ∀ fuel, fuel0 ≤ fuel →
      Resolver.main tostring fallback_suffix fuel dry root = Some o)) ∧
  Finalize.exit_status (Finalize.main root fixed) = 0%Z ∧
  (is_Some (Finalize.written (Finalize.main root fixed)) ↔
   Finalize.ambiguous_names (Finalize.get_global_names root)
     (Finalize.get_global_names fixed) ≠ ∅).
Proof.
  split; [|split; [|split]].
  - intros Ht. split.
    + unfold Detector.main. by rewrite decide_False.
    + intros fuel. by apply main_not_schema.
  - intros Ht. split; [|split].
    + unfold Detector.main. by rewrite decide_True.
    + intros fuel o Ho. by destruct (main_schema _ _ _ _ _ _ Ht Ho) as (s & _ & _ & ? & _).
    + intros ?. by apply main_total.
  - unfold Finalize.main. case_decide; [done|].
    by destruct (Finalize.update_references _ _).
  - unfold Finalize.main. case_decide as He.
    + split; [by intros [? ?]|done].
    + destruct (Finalize.update_references _ _). simpl. split; [done|eauto].
Qed.

(** C10. On a schema document whose global names are pairwise distinct the
    detector finds no duplicate group; and the resolver, run on a document
    that it wrote, reports that there are no duplicates to fix, leaves the
    tree as it is and writes nothing. *)
Theorem idempotence sourceline json tostring fallback_suffix fuel dry
    root o out :
  (tag root = Some (q "schema") → NoDup (global_names root) →
   Detector.dupes sourceline root = [] ∧
   Detector.main sourceline json root
     = Detector.Outcome 0 Detector.NoDuplicatesFound
         (if json then Some [] else None)) ∧
  (Resolver.main tostring fallback_suffix fuel dry root = Some o →
   Resolver.written o = Some out →
   ∀ tostring' fallback_suffix' fuel' dry',
     Resolver.main tostring' fallback_suffix' fuel' dry' out
       = Some (Resolver.Outcome 0 Resolver.NoDuplicatesToFix out None)).
Proof.
  split.
  - intros Ht Hnd. pose proof (DetectorFacts.dupes_unique sourceline _ Hnd) as Hd.
    split; [done|]. unfold Detector.main. rewrite decide_True by done.
    by rewrite Hd.
  - intros Ho Hw tostring' fallback_suffix' fuel' dry'.
    destruct (decide (tag root = Some (q "schema"))) as [Ht|Ht];
      [|rewrite main_not_schema in Ho by done; by injection Ho as <-].
    destruct (main_schema _ _ _ _ _ _ Ht Ho)
      as (s & Hs & Htree & _ & [(_ & _ & Hw')|(_ & _ & Hw')]); [congruence|].
    rewrite Hw' in Hw. destruct dry; [done|]. injection Hw as <-.
    pose proof (names_unique _ _ _ _ _ Hs) as Hnd. rewrite <-Htree in Hnd.
    unfold Resolver.main. rewrite decide_True
      by (by rewrite Htree, tag_apply_renames).
    rewrite unique_names_no_plan by done. simpl. by rewrite decide_True.
Qed.

End Pipeline.

(** ** Runs on the sample documents *)

Module Runs.

Import Xml Xsd Samples.

(** The resolver on the sample with two types named [Foo] ends with
    pairwise distinct global names. *)
Lemma resolver_names_unique_witness :
  tag foo_original = Some (q "schema") ∧
  Resolver.main no_text Resolver.fallback_default 2 false foo_original
    = Some foo_resolved ∧
  NoDup (global_names (Resolver.tree foo_resolved)).
Proof.
  assert (tag foo_original = Some (q "schema")) as Ht by done.
  assert (Resolver.main no_text Resolver.fallback_default 2 false foo_original
          = Some foo_resolved) as Hrun by by vm_compute.
  split; [done|]. split; [done|].
  exact (proj1 (ResolverFacts.resolver_names_unique no_text
                  Resolver.fallback_default false foo_original Ht)
           2 foo_resolved Hrun).
Defined.

(** The same run reports no updated reference and keeps every reference. *)
Lemma resolver_references_unchanged_witness :
  Resolver.main no_text Resolver.fallback_default 2 false foo_original
    = Some foo_resolved ∧
  (∀ renames updates,
     Resolver.said foo_resolved = Resolver.Planned renames updates → updates = 0) ∧
  (∀ k e a, iter foo_original !! k = Some e → a ∈ Resolver.REF_ATTRS →
     ∃ e', iter (Resolver.tree foo_resolved) !! k = Some e' ∧ get a e' = get a e).
Proof.
  assert (Resolver.main no_text Resolver.fallback_default 2 false foo_original
          = Some foo_resolved) as Hrun by by vm_compute.
  split; [done|].
  exact (proj2 (ResolverFacts.resolver_references_unchanged no_text
                  Resolver.fallback_default 2 false foo_original foo_resolved
                  Hrun)).
Defined.

(** The third [Foo] of the sample with [Foo_x2] in it: position 3, and
    [Foo_x3] is taken by the second [Foo], so that it is planned as
    [Foo_x4]. *)
Lemma fallback_numbering_witness :
  Resolver.build_plan no_text Resolver.fallback_default 2
    (Resolver.by_name numbered_original) = Some numbered_plan ∧
  Resolver.renamed_members (Resolver.by_name numbered_original)
    = [("Foo", 2, (2, complex_type "Foo" []));
       ("Foo", 3, (3, complex_type "Foo" []))] ∧
  ∃ q N,
    Resolver.renamed_members (Resolver.by_name numbered_original) !! q
      = Some ("Foo", 3, (3, complex_type "Foo" [])) ∧
    Resolver.rename_plan numbered_plan !! 3
      = Some ("Foo", "Foo" +:+ Resolver.fallback_default N) ∧
    3 ≤ N ∧
    Resolver.taken_before (list_to_set (global_names numbered_original))
      (Resolver.rename_plan numbered_plan)
      (Resolver.renamed_members (Resolver.by_name numbered_original)) q
      ⊆ Resolver.chosen_names numbered_plan ∧
    ("Foo" +:+ Resolver.fallback_default N ∉
       Resolver.taken_before (list_to_set (global_names numbered_original))
         (Resolver.rename_plan numbered_plan)
         (Resolver.renamed_members (Resolver.by_name numbered_original)) q) ∧
    (∀ k, 3 ≤ k < N →
       "Foo" +:+ Resolver.fallback_default k ∈
         Resolver.taken_before (list_to_set (global_names numbered_original))
           (Resolver.rename_plan numbered_plan)
           (Resolver.renamed_members (Resolver.by_name numbered_original)) q).
Proof.
  assert (Resolver.build_plan no_text Resolver.fallback_default 2
            (Resolver.by_name numbered_original) = Some numbered_plan) as Hplan
    by by vm_compute.
  split; [done|]. split; [done|].
  refine (proj1 (ResolverFacts.fallback_numbering no_text
                   Resolver.fallback_default 2 numbered_original numbered_plan
                   "Foo"
                   [(0, complex_type "Foo" []); (2, complex_type "Foo" []);
                    (3, complex_type "Foo" [])]
                   2 (3, complex_type "Foo" [])
                   Hplan _ _ _ _)).
  - by left.
  - done.
  - lia.
  - by vm_compute.
Defined.

(** The first [Foo] of the sample is not planned and is left as it is. *)
Lemma canonical_first_member_witness :
  Resolver.main no_text Resolver.fallback_default 2 false foo_original
    = Some foo_resolved ∧
  Resolver.order foo_original !! 0 = Some (0, complex_type "Foo" []) ∧
  children (Resolver.tree foo_resolved) !! 0 = Some (complex_type "Foo" []) ∧
  get "name" (complex_type "Foo" []) = Some "Foo".
Proof.
  assert (Resolver.main no_text Resolver.fallback_default 2 false foo_original
          = Some foo_resolved) as Hrun by by vm_compute.
  assert (Resolver.order foo_original !! 0 = Some (0, complex_type "Foo" []))
    as Hfirst by done.
  split; [done|]. split; [done|].
  pose proof (ResolverFacts.canonical_first_member no_text
                Resolver.fallback_default 2 false foo_original foo_resolved
                0 (0, complex_type "Foo" []) Hrun Hfirst) as H.
  destruct H as (_ & Hchild & Hname & _).
  - intros p' d' Hlt. lia.
  - split; [exact Hchild|exact Hname].
Defined.

(** On the sample with two types named [Foo], the reference [tns:Foo] of
    the second node still names a global declaration after the resolver,
    and after the finalizer it is [tns:FooType], a global name of the
    output; the reference [xs:string], whose local name is no plan key, is
    left as it is. *)
Lemma reference_integrity_witness :
  Resolver.main no_text Resolver.fallback_default 2 false foo_original
    = Some foo_resolved ∧
  Finalize.written (Finalize.main foo_original foo_fixed) = Some foo_final ∧
  iter foo_original !! 2 = Some (element "a" "tns:Foo") ∧
  iter foo_original !! 5 = Some (element "c" "xs:string") ∧
  (∃ e', iter (Resolver.tree foo_resolved) !! 2 = Some e' ∧
     get "type" e' = Some "tns:Foo" ∧
     ((split_qname "tns:Foo").2 ∈ global_names foo_original →
      (split_qname "tns:Foo").2 ∈ global_names (Resolver.tree foo_resolved))) ∧
  (∃ e' v', iter foo_final !! 2 = Some e' ∧ get "type" e' = Some v' ∧
     (split_qname v').1 = (split_qname "tns:Foo").1 ∧
     (split_qname v').2 ∈ global_names foo_final) ∧
  (∃ e', iter foo_final !! 5 = Some e' ∧ get "type" e' = Some "xs:string").
Proof.
  assert (Resolver.main no_text Resolver.fallback_default 2 false foo_original
          = Some foo_resolved) as Hrun by by vm_compute.
  assert (Finalize.written (Finalize.main foo_original foo_fixed)
          = Some foo_final) as Hfin by by vm_compute.
  assert (iter foo_original !! 2 = Some (element "a" "tns:Foo")) as Hk by done.
  assert (iter foo_original !! 5 = Some (element "c" "xs:string")) as Hk5 by done.
  split; [done|]. split; [done|]. split; [done|]. split; [done|].
  destruct (Pipeline.reference_integrity no_text Resolver.fallback_default 2
              false foo_original foo_resolved foo_original foo_fixed foo_final)
    as [Hres Hfinal].
  destruct (Hfinal Hfin) as [_ Hrefs].
  split; [|split].
  - destruct (Hres Hrun 2 (element "a" "tns:Foo") "type" "tns:Foo")
      as (e' & He' & Hv & Hin); [done|by left|done|].
    exists e'. split; [done|]. split; [done|]. intros Hx. by apply Hin.
  - destruct (Hrefs 2 (element "a" "tns:Foo") "type" "tns:Foo")
      as (e' & v' & He' & Hv & Hpfx & _ & _ & Htype); [done|by left|done|].
    exists e', v'. split; [done|]. split; [done|]. split; [done|].
    apply Htype; [done|].
    exists (complex_type "Foo" []). split; [by left|]. by split.
  - destruct (Hrefs 5 (element "c" "xs:string") "type" "xs:string")
      as (e' & v' & He' & Hv & _ & Hkept & _); [done|by left|done|].
    exists e'. split; [done|]. destruct Hkept as [-> _]; [by vm_compute|done].
Defined.

(** C1 as stated fails on the finalizer: the reference [ref="Foo"] names a
    global element of the original, the plan renames [Foo] (no type bears
    the name, so no declaration is renamed), the reference is rewritten to
    [FooType], and no global declaration of the output has that name. *)
Lemma finalizer_dangling_reference :
  Finalize.written (Finalize.main ref_original ref_fixed) = Some ref_final ∧
  get "ref" <$> iter ref_original !! 4 = Some (Some "Foo") ∧
  "Foo" ∈ global_names ref_original ∧
  get "ref" <$> iter ref_final !! 4 = Some (Some "FooType") ∧
  "FooType" ∉ global_names ref_final.
Proof.
  split; [by vm_compute|]. split; [done|]. split; [by left|]. split; [done|].
  apply (bool_decide_unpack _). by vm_compute.
Qed.

(** C9 as stated fails on the finalizer: on a document whose root is not a
    schema element it exits with status 0 and writes its output. *)
Lemma finalizer_accepts_any_root :
  tag not_a_schema = Some "root" ∧
  bool_decide (tag not_a_schema = Some (q "schema")) = false ∧
  Finalize.exit_status (Finalize.main not_a_schema not_a_schema_fixed) = 0%Z ∧
  Finalize.written (Finalize.main not_a_schema not_a_schema_fixed)
    = Some not_a_schema_final.
Proof. by vm_compute. Qed.

(** The three exits: the detector and the resolver refuse a root that is
    not a schema element and accept the sample, and the finalizer exits
    with status 0. *)
Lemma exit_status_by_root_witness :
  (Detector.main (λ _, None) false not_a_schema
     = Detector.Outcome 2 Detector.RootNotSchema None ∧
   ∀ fuel, Resolver.main no_text Resolver.fallback_default fuel false not_a_schema
     = Some (Resolver.Outcome 2 Resolver.RootNotSchema not_a_schema None)) ∧
  (Detector.exit_status (Detector.main (λ _, None) false foo_original) = 0%Z ∧
   (∀ fuel o,
      Resolver.main no_text Resolver.fallback_default fuel false foo_original
        = Some o →
      Resolver.exit_status o = 0%Z) ∧
   ∃ fuel0 o, ∀ fuel, fuel0 ≤ fuel →
     Resolver.main no_text Resolver.fallback_default fuel false foo_original
       = Some o) ∧
  Finalize.exit_status (Finalize.main foo_original foo_fixed) = 0%Z ∧
  (is_Some (Finalize.written (Finalize.main foo_original foo_fixed)) ↔
   Finalize.ambiguous_names (Finalize.get_global_names foo_original)
     (Finalize.get_global_names foo_fixed) ≠ ∅).
Proof.
  destruct (Pipeline.exit_status_by_root (λ _, None) no_text
              Resolver.fallback_default false false not_a_schema
              not_a_schema_fixed) as (Hno & _ & _).
  destruct (Pipeline.exit_status_by_root (λ _, None) no_text
              Resolver.fallback_default false false foo_original foo_fixed)
    as (_ & Hyes & Hfin & Hwrites).
  split; [apply Hno; by vm_compute|].
  destruct Hyes as (Hdet & Hres & Hend); [done|].
  split; [|split; [exact Hfin|exact Hwrites]].
  split; [exact Hdet|]. split; [exact Hres|].
  apply Hend, PlanFacts.fallback_default_inj.
Defined.

(** The detector finds nothing on the resolved sample, and the resolver run
    on it again has nothing to fix. *)
Lemma idempotence_witness :
  (Detector.dupes (λ _, None) foo_fixed = [] ∧
   Detector.main (λ _, None) false foo_fixed
     = Detector.Outcome 0 Detector.NoDuplicatesFound None) ∧
  Resolver.main no_text Resolver.fallback_default 2 false foo_original
    = Some foo_resolved ∧
  ∀ tostring' fallback_suffix' fuel' dry',
    Resolver.main tostring' fallback_suffix' fuel' dry' foo_fixed
      = Some (Resolver.Outcome 0 Resolver.NoDuplicatesToFix foo_fixed None).
Proof.
  assert (Resolver.main no_text Resolver.fallback_default 2 false foo_original
          = Some foo_resolved) as Hrun by by vm_compute.
  destruct (Pipeline.idempotence (λ _, None) false no_text
              Resolver.fallback_default 2 false foo_fixed foo_resolved foo_fixed)
    as [Hdet _].
  destruct (Pipeline.idempotence (λ _, None) false no_text
              Resolver.fallback_default 2 false foo_original foo_resolved
              foo_fixed) as [_ Hres].
  split; [|split; [done|by apply Hres]].
  apply Hdet; [done|]. apply (bool_decide_unpack _). by vm_compute.
Defined.

(** The string operations on small inputs. *)
Example count_no_overlap : Py.count "aa" "aaaaa" = 2.
Proof. done. Qed.

Example lower_ascii : Py.lower "ReQuest>RQ<" = "request>rq<".
Proof. done. Qed.

Example split_head_first : Py.split_head "_x" "ab_x_x3" = "ab".
Proof. done. Qed.

Example split_qname_prefixed : split_qname "tns:a:b" = ("tns:", "a:b").
Proof. done. Qed.

Example fallback_default_2 : Resolver.fallback_default 2 = "_x2".
Proof. done. Qed.

(** Scenario 1: two complex types named [Address]. *)
Example detector_address :
  Detector.main (λ _, None) false
    (schema [complex_type "Address" []; complex_type "Address" []])
  = Detector.Outcome 0
      (Detector.DuplicateGroups 1 [("Address", 2, ["complexType"; "complexType"])])
      None.
Proof. by vm_compute. Qed.

Example resolver_address :
  Resolver.tree <$>
    Resolver.main no_text Resolver.fallback_default 1 false
      (schema [complex_type "Address" []; element "home" "Address";
               complex_type "Address" []])
  = Some (schema [complex_type "Address" []; element "home" "Address";
                  complex_type "Address_x2" []]).
Proof. by vm_compute. Qed.

(** Scenario 2: a subtree whose text says [RequestStatusCode] three times. *)
Example affinity_request :
  Resolver.guess_affinity
    (λ _, "RequestStatusCode RequestStatusCode RequestStatusCode")
    (complex_type "StatusCode" [])
  = Some "_Rq".
Proof. by vm_compute. Qed.

(** The resolver keeps the first declaration of a name whatever its kind:
    an element named [Foo] comes before a type named [Foo], the type is
    renamed, and the reference [type="Foo"] is left naming the element; no
    type definition of the output has the name. *)
Example resolver_keeps_first_of_any_kind :
  Resolver.tree <$>
    Resolver.main no_text Resolver.fallback_default 1 false mixed_original
  = Some mixed_fixed ∧
  get "type" <$> iter mixed_fixed !! 1 = Some (Some "Foo") ∧
  global_names mixed_fixed = ["Foo"; "Foo_x2"] ∧
  omap (λ ch, if tag_in ch Finalize.GLOBAL_DEFINITIONS
              then get "name" ch else None) (children mixed_fixed)
  = ["Foo_x2"].
Proof. split; [by vm_compute|done]. Qed.

(** An empty reference whose empty local name is a plan key is skipped while
    the types of that name are renamed: it named a global declaration of
    the original and names none of the output. *)
Example finalizer_empty_reference_dangles :
  Finalize.written (Finalize.main empty_original empty_fixed) = Some empty_final ∧
  get "type" <$> iter empty_original !! 2 = Some (Some "") ∧
  global_names empty_original = [""; "a"; ""] ∧
  get "type" <$> iter empty_final !! 2 = Some (Some "") ∧
  global_names empty_final = ["Type"; "a"; "Type"].
Proof. split; [by vm_compute|done]. Qed.

(** Three declarations that look the same, on lines 1, 2 and 3. *)
Example detector_lines :
  Detector.main (λ j, Some (S j)) true triple_original
  = Detector.Outcome 0
      (Detector.DuplicateGroups 1
         [("Foo", 3, ["complexType:1"; "complexType:2"; "complexType:3"])])
      (Some [("Foo", [Detector.Location "complexType" (Some 1);
                      Detector.Location "complexType" (Some 2);
                      Detector.Location "complexType" (Some 3)])]).
Proof. by vm_compute. Qed.

(** Scenario 4: identical global names, nothing to do. *)
Example finalizer_same_names :
  Finalize.main foo_original foo_original
  = Finalize.Outcome 0 Finalize.NoChangesNeeded None.
Proof. by vm_compute. Qed.

End Runs.

(** * More of the three programs *)

(** ** Tags and qualified names *)

Module NameFacts.

Import Py Xml Xsd PyFacts XmlFacts XsdFacts.

Lemma contains_false (sep s : string) :
  contains sep s = false ↔ partition sep s = None.
Proof. unfold contains. by destruct (partition sep s) as [[? ?]|]. Qed.

(** X1. The local name of a tag made by [q] is the name given to [q]: the
    schema namespace has no closing brace in it.  A tag without a closing
    brace is its own local name, and the local name of a tag in Clark
    notation is what follows the first closing brace. *)
Theorem localname_q (l : string) :
  Detector.localname (q l) = l ∧
  (∀ t, contains "}" t = false → Detector.localname t = t) ∧
  (∀ ns, contains "}" ns = false →
     Detector.localname ("{" +:+ ns +:+ "}" +:+ l) = l).
Proof.
  split; [reflexivity | split].
  - intros t Ht. unfold Detector.localname.
    apply contains_false in Ht. by rewrite Ht.
  - intros ns Hns. unfold Detector.localname.
    pose proof (partition_char_app "}" ("{" +:+ ns) ("}" +:+ l)) as H.
    rewrite app_assoc in H. rewrite H; [reflexivity |].
    apply contains_false in Hns.
    rewrite app_cons, app_nil_l. simpl. by rewrite Hns.
Qed.

(** X2. The split that both rewriting loops make of an attribute value:
    prefix and local name put together give the value back; a value without
    a colon has the empty prefix and is its own local name; and a value is
    split at its first colon, which stays with the prefix. *)
Theorem split_qname_spec (v : string) :
  (split_qname v).1 +:+ (split_qname v).2 = v ∧
  (contains ":" v = false → split_qname v = ("", v)) ∧
  (∀ p l, contains ":" p = false → split_qname (p +:+ ":" +:+ l) = (p +:+ ":", l)).
Proof.
  split; [apply split_qname_join | split].
  - intros Hv. unfold split_qname. apply contains_false in Hv. by rewrite Hv.
  - intros p l Hp. unfold split_qname.
    rewrite (partition_char_app ":" p (":" +:+ l)) by by apply contains_false.
    simpl. by rewrite app_nil_r.
Qed.

End NameFacts.

(** ** The detector's groups and report *)

Module DetectorRun.

Import Xml Xsd Detector XmlFacts XsdFacts DictFacts.

Lemma dict_get_keys {A} (k : string) (d : list (string * list A)) :
  Py.dict_get k d ≠ [] → k ∈ d.*1.
Proof.
  induction d as [|[k' xs] d IH]; simpl; [done|].
  case_decide as Hk; [subst; left | right; auto].
Qed.

Lemma count_le_1_NoDup (l : list string) :
  (∀ k, length (filter (λ n, n = k) l) ≤ 1) → NoDup l.
Proof.
  induction l as [|x l IH]; intros Hall; [constructor|].
  constructor.
  - intros Hin. specialize (Hall x). rewrite filter_cons, decide_True in Hall by done.
    simpl in Hall.
    assert (x ∈ filter (λ n, n = x) l) as Hx by by apply list_elem_of_filter.
    destruct (filter (λ n, n = x) l); [by apply elem_of_nil in Hx | simpl in Hall; lia].
  - apply IH. intros k. specialize (Hall k). rewrite filter_cons in Hall.
    case_decide; simpl in Hall; lia.
Qed.

Section Detect.

Variable sourceline : nat → option nat.

Local Abbreviation by_name := (by_name sourceline).
Local Abbreviation dupes := (dupes sourceline).
Local Abbreviation main := (main sourceline).

Lemma by_name_get (ds : list (nat * node)) (k : string) :
  Py.dict_get k (foldl (add_child sourceline) [] ds) =
    (λ d, Location (localname (default "" (tag d.2))) (sourceline d.1)) <$>
      filter (λ d : nat * node,
                tag_in d.2 GLOBAL_KINDS = true ∧ get "name" d.2 = Some k) ds.
Proof.
  induction ds as [|[j ch] ds IH] using rev_ind; [done|].
  rewrite foldl_snoc, filter_app, fmap_app, <-IH. unfold add_child at 1.
  rewrite filter_cons, filter_nil. cbn [fst snd].
  destruct (tag_in ch GLOBAL_KINDS) eqn:Et.
  - destruct (tag_in_is_Some _ _ Et) as [t Htag]. rewrite Htag.
    destruct (get "name" ch) as [n|] eqn:En.
    + rewrite dict_get_append. destruct (decide (k = n)) as [->|Hne].
      * rewrite decide_True by done. simpl. by rewrite Htag.
      * rewrite decide_False by (intros [_ ?]; congruence). by rewrite app_nil_r.
    + rewrite decide_False by (intros [_ ?]; congruence). by rewrite app_nil_r.
  - rewrite decide_False by (intros [? _]; congruence). by rewrite app_nil_r.
Qed.

Lemma by_name_keys_NoDup root : NoDup (by_name root).*1.
Proof. apply (DetectorFacts.by_name_spec sourceline (imap pair (children root))). Qed.

Lemma elem_of_dupes root k locs :
  (k, locs) ∈ dupes root ↔ Py.dict_get k (by_name root) = locs ∧ 1 < length locs.
Proof.
  unfold Detector.dupes. rewrite list_elem_of_filter. simpl.
  pose proof (by_name_keys_NoDup root) as Hkeys. split.
  - intros [Hlen Hin]. split; [|done]. by apply dict_get_elem_of.
  - intros [<- Hlen]. split; [done|]. apply elem_of_dict_get, dict_get_keys.
    intros E. rewrite E in Hlen. simpl in Hlen. lia.
Qed.

Lemma dupes_keys_NoDup root : NoDup (dupes root).*1.
Proof.
  pose proof (by_name_keys_NoDup root) as Hkeys. unfold Detector.dupes.
  revert Hkeys. generalize (Detector.by_name sourceline root).
  intros d. induction d as [|[k' xs] d IH]; [done|].
  rewrite fmap_cons, NoDup_cons. intros [Hk Hd]. rewrite filter_cons.
  case_decide; [|by apply IH]. rewrite fmap_cons. apply NoDup_cons. split; [|by apply IH].
  intros Hin. apply Hk. apply list_elem_of_fmap in Hin as [[k2 x2] [-> Hin]].
  apply list_elem_of_filter in Hin as [_ Hin]. apply list_elem_of_fmap. by exists (k2, x2).
Qed.

(** X3. The groups that the detector records: under each name, the kind and
    line of the global declarations of that name, in document order, each
    with the line of its own element; a group is reported exactly when it
    has more than one member, and no name is recorded or reported twice. *)
Theorem detector_groups root k :
  let declared :=
    (λ d, Location (localname (default "" (tag d.2))) (sourceline d.1)) <$>
      filter (λ d : nat * node,
                tag_in d.2 GLOBAL_KINDS = true ∧ get "name" d.2 = Some k)
        (imap pair (children root)) in
  Py.dict_get k (by_name root) = declared ∧
  (∀ locs, (k, locs) ∈ dupes root ↔ locs = declared ∧ 1 < length locs) ∧
  NoDup (by_name root).*1 ∧ NoDup (dupes root).*1.
Proof.
  simpl. split; [apply by_name_get|]. split.
  - intros locs. rewrite elem_of_dupes. unfold Detector.by_name.
    rewrite by_name_get. naive_solver.
  - split; [apply by_name_keys_NoDup|apply dupes_keys_NoDup].
Qed.

(** X4. Every kind that the detector records is [element], [complexType] or
    [simpleType]: the local name of one of the three global kinds. *)
Theorem detector_kinds root k locs it :
  (k, locs) ∈ by_name root → it ∈ locs →
  kind it ∈ ["element"; "complexType"; "simpleType"].
Proof.
  intros Hin Hit.
  pose proof (dict_get_elem_of _ _ _ (by_name_keys_NoDup root) Hin) as Hget.
  unfold Detector.by_name in Hget. rewrite by_name_get in Hget. subst locs.
  apply list_elem_of_fmap in Hit as [[j ch] [-> Hch]].
  apply list_elem_of_filter in Hch as [[Ht _] _]. cbn [fst snd] in *.
  unfold tag_in in Ht. destruct (tag ch) as [t|]; [|done].
  apply bool_decide_eq_true in Ht. simpl.
  unfold GLOBAL_KINDS in Ht. repeat (apply elem_of_cons in Ht as [->|Ht]);
    [| | |by apply elem_of_nil in Ht].
  all: change (localname _) with "element" || change (localname _) with "complexType"
         || change (localname _) with "simpleType"; set_solver.
Qed.

Lemma dupes_nil_iff root : dupes root = [] ↔ NoDup (global_names root).
Proof.
  split; [|apply DetectorFacts.dupes_unique].
  intros Hnil. apply count_le_1_NoDup. intros k.
  destruct (DetectorFacts.by_name_spec sourceline (imap pair (children root)))
    as [_ Hlen].
  rewrite DetectorFacts.imap_pair_snd in Hlen. simpl in Hlen.
  unfold global_names. rewrite <-Hlen.
  destruct (decide (1 < length (Py.dict_get k (by_name root)))) as [Hlt|Hle];
    [|unfold Detector.by_name in Hle; lia].
  assert ((k, Py.dict_get k (by_name root)) ∈ dupes root) as Hin
    by (by apply elem_of_dupes).
  rewrite Hnil in Hin. by apply elem_of_nil in Hin.
Qed.

Lemma summary_nil d : summary d = NoDuplicatesFound ↔ d = [].
Proof. unfold summary. case_decide; naive_solver. Qed.

Lemma detector_keys root (k : string) :
  k ∈ (by_name root).*1 ↔ k ∈ global_names root.
Proof.
  unfold Detector.by_name, global_names.
  rewrite <-(DetectorFacts.imap_pair_snd (children root)) at 2.
  induction (imap pair (children root)) as [|[j ch] ds IH] using rev_ind; [done|].
  rewrite foldl_snoc, fmap_app, omap_app, elem_of_app, <-IH. unfold add_child at 1.
  change Detector.GLOBAL_KINDS with Xsd.GLOBAL_KINDS.
  cbn [fmap list_fmap fst snd]. simpl omap.
  destruct (tag_in ch Xsd.GLOBAL_KINDS) eqn:Et.
  - destruct (tag_in_is_Some _ _ Et) as [t Htag]. rewrite Htag.
    destruct (get "name" ch) as [n|] eqn:En.
    + rewrite dict_append_keys. case_decide.
      * set_solver.
      * rewrite elem_of_app. set_solver.
    + set_solver.
  - set_solver.
Qed.

(** X5. The detector has no duplicate group, and on a schema document says
    that there is none, exactly when the global names of the document are
    pairwise distinct. *)
Theorem detector_silent_iff_unique json root :
  (dupes root = [] ↔ NoDup (global_names root)) ∧
  (tag root = Some (q "schema") →
   (said (main json root) = NoDuplicatesFound ↔ NoDup (global_names root))).
Proof.
  split; [apply dupes_nil_iff|]. intros Hroot. unfold Detector.main.
  rewrite decide_True by done. simpl. by rewrite summary_nil, dupes_nil_iff.
Qed.

Lemma le_fst_total : Total (λ x y : string * list location, String.le x.1 y.1).
Proof. intros x y. apply String.le_total. Qed.

Lemma le_fst_trans :
  Transitive (λ x y : string * list location, String.le x.1 y.1).
Proof. intros x y z. apply (transitivity (R := String.le)). Qed.

(** X6. The report of the detector on duplicates: it announces the number
    of groups, which is not zero, and has one line for each group; the lines
    come in the order of their names, no name twice, and each gives the
    size of its group, which is at least 2, and one entry for each member:
    the kind of the declaration, followed by a colon and the line of its own
    element when it has one that is not 0. *)
Theorem detector_summary_sorted json root n lines :
  said (main json root) = DuplicateGroups n lines →
  n = length (dupes root) ∧ n = length lines ∧ 0 < n ∧
  lines ≡ₚ (λ kv, (kv.1, length kv.2, loc_text <$> kv.2)) <$> dupes root ∧
  StronglySorted String.le lines.*1.*1 ∧ NoDup lines.*1.*1 ∧
  (∀ name cnt locs, (name, cnt, locs) ∈ lines → 1 < cnt ∧ cnt = length locs) ∧
  (∀ name cnt locs, (name, cnt, locs) ∈ lines →
     locs =
       (λ d : nat * node,
          match sourceline d.1 with
          | Some (S l) => localname (default "" (tag d.2)) +:+ ":" +:+ pretty (S l)
          | _ => localname (default "" (tag d.2))
          end) <$>
         filter (λ d : nat * node,
                   tag_in d.2 GLOBAL_KINDS = true ∧ get "name" d.2 = Some name)
           (imap pair (children root))).
Proof.
  unfold Detector.main. case_decide as Hroot; [|done]. simpl.
  unfold summary. case_decide as Hd; [done|]. intros [= <- <-].
  set (d := Detector.dupes sourceline root) in *.
  set (F := λ kv : string * list location, (kv.1, length kv.2, loc_text <$> kv.2)).
  assert (∀ l : list (string * list location), (F <$> l).*1.*1 = l.*1) as Hfst.
  { intros l. rewrite <-!list_fmap_compose. by apply list_fmap_ext. }
  pose proof (merge_sort_Permutation
    (λ x y : string * list location, String.le x.1 y.1) d) as Hperm.
  split; [done|]. split; [by rewrite length_fmap, Hperm|].
  split; [destruct d; [done | simpl; lia]|].
  split; [by rewrite Hperm|]. rewrite Hfst. split; [|split; [|split]].
  - apply (StronglySorted_fmap fst (λ x y, String.le x.1 y.1)); [done|].
    apply StronglySorted_merge_sort; [apply le_fst_trans|apply le_fst_total].
  - rewrite Hperm. apply dupes_keys_NoDup.
  - intros name cnt locs Hin.
    apply list_elem_of_fmap in Hin as [[k xs] [[= -> -> ->] Hin]].
    rewrite Hperm in Hin. apply list_elem_of_filter in Hin as [Hlen _].
    split; [done|]. simpl. by rewrite length_fmap.
  - intros name cnt locs Hin.
    apply list_elem_of_fmap in Hin as [[k xs] [[= -> -> ->] Hin]].
    rewrite Hperm in Hin. apply elem_of_dupes in Hin as [<- _].
    unfold Detector.by_name. rewrite by_name_get, <-list_fmap_compose.
    apply list_fmap_ext. intros _ [j ch] _. unfold loc_text. simpl.
    by destruct (sourceline j) as [[|l]|].
Qed.

End Detect.

End DetectorRun.

(** ** The resolver's plan, tree and output *)

Module ResolverRun.

Import Xml Xsd Resolver XmlFacts XsdFacts OrderFacts PlanFacts StepFacts TraceFacts
  ResolverFacts.

Lemma length_omap_filter {A B} (g : A → option B) (l : list A) :
  length (omap g l) = length (filter (λ x, is_Some (g x)) l).
Proof.
  induction l as [|x l IH]; [done|]. rewrite filter_cons.
  change (omap g (x :: l)) with (match g x with Some y => y :: omap g l | None => omap g l end).
  destruct (g x) eqn:E.
  - rewrite decide_True by done. simpl. by rewrite IH.
  - rewrite decide_False by (by intros [? ?]). done.
Qed.

(** In a list, the members that come after another member with the same key
    and the distinct keys add up to the length. *)
Lemma count_repeated {A} (f : A → string) (P : A → Prop)
    `{!∀ x, Decision (P x)} (l : list A) :
  (∀ p d, l !! p = Some d →
     (P d ↔ ∃ p' d', p' < p ∧ l !! p' = Some d' ∧ f d' = f d)) →
  length (filter P l) + size (list_to_set (f <$> l) : gset string) = length l.
Proof.
  induction l as [|x l IH] using rev_ind; intros HP; [done|].
  rewrite filter_app, fmap_app, list_to_set_app_L, !length_app. simpl.
  assert (length (filter P l) + size (list_to_set (f <$> l) : gset string) = length l)
    as IH'.
  { apply IH. intros p d Hp. rewrite (HP p d) by by apply lookup_app_l_Some.
    pose proof (lookup_lt_Some _ _ _ Hp) as Hlt.
    split; intros (p' & d' & Hlt' & Hp' & Hf); exists p', d'; split_and!; try done.
    - rewrite lookup_app_l in Hp' by lia. done.
    - by apply lookup_app_l_Some. }
  assert (P x ↔ f x ∈ (list_to_set (f <$> l) : gset string)) as HPx.
  { rewrite (HP (length l) x) by by apply list_lookup_middle.
    rewrite elem_of_list_to_set, list_elem_of_fmap. split.
    - intros (p' & d' & Hlt & Hp' & Hf). rewrite lookup_app_l in Hp' by lia.
      exists d'. split; [done|]. by eapply list_elem_of_lookup_2.
    - intros (d' & Hf & [p' Hp']%list_elem_of_lookup).
      pose proof (lookup_lt_Some _ _ _ Hp').
      exists p', d'. split_and!; [lia| by apply lookup_app_l_Some |done]. }
  rewrite filter_cons, filter_nil. destruct (decide (P x)) as [Hx|Hx].
  - apply HPx in Hx.
    assert (list_to_set (f <$> l) ∪ ({[f x]} ∪ ∅) =@{gset string} list_to_set (f <$> l))
      as -> by set_solver.
    simpl. lia.
  - rewrite HPx in Hx. rewrite size_union by set_solver.
    rewrite union_empty_r_L, size_singleton. simpl. lia.
Qed.

Section Run.

Variable tostring : node → string.
Variable fallback_suffix : nat → string.

Local Abbreviation rename_member := (rename_member tostring fallback_suffix).
Local Abbreviation rename_members := (rename_members tostring fallback_suffix).
Local Abbreviation rename_group := (rename_group tostring fallback_suffix).
Local Abbreviation rename_groups := (rename_groups tostring fallback_suffix).
Local Abbreviation build_plan := (build_plan tostring fallback_suffix).
Local Abbreviation main := (main tostring fallback_suffix).

(** *** Duplicates and the plan *)

Lemma plan_empty_iff fuel root s :
  build_plan fuel (by_name root) = Some s →
  rename_plan s = ∅ ↔ NoDup (global_names root).
Proof.
  intros Hs. split.
  - intros He. apply NoDup_alt.
    assert (∀ i j x, i < j → global_names root !! i = Some x →
              global_names root !! j = Some x → False) as Hlt.
    { intros i j x Hij. rewrite <-order_names, !list_lookup_fmap.
      intros (d' & Hi & Hd')%fmap_Some (d & Hj & Hd)%fmap_Some.
      destruct (later_member_planned _ _ _ _ _ _ _ _ _ Hs Hj Hi Hij) as [x' Hx'];
        [congruence|].
      rewrite He in Hx'. by rewrite lookup_empty in Hx'. }
    intros i j x Hi Hj. destruct (decide (i = j)) as [|Hne]; [done|].
    destruct (decide (i < j)); [by destruct (Hlt i j x)|].
    destruct (Hlt j i x); [lia|done..].
  - intros Hnd.
    rewrite (Pipeline.unique_names_no_plan tostring fallback_suffix fuel root Hnd) in Hs.
    by injection Hs as <-.
Qed.

Lemma guess_affinity_range e :
  guess_affinity tostring e = Some "_Rq" ∨ guess_affinity tostring e = Some "_Rs" ∨
  guess_affinity tostring e = None.
Proof.
  unfold guess_affinity. destruct (scores tostring e) as [rq rs].
  repeat case_decide; auto.
Qed.

Lemma resolver_child fuel dry root o s j :
  tag root = Some (q "schema") →
  main fuel dry root = Some o →
  build_plan fuel (by_name root) = Some s →
  children (tree o) !! j = rename_child (rename_plan s) j <$> children root !! j.
Proof.
  intros Ht Ho Hs. destruct (main_schema _ _ _ _ _ _ Ht Ho) as (s' & Hs' & Htree & _).
  assert (s' = s) as -> by congruence.
  by rewrite Htree, children_apply_renames, list_lookup_imap.
Qed.

Lemma plan_entry_child fuel root s j o n :
  build_plan fuel (by_name root) = Some s →
  rename_plan s !! j = Some (o, n) →
  ∃ ch, children root !! j = Some ch ∧ is_global ch = true ∧
    get "name" ch = Some o ∧ (n ∉ global_names root) ∧ n ≠ o.
Proof.
  intros Hs Hj.
  destruct (plan_entry_later _ _ _ _ _ _ _ _ Hs Hj)
    as (p & [j' ch] & p' & d' & Hp & Hid & Hn & _).
  simpl in *. subst j'.
  apply list_elem_of_lookup_2, elem_of_order in Hp as [Hch Hg].
  destruct (build_plan_spec _ _ _ _ _ Hs) as ((_ & Hin & _) & _ & _).
  destruct (Hin _ _ _ Hj) as [_ Hfresh].
  rewrite elem_of_list_to_set, (by_name_keys tostring) in Hfresh.
  apply is_global_spec in Hg as Hspec. destruct Hspec as [Hk Hname].
  exists ch. split_and!; [done|done|congruence|done|].
  intros ->. apply Hfresh. apply elem_of_global_names.
  exists ch. split_and!; [by eapply list_elem_of_lookup_2|done|congruence].
Qed.

Lemma plan_entry_shape fuel groups s j o n :
  build_plan fuel groups = Some s →
  rename_plan s !! j = Some (o, n) →
  ∃ sfx, n = o +:+ sfx ∧
    (sfx = "_Rq" ∨ sfx = "_Rs" ∨ ∃ N, 2 ≤ N ∧ sfx = fallback_suffix N).
Proof.
  intros (_ & HA & _)%build_plan_spec Hj.
  destruct (HA _ _ _ Hj) as (nodes & p & d & c & _ & _ & Hpos & _ & _ & _ & Hloop).
  apply bump_loop_spec in Hloop as [_ [-> | (_ & N & HN & Hr & _)]]; [|subst n].
  - eexists. split; [done|].
    destruct (guess_affinity_range d.2) as [-> | [-> | ->]]; simpl; [auto..|].
    right. right. exists (S p). split; [lia|done].
  - eexists. split; [done|]. right. right. exists N. split; [lia|done].
Qed.

Lemma main_dry fuel dry root :
  main fuel true root =
    (λ o, Outcome (exit_status o) (said o) (tree o) None) <$> main fuel dry root.
Proof.
  unfold Resolver.main. case_decide; [|done].
  destruct (Resolver.build_plan _ _ fuel (by_name root)) as [s|]; [|done]. simpl.
  case_decide; [done|]. by destruct (update_references _ _ _).
Qed.

(** X8. The output file is written exactly when the run is not a dry run
    and some global name is declared more than once; what is written is
    the tree of the run.  A document without duplicates is left as it is and
    nothing is written for it, and a dry run reports what the run would. *)
Theorem resolver_writes_iff fuel dry root o :
  tag root = Some (q "schema") →
  main fuel dry root = Some o →
  (written o = None ↔ dry = true ∨ NoDup (global_names root)) ∧
  (∀ w, written o = Some w → w = tree o) ∧
  (NoDup (global_names root) → tree o = root ∧ said o = NoDuplicatesToFix) ∧
  main fuel true root = Some (Outcome (exit_status o) (said o) (tree o) None).
Proof.
  intros Ht Ho.
  destruct (main_schema _ _ _ _ _ _ Ht Ho) as (s & Hs & Htree & _ & Hcases).
  pose proof (plan_empty_iff _ _ _ Hs) as Hiff.
  split_and!.
  - destruct Hcases as [(He & _ & ->)|(Hne & _ & ->)].
    + split; [|done]. intros _. right. by apply Hiff.
    + destruct dry; [naive_solver|]. split; [done|].
      intros [?|Hnd]; [done|]. by apply Hiff in Hnd.
  - intros w Hw. destruct Hcases as [(_ & _ & E)|(_ & _ & E)]; rewrite E in Hw; [done|].
    destruct dry; congruence.
  - intros Hnd. apply Hiff in Hnd.
    destruct Hcases as [(He & ? & _)|(Hne & _)]; [|done].
    by rewrite Htree, He, apply_renames_empty.
  - by rewrite (main_dry fuel dry), Ho.
Qed.

(** X9. A declaration that the resolver changes gets its old name followed
    by [_Rq], by [_Rs] or by the fallback pattern for some number from 2 on,
    and nothing else of it changes; the new name is the name of no global
    declaration of the input. *)
Theorem new_name_extends_old fuel dry root o j ch ch' :
  tag root = Some (q "schema") →
  main fuel dry root = Some o →
  children root !! j = Some ch →
  children (tree o) !! j = Some ch' →
  ch' ≠ ch →
  ∃ old sfx, get "name" ch = Some old ∧ ch' = set "name" (old +:+ sfx) ch ∧
    (sfx = "_Rq" ∨ sfx = "_Rs" ∨ ∃ N, 2 ≤ N ∧ sfx = fallback_suffix N) ∧
    (old +:+ sfx ∉ global_names root).
Proof.
  intros Ht Ho Hch Hch' Hne.
  destruct (main_schema _ _ _ _ _ _ Ht Ho) as (s & Hs & _).
  rewrite (resolver_child _ _ _ _ _ _ Ht Ho Hs), Hch in Hch'. injection Hch' as <-.
  destruct (rename_child_cases (rename_plan s) j ch)
    as [E|(old & new & Hg & Hj & E)]; [done|].
  destruct (plan_entry_child _ _ _ _ _ _ Hs Hj) as (ch0 & Hch0 & _ & Hname & Hfresh & _).
  assert (ch0 = ch) as -> by congruence.
  destruct (plan_entry_shape _ _ _ _ _ _ Hs Hj) as (sfx & -> & Hsfx).
  by exists old, sfx.
Qed.

(** X10. The resolver keeps the shape of the document: the root keeps its tag
    and attributes, it has as many children as before, and each child is
    either the child of the input or, for a global declaration, that child
    with its [name] attribute set. *)
Theorem resolver_keeps_structure fuel dry root o :
  main fuel dry root = Some o →
  tag (tree o) = tag root ∧ attrib (tree o) = attrib root ∧
  length (children (tree o)) = length (children root) ∧
  ∀ j ch, children root !! j = Some ch →
    children (tree o) !! j = Some ch ∨
    (is_global ch = true ∧
     ∃ new, children (tree o) !! j = Some (set "name" new ch) ∧
       (new ∉ global_names root)).
Proof.
  intros Ho. destruct (decide (tag root = Some (q "schema"))) as [Ht|Ht].
  - destruct (main_schema _ _ _ _ _ _ Ht Ho) as (s & Hs & Htree & _).
    split_and!.
    + by rewrite Htree, tag_apply_renames.
    + rewrite Htree. by destruct root.
    + by rewrite Htree, children_apply_renames, length_imap.
    + intros j ch Hch. rewrite (resolver_child _ _ _ _ _ _ Ht Ho Hs), Hch. simpl.
      destruct (rename_child_cases (rename_plan s) j ch)
        as [->|(old & new & Hg & Hj & ->)]; [by left|].
      right. split; [done|]. exists new. split; [done|].
      by destruct (plan_entry_child _ _ _ _ _ _ Hs Hj) as (_ & _ & _ & _ & ? & _).
  - rewrite main_not_schema in Ho by done. injection Ho as <-. simpl.
    split_and!; [done..|]. intros j ch Hch. by left.
Qed.

(** X11. The heuristic decides by the larger score alone: [_Rq] exactly
    when the request score is the larger one and at least 2, [_Rs] exactly
    when the response score is the larger one and at least 2, and nothing
    when the scores are equal or both below 2. *)
Theorem affinity_by_larger_score e :
  (guess_affinity tostring e = Some "_Rq" ↔
   (scores tostring e).2 < (scores tostring e).1 ∧ 2 ≤ (scores tostring e).1) ∧
  (guess_affinity tostring e = Some "_Rs" ↔
   (scores tostring e).1 < (scores tostring e).2 ∧ 2 ≤ (scores tostring e).2) ∧
  (guess_affinity tostring e = None ↔
   (scores tostring e).1 = (scores tostring e).2 ∨
   ((scores tostring e).1 ≤ 1 ∧ (scores tostring e).2 ≤ 1)).
Proof.
  unfold guess_affinity. destruct (scores tostring e) as [rq rs]. simpl.
  repeat case_decide; split_and!; split; intros; try done; try lia;
    try (split; lia); naive_solver lia.
Qed.

(** X12. A later member of a duplicate group for which the heuristic answers
    gets the old name followed by that answer when this name is free; when
    it is taken, the numbering starts after the member's 1-based position:
    the first number tried is its position plus one.  The names checked are
    those taken when the loop comes to the member: the global names of the
    document and the new names of the members named before it. *)
Theorem heuristic_name_or_next_number fuel root s name nodes p d hx :
  build_plan fuel (by_name root) = Some s →
  (name, nodes) ∈ by_name root →
  nodes !! p = Some d →
  0 < p →
  guess_affinity tostring d.2 = Some hx →
  ∃ q c,
    renamed_members (by_name root) !! q = Some (name, S p, d) ∧
    c = taken_before (list_to_set (global_names root)) (rename_plan s)
          (renamed_members (by_name root)) q ∧
    (∀ x, x ∈ global_names root → x ∈ c) ∧ c ⊆ chosen_names s ∧
    (((name +:+ hx ∉ c) ∧ rename_plan s !! d.1 = Some (name, name +:+ hx)) ∨
     ((name +:+ hx ∈ c) ∧ ∃ N, p + 2 ≤ N ∧
        rename_plan s !! d.1 = Some (name, name +:+ fallback_suffix N) ∧
        (name +:+ fallback_suffix N ∉ c) ∧
        ∀ k, p + 2 ≤ k < N → name +:+ fallback_suffix k ∈ c)).
Proof.
  intros Hs Hg Hp Hpos Hguess.
  pose proof (build_plan_trace _ _ _ _ _ Hs) as Htrace.
  pose proof (λ q, taken_before_chosen _ _ _ _ _ _ q Htrace) as Hsub.
  destruct Htrace as (_ & _ & He). cbn [chosen_names] in He, Hsub.
  destruct p as [|p]; [lia|].
  destruct (renamed_members_lookup root name nodes p d Hg Hp) as [q Hq].
  destruct (He _ _ _ _ Hq) as (n & Hn & Hb).
  rewrite Hguess in Hb. simpl in Hb.
  exists q, (taken_before (list_to_set (global_names root)) (rename_plan s)
               (renamed_members (by_name root)) q).
  split; [done|]. split; [done|]. split; [|split; [apply Hsub|]].
  { intros x Hx. unfold taken_before. apply elem_of_union_l.
    by apply elem_of_list_to_set. }
  apply bump_loop_spec in Hb as [Hr [Hn' | (Hin & N & HN & Hn' & Hk)]]; subst n.
  - by left.
  - right. split; [done|]. exists N. split; [lia|]. split; [done|]. split; [done|].
    intros k ?. apply Hk. lia.
Qed.

(** *** The renames that are printed *)

Lemma planned_zip (plan : gmap nat (string * string)) (g : nat → nat) (cs : list node) :
  (∀ i ch o n, cs !! i = Some ch → is_global ch = true →
     plan !! g i = Some (o, n) → get "name" ch = Some o ∧ n ≠ o) →
  omap (λ d : gdecl, plan !! d.1)
    (filter (λ d : gdecl, is_global d.2) (imap (λ i x, (g i, x)) cs))
  = omap (λ p : node * node,
            if decide (get "name" p.1 = get "name" p.2) then None
            else Some (name_of p.1, name_of p.2))
      (zip cs (imap (λ i, rename_child plan (g i)) cs)).
Proof.
  revert g. induction cs as [|c cs IH]; intros g Hplan; [done|].
  rewrite !imap_cons, filter_cons.
  change (zip (c :: cs) (?x :: ?l)) with ((c, x) :: zip cs l).
  assert (∀ (B : Type) (f : node * node → option B) x l,
    omap f (x :: l) = match f x with Some y => y :: omap f l | None => omap f l end)
    as Hcons by done.
  rewrite Hcons. simpl fst. simpl snd.
  specialize (IH (g ∘ S) (λ i, Hplan (S i))).
  destruct (is_global c) eqn:Eg.
  - rewrite decide_True by done.
    change (omap ?f (?x :: ?l)) with
      (match f x with Some y => y :: omap f l | None => omap f l end).
    simpl fst. destruct (plan !! g 0) as [[o n]|] eqn:Ep.
    + assert (rename_child plan (g 0) c = set "name" n c) as ->
        by (unfold rename_child; by rewrite Eg, Ep).
      destruct (Hplan 0 c o n eq_refl Eg Ep) as [Hname Hne].
      apply is_global_spec in Eg as [Hk _].
      unfold name_of. rewrite get_set_eq by by eapply tag_in_is_Some.
      rewrite Hname, decide_False by congruence. cbn [fst]. rewrite Ep.
      simpl default. f_equal. apply IH.
    + assert (rename_child plan (g 0) c = c) as ->
        by (unfold rename_child; by rewrite Eg, Ep).
      rewrite decide_True by done. cbn [fst]. rewrite Ep. apply IH.
  - rewrite decide_False by (by intros []).
    assert (rename_child plan (g 0) c = c) as ->
      by (unfold rename_child; by rewrite Eg).
    rewrite decide_True by done. apply IH.
Qed.

Lemma planned_renames_zip fuel root s :
  build_plan fuel (by_name root) = Some s →
  planned_renames (rename_plan s) root =
    omap (λ p : node * node,
            if decide (get "name" p.1 = get "name" p.2) then None
            else Some (name_of p.1, name_of p.2))
      (zip (children root) (children (apply_renames (rename_plan s) root))).
Proof.
  intros Hs. rewrite children_apply_renames. unfold planned_renames, order.
  apply (planned_zip (rename_plan s) id). intros i ch o n Hch Hg Hi.
  destruct (plan_entry_child _ _ _ _ _ _ Hs Hi) as (ch0 & Hch0 & _ & Hname & _ & Hne).
  simpl in Hch0. by assert (ch0 = ch) as -> by congruence.
Qed.

Lemma planned_renames_length fuel root s :
  build_plan fuel (by_name root) = Some s →
  length (planned_renames (rename_plan s) root)
    + size (list_to_set (global_names root) : gset string)
  = length (global_names root).
Proof.
  intros Hs. unfold planned_renames. rewrite length_omap_filter, <-order_names.
  rewrite length_fmap.
  apply (count_repeated (λ d : gdecl, name_of d.2)
           (λ d : gdecl, is_Some (rename_plan s !! d.1))).
  intros p d Hp. split.
  - intros [[old new] Hj].
    destruct (plan_entry_later _ _ _ _ _ _ _ _ Hs Hj)
      as (p2 & d2 & p' & d' & Hp2 & Hid & Hn2 & Hlt & Hp' & Hn').
    assert (d2 = d) as ->.
    { apply (order_id_inj root); [by eapply list_elem_of_lookup_2..|done]. }
    pose proof (NoDup_lookup _ _ _ _ (order_NoDup root) Hp Hp2) as ->.
    exists p', d'. split_and!; [done..|congruence].
  - intros (p' & d' & Hlt & Hp' & Hname).
    by eapply (later_member_planned _ _ _ _ _ p d p' d').
Qed.

(** X13. The renames that the resolver prints are, in document order, the
    old and the new name of the children of the root whose name the run
    changed; there is at least one, and together with the distinct global
    names they are as many as the global declarations. *)
Theorem planned_renames_are_changes fuel dry root o renames updates :
  main fuel dry root = Some o →
  said o = Planned renames updates →
  renames =
    omap (λ p : node * node,
            if decide (get "name" p.1 = get "name" p.2) then None
            else Some (name_of p.1, name_of p.2))
      (zip (children root) (children (tree o))) ∧
  renames ≠ [] ∧
  length renames + size (list_to_set (global_names root) : gset string)
    = length (global_names root).
Proof.
  intros Ho Hsaid. destruct (decide (tag root = Some (q "schema"))) as [Ht|Ht].
  2: { rewrite main_not_schema in Ho by done. by injection Ho as <-. }
  destruct (main_schema _ _ _ _ _ _ Ht Ho) as (s & Hs & Htree & _ & Hcases).
  destruct Hcases as [(_ & E & _)|(Hne & E & _)]; [congruence|].
  rewrite E in Hsaid. injection Hsaid as <- <-. split_and!.
  - rewrite Htree. by eapply planned_renames_zip.
  - intros Hnil. apply map_choose in Hne as (j & [old new] & Hj).
    destruct (plan_entry_later _ _ _ _ _ _ _ _ Hs Hj) as (p & d & _ & _ & Hp & Hid & _).
    assert ((old, new) ∈ planned_renames (rename_plan s) root) as Hin.
    { apply list_elem_of_omap. exists d. split; [by eapply list_elem_of_lookup_2|].
      by rewrite Hid. }
    rewrite Hnil in Hin. by apply elem_of_nil in Hin.
  - by eapply planned_renames_length.
Qed.

End Run.

End ResolverRun.

(** ** The finalizer's early exit, frame and count *)

Module FinalizeRun.

Import Xml Xsd Finalize XmlFacts XsdFacts FinalizeFacts.

Lemma infer_None (n : string) :
  infer n = None ↔ Py.contains "_x" n = false ∧ Py.contains "_R" n = false.
Proof.
  unfold infer. destruct (Py.contains "_x" n); [naive_solver|].
  destruct (Py.contains "_R" n); naive_solver.
Qed.

Lemma ambiguous_empty_iff (original fixed : node) :
  ambiguous_names (get_global_names original) (get_global_names fixed) = ∅ ↔
  ∀ n, n ∈ global_names fixed → n ∉ global_names original →
    Py.contains "_x" n = false ∧ Py.contains "_R" n = false.
Proof.
  split.
  - intros He n Hn Hno. apply infer_None.
    destruct (infer n) as [b|] eqn:E; [|done].
    assert (b ∈ ambiguous_names (get_global_names original) (get_global_names fixed))
      as Hb; [|by rewrite He in Hb].
    apply elem_of_ambiguous_names. exists n.
    rewrite !elem_of_get_global_names. by rewrite <-infer_inferred_base.
  - intros Hall. apply set_eq. intros b. rewrite elem_of_empty. split; [|done].
    intros (n & Hn & Hno & Hb)%elem_of_ambiguous_names.
    rewrite elem_of_get_global_names in Hn, Hno.
    apply infer_inferred_base in Hb. apply Hall, infer_None in Hn; [congruence|done].
Qed.

(** X14. The finalizer stops without writing exactly when no global name that
    the fixed document has and the original has not contains [_x] or [_R];
    then it says that no changes are needed. *)
Theorem finalizer_no_change_iff (original fixed : node) :
  (main original fixed = Outcome 0 NoChangesNeeded None ↔
   ∀ n, n ∈ global_names fixed → n ∉ global_names original →
     Py.contains "_x" n = false ∧ Py.contains "_R" n = false) ∧
  (written (main original fixed) = None ↔
   ∀ n, n ∈ global_names fixed → n ∉ global_names original →
     Py.contains "_x" n = false ∧ Py.contains "_R" n = false) ∧
  ((∀ n, n ∈ global_names fixed → n ∈ global_names original) →
   main original fixed = Outcome 0 NoChangesNeeded None).
Proof.
  rewrite <-ambiguous_empty_iff.
  assert (main original fixed = Outcome 0 NoChangesNeeded None ↔
          ambiguous_names (get_global_names original) (get_global_names fixed) = ∅)
    as Hmain.
  { unfold main. case_decide as He; [done|].
    destruct (update_references _ _) as [final cnt]. split; [done|]. intros; done. }
  assert (written (main original fixed) = None ↔
          ambiguous_names (get_global_names original) (get_global_names fixed) = ∅)
    as Hwritten.
  { unfold main. case_decide as He; [done|].
    destruct (update_references _ _) as [final cnt]. split; [done|]. intros; done. }
  split_and!; [done..|].
  intros Hsub. apply Hmain, ambiguous_empty_iff. intros n Hn Hno. by destruct Hno; auto.
Qed.

(** *** What the finalizer leaves alone *)

Lemma main_frame original fixed out :
  written (main original fixed) = Some out →
  Forall2 (λ e e', tag e' = tag e ∧
             ∀ a, a ∉ ["name"; "type"; "base"; "ref"] → get a e' = get a e)
    (iter original) (iter out).
Proof.
  intros ->%main_written. rewrite iter_updated. apply Forall2_fmap_r.
  eapply Forall2_impl; [apply iter_rename_definitions|].
  intros e e' [Htag Hattr]. split.
  - by rewrite tag_updated.
  - intros a Ha. rewrite get_updated_reference.
    rewrite decide_False by (unfold REF_ATTRS; set_solver).
    apply Hattr. set_solver.
Qed.

(** X15. The finalizer changes values of [name], [type], [base] and [ref]
    attributes and nothing else: the output has the nodes of the original
    in the same order, each with its tag and with every other attribute as
    it was. *)
Theorem finalizer_frame original fixed out :
  written (main original fixed) = Some out →
  length (iter out) = length (iter original) ∧
  Forall2 (λ e e', tag e' = tag e ∧
             ∀ a, a ∉ ["name"; "type"; "base"; "ref"] → get a e' = get a e)
    (iter original) (iter out).
Proof.
  intros Hw. pose proof (main_frame _ _ _ Hw) as HF.
  split; [symmetry; by eapply Forall2_length | done].
Qed.

(** *** The number of updates *)

(** A value that Part B rewrites: not empty, with a local name in the plan. *)
Local Abbreviation rewritten plan :=
  (λ v : string, v ≠ "" ∧ is_Some (plan !! (split_qname v).2)).

Lemma update_reference_count (plan : gmap string string) st a :
  (update_reference plan st a).2 =
    st.2 + length (filter (rewritten plan) (option_list (attr_get a st.1))).
Proof.
  unfold update_reference. destruct (attr_get a st.1) as [v|]; simpl; [|lia].
  rewrite filter_cons, filter_nil.
  destruct (decide (v = "")) as [->|Hv].
  - rewrite decide_False by naive_solver. simpl. lia.
  - destruct (split_qname v) as [pfx l] eqn:Es. simpl.
    destruct (plan !! l) as [new|] eqn:El; simpl.
    + rewrite decide_True by (split; [done|]; eauto). simpl. lia.
    + rewrite decide_False by (intros [_ [? ?]]; done). simpl. lia.
Qed.

Lemma update_element_count (plan : gmap string string) al :
  (update_element plan al).2 =
    length (filter (rewritten plan) (omap (λ a, attr_get a al) REF_ATTRS)).
Proof.
  unfold update_element, REF_ATTRS. simpl foldl.
  rewrite !update_reference_count, !update_reference_get. simpl fst. simpl snd.
  rewrite !decide_False by done.
  assert (∀ x y z : option string,
    omap id [x; y; z] = option_list x ++ option_list y ++ option_list z) as H3
    by (by intros [?|] [?|] [?|]).
  change (omap (λ a, attr_get a al) ["type"; "base"; "ref"])
    with (omap id [attr_get "type" al; attr_get "base" al; attr_get "ref" al]).
  rewrite H3, !filter_app, !length_app. lia.
Qed.

Lemma update_attribs_count (f : attrs → attrs * nat) (e : node) :
  (f []).2 = 0 →
  (update_attribs f e).2 = sum_list ((λ n, (f (attrib n)).2) <$> iter e).
Proof.
  intros Hnil. induction e as [t a x cs tl IH|x tl] using node_forall_ind.
  - rewrite update_attribs_element, iter_unfold. cbn [children attrib snd].
    rewrite fmap_cons. cbn [sum_list_with attrib id]. f_equal.
    induction IH as [|c cs Hc _ IHcs]; [done|].
    rewrite fmap_cons. cbn [flat_map sum_list_with id].
    rewrite fmap_app, sum_list_with_app. by rewrite Hc, IHcs.
  - simpl. by rewrite Hnil.
Qed.

Lemma sum_filter_bind {A} (P : string → Prop) `{!∀ v, Decision (P v)}
    (g : A → list string) (l : list A) :
  sum_list ((λ n, length (filter P (g n))) <$> l) = length (filter P (l ≫= g)).
Proof.
  induction l as [|n l IH]; [done|].
  rewrite fmap_cons, bind_cons, filter_app, length_app. simpl. by rewrite IH.
Qed.

(** X16. The number of updates that the finalizer reports is the number of
    [type], [base] and [ref] attributes of the original document whose value
    is not empty and has a local name that the plan renames. *)
Theorem finalizer_update_count original fixed ambiguous cnt :
  said (main original fixed) = Finalized ambiguous cnt →
  ambiguous = ambiguous_names (get_global_names original) (get_global_names fixed) ∧
  cnt = length (filter (λ v, v ≠ "" ∧
                          is_Some (plan_of original fixed !! (split_qname v).2))
                  (e ← iter original; omap (λ a, get a e) REF_ATTRS)).
Proof.
  unfold main. case_decide as He; [done|].
  destruct (update_references _ _) as [final n] eqn:E. cbn [said].
  intros [= <- <-]. split; [done|]. fold (plan_of original fixed) in E.
  assert (n = (update_attribs (update_element (plan_of original fixed))
                 (rename_definitions (plan_of original fixed) original)).2) as ->
    by (unfold update_references in E; by rewrite E).
  rewrite update_attribs_count by done.
  rewrite <-(sum_filter_bind (rewritten (plan_of original fixed))
               (λ e, omap (λ a, get a e) REF_ATTRS)).
  f_equal. pose proof (iter_rename_definitions (plan_of original fixed) original) as HF.
  induction HF as [|e e' l l' [_ Hattr] _ IH]; [done|].
  rewrite !fmap_cons, IH. f_equal. rewrite update_element_count.
  unfold REF_ATTRS. unfold get in Hattr. simpl omap.
  by rewrite !Hattr by done.
Qed.

(** *** Names that stay together *)

Lemma omap_sublist {A B} (f g : A → option B) (l : list A) :
  (∀ x, g x = None ∨ g x = f x) → omap g l `sublist_of` omap f l.
Proof.
  intros Hfg. induction l as [|x l IH]; [done|].
  change (omap g (x :: l)) with
    (match g x with Some y => y :: omap g l | None => omap g l end).
  change (omap f (x :: l)) with
    (match f x with Some y => y :: omap f l | None => omap f l end).
  destruct (Hfg x) as [->| ->].
  - destruct (f x); [by apply sublist_cons|done].
  - destruct (f x); [by apply sublist_skip|done].
Qed.

Lemma omap_fmap_l {A B C} (f : B → option C) (g : A → B) (l : list A) :
  omap f (g <$> l) = omap (λ x, f (g x)) l.
Proof.
  induction l as [|x l IH]; [done|]. rewrite fmap_cons.
  change (omap f (g x :: (g <$> l))) with
    (match f (g x) with Some y => y :: omap f (g <$> l) | None => omap f (g <$> l) end).
  by rewrite IH.
Qed.

Lemma main_definition_names original fixed out :
  written (main original fixed) = Some out →
  (λ n, default n (plan_of original fixed !! n)) <$>
    omap (λ ch, if tag_in ch GLOBAL_DEFINITIONS then get "name" ch else None)
      (children original)
  `sublist_of` global_names out.
Proof.
  intros ->%main_written. unfold global_names.
  rewrite children_updated, children_rename_definitions.
  set (plan := plan_of original fixed).
  rewrite !omap_fmap_l, list_fmap_omap. apply omap_sublist. intros ch.
  destruct (tag_in ch GLOBAL_DEFINITIONS) eqn:Ed; [right|by left].
  rewrite tag_in_updated.
  rewrite (tag_in_renamed_only ch) by apply rename_definition_related.
  rewrite (tag_in_definitions_kinds _ Ed).
  rewrite get_updated_reference, decide_False by apply name_not_reference.
  by rewrite rename_definition_name, Ed.
Qed.

(** X17. The finalizer renames by name, not by declaration: two children of
    the root that are both type definitions, or both not, and carry the same
    name in the original carry the same name in the output.  So type
    definitions that collide in the original collide in the output. *)
Theorem finalizer_keeps_collisions original fixed out :
  written (main original fixed) = Some out →
  (∀ j j' ch ch', children original !! j = Some ch →
     children original !! j' = Some ch' →
     tag_in ch GLOBAL_DEFINITIONS = tag_in ch' GLOBAL_DEFINITIONS →
     get "name" ch = get "name" ch' →
     ∃ c c', children out !! j = Some c ∧ children out !! j' = Some c' ∧
       get "name" c = get "name" c') ∧
  (NoDup (global_names out) →
   NoDup (omap (λ ch, if tag_in ch GLOBAL_DEFINITIONS then get "name" ch else None)
            (children original))).
Proof.
  intros Hw. split.
  - intros j j' ch ch' Hj Hj' Hkind Hname.
    destruct (main_child_name _ _ _ _ _ Hw Hj) as (c & Hc & _ & Hn).
    destruct (main_child_name _ _ _ _ _ Hw Hj') as (c' & Hc' & _ & Hn').
    exists c, c'. split_and!; [done..|]. by rewrite Hn, Hn', Hkind, Hname.
  - intros Hnd. eapply NoDup_fmap_1, sublist_NoDup; [done|].
    by apply main_definition_names.
Qed.

End FinalizeRun.

(** ** The programs on one document *)

Module PipelineRun.

Import Xml Xsd XmlFacts XsdFacts OrderFacts PlanFacts StepFacts ResolverFacts.
Import PyFacts NameFacts.

(** *** Names with a suffix *)

Lemma partition_None_inv (sep : string) (c : ascii) (s : string) :
  Py.partition sep (String c s) = None →
  Py.startswith sep (String c s) = false ∧ Py.partition sep s = None.
Proof.
  cbn [Py.partition]. destruct (Py.startswith sep (String c s)); [done|].
  by destruct (Py.partition sep s) as [[? ?]|].
Qed.

Lemma startswith_two_boundary (a b c : ascii) (o t : string) :
  a ≠ b →
  Py.startswith (String a (String b "")) (String c o) = false →
  Py.startswith (String a (String b "")) (String c (o +:+ String a t)) = false.
Proof.
  intros Hab. cbn [Py.startswith]. destruct (Ascii.eqb a c); [|done].
  destruct o as [|d o]; [|done]. intros _. rewrite app_nil_l.
  destruct (Ascii.eqb b a) eqn:E; [|done]. apply Ascii.eqb_eq in E. congruence.
Qed.

Lemma partition_two_app (a b : ascii) (o r : string) :
  a ≠ b →
  Py.partition (String a (String b "")) o = None →
  Py.partition (String a (String b "")) (o +:+ String a (String b r)) = Some (o, r).
Proof.
  intros Hab. induction o as [|c o IH]; intros Ho.
  - rewrite app_nil_l. cbn [Py.partition Py.startswith].
    by rewrite !Ascii.eqb_refl.
  - apply partition_None_inv in Ho as [Hs Ho]. rewrite app_cons.
    cbn [Py.partition]. rewrite (startswith_two_boundary a b c o _ Hab Hs).
    by rewrite (IH Ho).
Qed.

Lemma partition_two_app_None (a b : ascii) (o t : string) :
  a ≠ b →
  Py.partition (String a (String b "")) o = None →
  Py.partition (String a (String b "")) (String a t) = None →
  Py.partition (String a (String b "")) (o +:+ String a t) = None.
Proof.
  intros Hab. induction o as [|c o IH]; intros Ho Ht.
  - by rewrite app_nil_l.
  - apply partition_None_inv in Ho as [Hs Ho]. rewrite app_cons.
    cbn [Py.partition]. rewrite (startswith_two_boundary a b c o _ Hab Hs).
    by rewrite (IH Ho Ht).
Qed.

(** The finalizer reads the old name off a name that the resolver made,
    when the old name has neither [_x] nor [_R] in it. *)
Lemma infer_resolved (o sfx : string) :
  Py.contains "_x" o = false → Py.contains "_R" o = false →
  (sfx = "_Rq" ∨ sfx = "_Rs" ∨ ∃ N, sfx = Resolver.fallback_default N) →
  Finalize.infer (o +:+ sfx) = Some o.
Proof.
  intros Hx%contains_false HR%contains_false Hsfx. unfold Finalize.infer.
  assert ("_"%char ≠ "x"%char) as Hne1 by done.
  assert ("_"%char ≠ "R"%char) as Hne2 by done.
  destruct Hsfx as [-> | [-> | [N ->]]].
  - assert (Py.contains "_x" (o +:+ "_Rq") = false) as ->
      by (apply contains_false; by apply partition_two_app_None).
    unfold Py.contains, Py.split_head.
    by rewrite (partition_two_app "_" "R" o "q" Hne2 HR).
  - assert (Py.contains "_x" (o +:+ "_Rs") = false) as ->
      by (apply contains_false; by apply partition_two_app_None).
    unfold Py.contains, Py.split_head.
    by rewrite (partition_two_app "_" "R" o "s" Hne2 HR).
  - unfold Resolver.fallback_default, Py.contains, Py.split_head.
    change ("_x" +:+ pretty N) with (String "_" (String "x" (pretty N))).
    by rewrite (partition_two_app "_" "x" o (pretty N) Hne1 Hx).
Qed.

(** *** The three programs on one document *)

(** X18. The three programs agree on what a global name is: the set that the
    finalizer collects holds the [name] of every child of the root that is
    an element, a complex type or a simple type, and it is the set of keys of
    the detector's and of the resolver's [by_name]. *)
Theorem programs_agree_on_global_names sourceline root (n : string) :
  (n ∈ Finalize.get_global_names root ↔
   ∃ ch, ch ∈ children root ∧ tag_in ch Finalize.GLOBAL_COMPONENTS = true ∧
     get "name" ch = Some n) ∧
  Finalize.get_global_names root
    = list_to_set (Detector.by_name sourceline root).*1 ∧
  Finalize.get_global_names root = list_to_set (Resolver.by_name root).*1.
Proof.
  split_and!.
  - rewrite FinalizeFacts.elem_of_get_global_names. apply elem_of_global_names.
  - apply set_eq. intros k.
    rewrite FinalizeFacts.elem_of_get_global_names, elem_of_list_to_set.
    symmetry. apply DetectorRun.detector_keys.
  - apply set_eq. intros k.
    rewrite FinalizeFacts.elem_of_get_global_names, elem_of_list_to_set.
    symmetry. apply (by_name_keys (λ _, "")).
Qed.

(** X19. On a schema document the detector finds no duplicate exactly when
    the resolver finds none to fix. *)
Theorem detector_resolver_agree sourceline tostring fallback_suffix json fuel dry
    root o :
  tag root = Some (q "schema") →
  Resolver.main tostring fallback_suffix fuel dry root = Some o →
  (Detector.said (Detector.main sourceline json root) = Detector.NoDuplicatesFound ↔
   Resolver.said o = Resolver.NoDuplicatesToFix).
Proof.
  intros Ht Ho.
  destruct (main_schema _ _ _ _ _ _ Ht Ho) as (s & Hs & _ & _ & Hcases).
  pose proof (ResolverRun.plan_empty_iff _ _ _ _ _ Hs) as Hplan.
  unfold Detector.main. rewrite decide_True by done. cbn [Detector.said].
  rewrite DetectorRun.summary_nil, DetectorRun.dupes_nil_iff, <-Hplan.
  destruct Hcases as [(He & -> & _)|(Hne & -> & _)]; naive_solver.
Qed.

(** X20. The finalizer after the resolver, under the default pattern: on a
    schema document whose global names have neither [_x] nor [_R] in them,
    the names that the finalizer infers from the resolver's output are
    the global names that the document declares more than once. *)
Theorem finalizer_recovers_duplicated_names tostring fuel dry root o (b : string) :
  tag root = Some (q "schema") →
  Resolver.main tostring Resolver.fallback_default fuel dry root = Some o →
  Forall (λ n, Py.contains "_x" n = false ∧ Py.contains "_R" n = false)
    (global_names root) →
  b ∈ Finalize.ambiguous_names (Finalize.get_global_names root)
        (Finalize.get_global_names (Resolver.tree o)) ↔
  ∃ i j, i < j ∧ global_names root !! i = Some b ∧ global_names root !! j = Some b.
Proof.
  intros Ht Ho Hclean. rewrite Forall_forall in Hclean.
  destruct (main_schema _ _ _ _ _ _ Ht Ho) as (s & Hs & Htree & _).
  rewrite FinalizeFacts.elem_of_ambiguous_names.
  setoid_rewrite FinalizeFacts.elem_of_get_global_names.
  setoid_rewrite <-FinalizeFacts.infer_inferred_base.
  rewrite Htree, global_names_apply_renames. split.
  - intros (n & Hn & Hfresh & Hinf).
    apply list_elem_of_fmap in Hn as (d & -> & Hd). unfold Resolver.final_name in *.
    destruct (Resolver.rename_plan s !! d.1) as [[old new]|] eqn:Hj.
    + destruct (plan_entry_later _ _ _ _ _ _ _ _ Hs Hj)
        as (p & d2 & p' & d' & Hp & _ & Hn2 & Hlt & Hp' & Hn').
      destruct (ResolverRun.plan_entry_shape _ _ _ _ _ _ _ _ Hs Hj) as (sfx & -> & Hsfx).
      assert (global_names root !! p = Some old) as Hgp
        by (rewrite <-order_names, list_lookup_fmap; apply fmap_Some; by exists d2).
      assert (global_names root !! p' = Some old) as Hgp'
        by (rewrite <-order_names, list_lookup_fmap; apply fmap_Some; by exists d').
      destruct (Hclean old) as [Hx HR]; [by eapply list_elem_of_lookup_2|].
      rewrite (infer_resolved old sfx Hx HR) in Hinf by naive_solver.
      injection Hinf as <-. by exists p', p.
    + destruct Hfresh. rewrite <-order_names. apply list_elem_of_fmap. by exists d.
  - intros (i & j & Hij & Hi & Hj).
    rewrite <-order_names, list_lookup_fmap in Hi, Hj.
    apply fmap_Some in Hi as (d' & Hi & Hd'), Hj as (d & Hj & Hd).
    destruct (later_member_planned _ _ _ _ _ _ _ _ _ Hs Hj Hi Hij) as [[old new] Hp];
      [congruence|].
    destruct (ResolverRun.plan_entry_child _ _ _ _ _ _ _ _ Hs Hp)
      as (ch & Hch & _ & Hname & Hfresh & _).
    destruct d as [jd chd].
    apply list_elem_of_lookup_2 in Hj as Hd2. apply elem_of_order in Hd2 as [Hchd _].
    cbn [fst snd] in *.
    assert (chd = ch) as -> by congruence.
    assert (old = b) as ->.
    { rewrite Hd. unfold Resolver.name_of. by rewrite Hname. }
    destruct (ResolverRun.plan_entry_shape _ _ _ _ _ _ _ _ Hs Hp) as (sfx & -> & Hsfx).
    exists (b +:+ sfx). split_and!.
    + apply list_elem_of_fmap. exists (jd, ch).
      split; [|by eapply list_elem_of_lookup_2].
      unfold Resolver.final_name. simpl. by rewrite Hp.
    + done.
    + destruct (Hclean b) as [Hx HR].
      { rewrite <-order_names. apply list_elem_of_fmap. exists d'.
        split; [done|]. by eapply list_elem_of_lookup_2. }
      apply infer_resolved; [done..|naive_solver].
Qed.

End PipelineRun.

(** ** The resolver's loop and its canonical names *)

Module LoopFacts.

Import Xml Xsd Resolver XmlFacts XsdFacts OrderFacts PlanFacts StepFacts ResolverFacts.

Section Loop.

Variable tostring : node → string.
Variable fallback_suffix : nat → string.

Local Abbreviation bump_loop := (bump_loop fallback_suffix).
Local Abbreviation rename_member := (rename_member tostring fallback_suffix).
Local Abbreviation rename_members := (rename_members tostring fallback_suffix).
Local Abbreviation rename_group := (rename_group tostring fallback_suffix).
Local Abbreviation rename_groups := (rename_groups tostring fallback_suffix).
Local Abbreviation build_plan := (build_plan tostring fallback_suffix).
Local Abbreviation main := (main tostring fallback_suffix).

(** *** A pattern without a number *)

Lemma bump_loop_stuck fuel name chosen new b :
  (∀ k, name +:+ fallback_suffix k ∈ chosen) → new ∈ chosen →
  bump_loop fuel name chosen new b = None.
Proof.
  intros Hall. revert new b. induction fuel as [|fuel IH]; intros new b Hnew; simpl.
  - by rewrite decide_True.
  - rewrite decide_True by done. by apply IH.
Qed.

Lemma rename_members_stuck c fuel name d0 d1 d2 rest s :
  (∀ n, fallback_suffix n = c) →
  guess_affinity tostring d1.2 = None →
  guess_affinity tostring d2.2 = None →
  rename_members fuel name 1 (d0 :: d1 :: d2 :: rest) s = None.
Proof.
  intros Hc H1 H2. cbn [Resolver.rename_members].
  assert (rename_member fuel name 1 d0 s = Some s) as ->
    by (unfold Resolver.rename_member; by rewrite decide_True).
  cbn [mbind option_bind].
  destruct (rename_member fuel name 2 d1 s) as [s1|] eqn:E1; [|done].
  cbn [mbind option_bind].
  apply rename_member_cases in E1 as [[? _]|(_ & new & Hb & ->)]; [done|].
  rewrite H1 in Hb. cbn [default] in Hb. rewrite Hc in Hb.
  assert (new = name +:+ c) as ->.
  { apply bump_loop_spec in Hb as [_ [-> | (_ & N & _ & -> & _)]]; [done|].
    by rewrite Hc. }
  assert (rename_member fuel name 3 d2
            (PlanState ({[name +:+ c]} ∪ chosen_names s)
               (<[d1.1 := (name, name +:+ c)]> (rename_plan s))
               (canonical_name s)) = None) as ->; [|done].
  unfold Resolver.rename_member. rewrite decide_False by done.
  rewrite H2. cbn [default chosen_names]. rewrite Hc.
  rewrite bump_loop_stuck; [done| |set_solver].
  intros k. rewrite Hc. set_solver.
Qed.

Lemma rename_groups_stuck c fuel groups name nodes d1 d2 :
  (∀ n, fallback_suffix n = c) →
  (name, nodes) ∈ groups →
  nodes !! 1 = Some d1 → nodes !! 2 = Some d2 →
  guess_affinity tostring d1.2 = None →
  guess_affinity tostring d2.2 = None →
  ∀ s, rename_groups fuel groups s = None.
Proof.
  intros Hc Hin Hd1 Hd2 H1 H2.
  induction groups as [|g groups IH]; intros s; [by apply elem_of_nil in Hin|].
  cbn [Resolver.rename_groups].
  apply elem_of_cons in Hin as [<-|Hin].
  - unfold Resolver.rename_group.
    destruct nodes as [|d0 [|d1' [|d2' rest]]]; try done.
    injection Hd1 as ->. injection Hd2 as ->.
    rewrite decide_False by (simpl; lia). cbn [fst snd].
    by rewrite (rename_members_stuck c).
  - destruct (rename_group fuel g s) as [s'|]; [|done].
    cbn [mbind option_bind]. by apply IH.
Qed.

(** X21. With a fallback pattern that does not mention the number, the
    resolver never gets past a group with two later members whose affinity
    is undetermined: the second of them is given a name that is taken, and
    every further candidate is that same name. *)
Theorem constant_pattern_never_ends c fuel dry root name nodes d1 d2 :
  tag root = Some (q "schema") →
  (∀ n, fallback_suffix n = c) →
  (name, nodes) ∈ by_name root →
  nodes !! 1 = Some d1 → nodes !! 2 = Some d2 →
  guess_affinity tostring d1.2 = None →
  guess_affinity tostring d2.2 = None →
  main fuel dry root = None.
Proof.
  intros Ht Hc Hin Hd1 Hd2 H1 H2. unfold Resolver.main.
  rewrite decide_True by done. unfold Resolver.build_plan.
  by rewrite (rename_groups_stuck c _ _ _ _ _ _ Hc Hin Hd1 Hd2 H1 H2).
Qed.

(** *** The names that step 4 looks for *)

Lemma elem_of_changed_groups (plan : gmap nat (string * string)) (k : string) :
  k ∈ changed_groups plan ↔ ∃ j new, plan !! j = Some (k, new).
Proof.
  unfold changed_groups. rewrite elem_of_list_to_set, list_elem_of_fmap. split.
  - intros ([j [old new]] & -> & Hin%elem_of_map_to_list). by exists j, new.
  - intros (j & new & Hj). exists (j, (k, new)). split; [done|].
    by apply elem_of_map_to_list.
Qed.

Lemma rename_groups_canonical fuel groups :
  ∀ s s', rename_groups fuel groups s = Some s' →
    ∀ k, is_Some (canonical_name s' !! k) ↔
      is_Some (canonical_name s !! k) ∨
      ∃ nodes, (k, nodes) ∈ groups ∧ 1 < length nodes.
Proof.
  induction groups as [|g groups IH]; intros s s' Hs k.
  - injection Hs as <-. split; [by left|]. intros [?|(nodes & Hin & _)]; [done|].
    by apply elem_of_nil in Hin.
  - cbn [Resolver.rename_groups] in Hs.
    destruct (rename_group fuel g s) as [s1|] eqn:Eg; [|done].
    cbn [mbind option_bind] in Hs. rewrite (IH _ _ Hs k).
    assert (is_Some (canonical_name s1 !! k) ↔
            is_Some (canonical_name s !! k) ∨ (k = g.1 ∧ 1 < length g.2)) as ->.
    { apply rename_group_cases in Eg as [[Hle ->]|[Hlt Hm]].
      - split; [by left|]. intros [?|[_ ?]]; [done|lia].
      - destruct (rename_members_spec tostring fallback_suffix ∅ _ _ _ _ _ _ Hm)
          as (_ & _ & _ & _ & -> & _).
        cbn [canonical_name]. destruct (decide (k = g.1)) as [->|Hne].
        + rewrite lookup_insert_eq. split; [by right|eauto].
        + rewrite lookup_insert_ne by done. split; [by left|].
          by intros [?|[? _]]. }
    setoid_rewrite elem_of_cons. destruct g as [kg ng]. cbn [fst snd]. split.
    + intros [[?|[-> ?]]|(nodes & ? & ?)]; [by left|right..]; eauto.
    + intros [?|(nodes & [[= -> ->]|?] & ?)]; [by left; left|by left; right|].
      right. eauto.
Qed.

Lemma two_members {A} (l : list A) (x y : A) :
  x ≠ y → x ∈ l → y ∈ l → 1 < length l.
Proof.
  intros Hne Hx Hy. destruct l as [|a [|b l]]; simpl; [by apply elem_of_nil in Hx| |lia].
  apply list_elem_of_singleton in Hx, Hy. congruence.
Qed.

Lemma group_duplicated root (k : string) :
  (∃ nodes, (k, nodes) ∈ by_name root ∧ 1 < length nodes) ↔
  ∃ i j, i < j ∧ global_names root !! i = Some k ∧ global_names root !! j = Some k.
Proof.
  setoid_rewrite elem_of_by_name. rewrite <-order_names.
  setoid_rewrite list_lookup_fmap. setoid_rewrite fmap_Some. split.
  - intros (nodes & [-> _] & Hlen).
    destruct (lookup_lt_is_Some_2 _ 1 Hlen) as [d Hd].
    destruct (filter_lookup_later _ _ _ _ Hd) as (p0 & p & d0 & Hlt & Hp0 & Hk0 & Hp);
      [lia|].
    apply list_elem_of_lookup_2, list_elem_of_filter in Hd as [Hk _].
    exists p0, p. split; [done|]. split; [by exists d0|by exists d].
  - intros (i & j & Hlt & (d' & Hi & Hd') & (d & Hj & Hd)).
    exists (filter (λ x : gdecl, name_of x.2 = k) (order root)).
    assert (d' ∈ filter (λ x : gdecl, name_of x.2 = k) (order root)) as Hin'
      by (apply list_elem_of_filter; split; [done|by eapply list_elem_of_lookup_2]).
    assert (d ∈ filter (λ x : gdecl, name_of x.2 = k) (order root)) as Hin
      by (apply list_elem_of_filter; split; [done|by eapply list_elem_of_lookup_2]).
    split; [split; [done|]|].
    + intros E. rewrite E in Hin. by apply elem_of_nil in Hin.
    + apply (two_members _ d' d); [|done..]. intros ->.
      pose proof (NoDup_lookup _ _ _ _ (order_NoDup root) Hi Hj). lia.
Qed.

(** X22. The names that step 4 of the resolver looks for are the global names
    declared more than once; [canonical_name] has an entry for exactly these
    names, and the entry of a name is the name itself, so that the default
    of [canonical_name.get] is never used. *)
Theorem changed_groups_are_duplicated fuel root s (k : string) :
  build_plan fuel (by_name root) = Some s →
  (k ∈ changed_groups (rename_plan s) ↔
   ∃ i j, i < j ∧ global_names root !! i = Some k ∧
     global_names root !! j = Some k) ∧
  (k ∈ changed_groups (rename_plan s) ↔ canonical_name s !! k = Some k) ∧
  (∀ v, canonical_name s !! k = Some v → v = k).
Proof.
  intros Hs.
  destruct (build_plan_spec _ _ _ _ _ Hs) as ((_ & _ & _ & Hcan) & HA & HB).
  assert (is_Some (canonical_name s !! k) ↔
          ∃ i j, i < j ∧ global_names root !! i = Some k ∧
            global_names root !! j = Some k) as Hdup.
  { rewrite (rename_groups_canonical _ _ _ _ Hs k), group_duplicated.
    cbn [canonical_name]. rewrite lookup_empty. split; [|by right].
    by intros [[? ?]|?]. }
  assert (k ∈ changed_groups (rename_plan s) ↔ is_Some (canonical_name s !! k))
    as Hch.
  { rewrite (rename_groups_canonical _ _ _ _ Hs k), elem_of_changed_groups.
    cbn [canonical_name]. rewrite lookup_empty. split.
    - intros (j & new & Hj). right.
      destruct (HA _ _ _ Hj) as (nodes & p & d & _ & Hg & Hp & Hpos & _).
      exists nodes. split; [done|]. apply lookup_lt_Some in Hp.
      unfold gdecl in *. lia.
    - intros [[? ?]|(nodes & Hg & Hlen)]; [done|].
      destruct (lookup_lt_is_Some_2 _ 1 Hlen) as [d Hd].
      destruct (HB _ _ _ _ Hg Hd) as [[old new] Hj]; [lia|].
      destruct (HA _ _ _ Hj) as (nodes' & p' & d' & _ & Hg' & Hp' & _ & Hid & _).
      apply elem_of_by_name in Hg as [Hnodes _], Hg' as [Hnodes' _].
      assert (d ∈ nodes) as Hin by by eapply list_elem_of_lookup_2.
      assert (d' ∈ nodes') as Hin' by by eapply list_elem_of_lookup_2.
      rewrite Hnodes in Hin. rewrite Hnodes' in Hin'.
      apply list_elem_of_filter in Hin as [Hkd Hin], Hin' as [Hkd' Hin'].
      assert (d' = d) as -> by by apply (order_id_inj root).
      exists d.1, new. by rewrite Hj, <-Hkd', Hkd. }
  split_and!.
  - by rewrite Hch.
  - rewrite Hch. split; [|eauto]. intros [v Hv]. by rewrite Hv, (Hcan _ _ Hv).
  - apply Hcan.
Qed.

End Loop.

End LoopFacts.

(** ** More runs on the sample documents *)

Module MoreRuns.

Import Xml Xsd Samples.

(** The two types named [Foo] of the sample are recorded as complex types. *)
Lemma detector_kinds_witness :
  ("Foo", [Detector.Location "complexType" None; Detector.Location "complexType" None])
    ∈ Detector.by_name (λ _, None) foo_original ∧
  Detector.Location "complexType" None
    ∈ [Detector.Location "complexType" None; Detector.Location "complexType" None] ∧
  Detector.kind (Detector.Location "complexType" None)
    ∈ ["element"; "complexType"; "simpleType"].
Proof.
  assert (("Foo", [Detector.Location "complexType" None;
                   Detector.Location "complexType" None])
            ∈ Detector.by_name (λ _, None) foo_original) as Hin by by left.
  assert (Detector.Location "complexType" None
            ∈ [Detector.Location "complexType" None;
               Detector.Location "complexType" None]) as Hit by by left.
  split; [done|]. split; [done|].
  exact (DetectorRun.detector_kinds (λ _, None) foo_original "Foo" _ _ Hin Hit).
Defined.

(** The report on the sample, its children standing on lines 2 to 5: one
    group, [Foo], with two members, on lines 2 and 5. *)
Lemma detector_summary_sorted_witness :
  Detector.said (Detector.main (λ j, Some (j + 2)) false foo_original)
    = Detector.DuplicateGroups 1 [("Foo", 2, ["complexType:2"; "complexType:5"])] ∧
  1 = length (Detector.dupes (λ j, Some (j + 2)) foo_original) ∧
  StronglySorted String.le ["Foo"] ∧ NoDup ["Foo"].
Proof.
  assert (Detector.said (Detector.main (λ j, Some (j + 2)) false foo_original)
    = Detector.DuplicateGroups 1 [("Foo", 2, ["complexType:2"; "complexType:5"])])
    as Hsaid by by vm_compute.
  split; [done|].
  destruct (DetectorRun.detector_summary_sorted (λ j, Some (j + 2)) false
              foo_original 1 [("Foo", 2, ["complexType:2"; "complexType:5"])] Hsaid)
    as (Hn & _ & _ & _ & Hsorted & Hnd & _).
  split; [exact Hn|]. split; [exact Hsorted|exact Hnd].
Defined.

(** The run on the sample, which has a duplicate and is no dry run, writes
    its tree. *)
Lemma resolver_writes_iff_witness :
  tag foo_original = Some (q "schema") ∧
  Resolver.main no_text Resolver.fallback_default 2 false foo_original
    = Some foo_resolved ∧
  (Resolver.written foo_resolved = None ↔
   false = true ∨ NoDup (global_names foo_original)) ∧
  (∀ w, Resolver.written foo_resolved = Some w → w = Resolver.tree foo_resolved) ∧
  (NoDup (global_names foo_original) →
   Resolver.tree foo_resolved = foo_original ∧
   Resolver.said foo_resolved = Resolver.NoDuplicatesToFix) ∧
  Resolver.main no_text Resolver.fallback_default 2 true foo_original
    = Some (Resolver.Outcome (Resolver.exit_status foo_resolved)
              (Resolver.said foo_resolved) (Resolver.tree foo_resolved) None).
Proof.
  assert (tag foo_original = Some (q "schema")) as Ht by done.
  assert (Resolver.main no_text Resolver.fallback_default 2 false foo_original
          = Some foo_resolved) as Hrun by by vm_compute.
  split; [done|]. split; [done|].
  exact (ResolverRun.resolver_writes_iff no_text Resolver.fallback_default 2 false
           foo_original foo_resolved Ht Hrun).
Defined.

(** The second [Foo] of the sample becomes [Foo_x2]. *)
Lemma new_name_extends_old_witness :
  tag foo_original = Some (q "schema") ∧
  Resolver.main no_text Resolver.fallback_default 2 false foo_original
    = Some foo_resolved ∧
  children foo_original !! 3 = Some (complex_type "Foo" [element "c" "xs:string"]) ∧
  children (Resolver.tree foo_resolved) !! 3
    = Some (complex_type "Foo_x2" [element "c" "xs:string"]) ∧
  complex_type "Foo_x2" [element "c" "xs:string"]
    ≠ complex_type "Foo" [element "c" "xs:string"] ∧
  ∃ old sfx,
    get "name" (complex_type "Foo" [element "c" "xs:string"]) = Some old ∧
    complex_type "Foo_x2" [element "c" "xs:string"]
      = set "name" (old +:+ sfx) (complex_type "Foo" [element "c" "xs:string"]) ∧
    (sfx = "_Rq" ∨ sfx = "_Rs" ∨ ∃ N, 2 ≤ N ∧ sfx = Resolver.fallback_default N) ∧
    (old +:+ sfx ∉ global_names foo_original).
Proof.
  assert (tag foo_original = Some (q "schema")) as Ht by done.
  assert (Resolver.main no_text Resolver.fallback_default 2 false foo_original
          = Some foo_resolved) as Hrun by by vm_compute.
  assert (children foo_original !! 3
          = Some (complex_type "Foo" [element "c" "xs:string"])) as Hch by done.
  assert (children (Resolver.tree foo_resolved) !! 3
          = Some (complex_type "Foo_x2" [element "c" "xs:string"])) as Hch' by done.
  assert (complex_type "Foo_x2" [element "c" "xs:string"]
          ≠ complex_type "Foo" [element "c" "xs:string"]) as Hne by done.
  split; [done|]. split; [done|]. split; [done|]. split; [done|]. split; [done|].
  exact (ResolverRun.new_name_extends_old no_text Resolver.fallback_default 2 false
           foo_original foo_resolved 3 _ _ Ht Hrun Hch Hch' Hne).
Defined.

(** The run on the sample keeps the root and sets one [name]. *)
Lemma resolver_keeps_structure_witness :
  Resolver.main no_text Resolver.fallback_default 2 false foo_original
    = Some foo_resolved ∧
  tag (Resolver.tree foo_resolved) = tag foo_original ∧
  attrib (Resolver.tree foo_resolved) = attrib foo_original ∧
  length (children (Resolver.tree foo_resolved)) = length (children foo_original) ∧
  ∀ j ch, children foo_original !! j = Some ch →
    children (Resolver.tree foo_resolved) !! j = Some ch ∨
    (Resolver.is_global ch = true ∧
     ∃ new, children (Resolver.tree foo_resolved) !! j = Some (set "name" new ch) ∧
       (new ∉ global_names foo_original)).
Proof.
  assert (Resolver.main no_text Resolver.fallback_default 2 false foo_original
          = Some foo_resolved) as Hrun by by vm_compute.
  split; [done|].
  exact (ResolverRun.resolver_keeps_structure no_text Resolver.fallback_default 2
           false foo_original foo_resolved Hrun).
Defined.

(** The second [Op] of the sample, request-like, is planned as [Op_Rq]. *)
Lemma heuristic_name_or_next_number_witness :
  Resolver.build_plan no_text Resolver.fallback_default 2
    (Resolver.by_name rq_original) = Some rq_plan ∧
  Resolver.guess_affinity no_text (complex_type "Op" [element "aRq" "xRq"])
    = Some "_Rq" ∧
  ∃ q c,
    Resolver.renamed_members (Resolver.by_name rq_original) !! q
      = Some ("Op", 2, (1, complex_type "Op" [element "aRq" "xRq"])) ∧
    c = Resolver.taken_before (list_to_set (global_names rq_original))
          (Resolver.rename_plan rq_plan)
          (Resolver.renamed_members (Resolver.by_name rq_original)) q ∧
    (∀ x, x ∈ global_names rq_original → x ∈ c) ∧
    c ⊆ Resolver.chosen_names rq_plan ∧
    ((("Op" +:+ "_Rq" ∉ c) ∧
      Resolver.rename_plan rq_plan !! 1 = Some ("Op", "Op" +:+ "_Rq")) ∨
     (("Op" +:+ "_Rq" ∈ c) ∧ ∃ N, 1 + 2 ≤ N ∧
        Resolver.rename_plan rq_plan !! 1
          = Some ("Op", "Op" +:+ Resolver.fallback_default N) ∧
        ("Op" +:+ Resolver.fallback_default N ∉ c) ∧
        ∀ k, 1 + 2 ≤ k < N → "Op" +:+ Resolver.fallback_default k ∈ c)).
Proof.
  assert (Resolver.build_plan no_text Resolver.fallback_default 2
            (Resolver.by_name rq_original) = Some rq_plan) as Hplan
    by by vm_compute.
  assert (Resolver.guess_affinity no_text (complex_type "Op" [element "aRq" "xRq"])
          = Some "_Rq") as Hguess by by vm_compute.
  split; [done|]. split; [done|].
  refine (ResolverRun.heuristic_name_or_next_number no_text
            Resolver.fallback_default 2 rq_original rq_plan "Op"
            [(0, complex_type "Op" []);
             (1, complex_type "Op" [element "aRq" "xRq"])]
            1 (1, complex_type "Op" [element "aRq" "xRq"]) "_Rq"
            Hplan _ _ _ Hguess).
  - by left.
  - done.
  - lia.
Defined.

(** The run on the sample prints the one rename [Foo] to [Foo_x2]: four
    global declarations under three names. *)
Lemma planned_renames_are_changes_witness :
  Resolver.main no_text Resolver.fallback_default 2 false foo_original
    = Some foo_resolved ∧
  Resolver.said foo_resolved = Resolver.Planned [("Foo", "Foo_x2")] 0 ∧
  [("Foo", "Foo_x2")] =
    omap (λ p : node * node,
            if decide (get "name" p.1 = get "name" p.2) then None
            else Some (Resolver.name_of p.1, Resolver.name_of p.2))
      (zip (children foo_original) (children (Resolver.tree foo_resolved))) ∧
  [("Foo", "Foo_x2")] ≠ [] ∧
  length [("Foo", "Foo_x2")]
    + size (list_to_set (global_names foo_original) : gset string)
  = length (global_names foo_original).
Proof.
  assert (Resolver.main no_text Resolver.fallback_default 2 false foo_original
          = Some foo_resolved) as Hrun by by vm_compute.
  assert (Resolver.said foo_resolved = Resolver.Planned [("Foo", "Foo_x2")] 0)
    as Hsaid by done.
  split; [done|]. split; [done|].
  exact (ResolverRun.planned_renames_are_changes no_text Resolver.fallback_default
           2 false foo_original foo_resolved _ _ Hrun Hsaid).
Defined.

(** The finalizer on the sample keeps nodes, tags and other attributes. *)
Lemma finalizer_frame_witness :
  Finalize.written (Finalize.main foo_original foo_fixed) = Some foo_final ∧
  length (iter foo_final) = length (iter foo_original) ∧
  Forall2 (λ e e', tag e' = tag e ∧
             ∀ a, a ∉ ["name"; "type"; "base"; "ref"] → get a e' = get a e)
    (iter foo_original) (iter foo_final).
Proof.
  assert (Finalize.written (Finalize.main foo_original foo_fixed)
          = Some foo_final) as Hfin by by vm_compute.
  split; [done|].
  exact (FinalizeRun.finalizer_frame foo_original foo_fixed foo_final Hfin).
Defined.

(** The finalizer on the sample reports the two references to [Foo]. *)
Lemma finalizer_update_count_witness :
  Finalize.said (Finalize.main foo_original foo_fixed)
    = Finalize.Finalized
        (Finalize.ambiguous_names (Finalize.get_global_names foo_original)
           (Finalize.get_global_names foo_fixed)) 2 ∧
  2 = length (filter (λ v, v ≠ "" ∧
                        is_Some (Finalize.plan_of foo_original foo_fixed
                                   !! (split_qname v).2))
                (e ← iter foo_original; omap (λ a, get a e) Finalize.REF_ATTRS)).
Proof.
  assert (Finalize.said (Finalize.main foo_original foo_fixed)
    = Finalize.Finalized
        (Finalize.ambiguous_names (Finalize.get_global_names foo_original)
           (Finalize.get_global_names foo_fixed)) 2) as Hsaid by by vm_compute.
  split; [done|].
  exact (proj2 (FinalizeRun.finalizer_update_count foo_original foo_fixed _ 2 Hsaid)).
Defined.

(** The two types named [Foo] of the sample are both named [FooType] in the
    output. *)
Lemma finalizer_keeps_collisions_witness :
  Finalize.written (Finalize.main foo_original foo_fixed) = Some foo_final ∧
  (∃ c c', children foo_final !! 0 = Some c ∧ children foo_final !! 3 = Some c' ∧
     get "name" c = get "name" c') ∧
  (NoDup (global_names foo_final) →
   NoDup (omap (λ ch, if tag_in ch Finalize.GLOBAL_DEFINITIONS
                      then get "name" ch else None)
            (children foo_original))).
Proof.
  assert (Finalize.written (Finalize.main foo_original foo_fixed)
          = Some foo_final) as Hfin by by vm_compute.
  split; [done|].
  destruct (FinalizeRun.finalizer_keeps_collisions foo_original foo_fixed
              foo_final Hfin) as [Hpair Hnd].
  split; [|exact Hnd].
  exact (Hpair 0 3 (complex_type "Foo" [])
           (complex_type "Foo" [element "c" "xs:string"])
           eq_refl eq_refl eq_refl eq_refl).
Defined.

(** On the sample both programs find a duplicate. *)
Lemma detector_resolver_agree_witness :
  tag foo_original = Some (q "schema") ∧
  Resolver.main no_text Resolver.fallback_default 2 false foo_original
    = Some foo_resolved ∧
  (Detector.said (Detector.main (λ _, None) false foo_original)
     = Detector.NoDuplicatesFound ↔
   Resolver.said foo_resolved = Resolver.NoDuplicatesToFix).
Proof.
  assert (tag foo_original = Some (q "schema")) as Ht by done.
  assert (Resolver.main no_text Resolver.fallback_default 2 false foo_original
          = Some foo_resolved) as Hrun by by vm_compute.
  split; [done|]. split; [done|].
  exact (PipelineRun.detector_resolver_agree (λ _, None) no_text
           Resolver.fallback_default false 2 false foo_original foo_resolved
           Ht Hrun).
Defined.

(** From the resolver's output on the sample the finalizer infers [Foo], the
    one name declared twice. *)
Lemma finalizer_recovers_duplicated_names_witness :
  tag foo_original = Some (q "schema") ∧
  Resolver.main no_text Resolver.fallback_default 2 false foo_original
    = Some foo_resolved ∧
  Forall (λ n, Py.contains "_x" n = false ∧ Py.contains "_R" n = false)
    (global_names foo_original) ∧
  ("Foo" ∈ Finalize.ambiguous_names (Finalize.get_global_names foo_original)
             (Finalize.get_global_names (Resolver.tree foo_resolved)) ↔
   ∃ i j, i < j ∧ global_names foo_original !! i = Some "Foo" ∧
     global_names foo_original !! j = Some "Foo").
Proof.
  assert (tag foo_original = Some (q "schema")) as Ht by done.
  assert (Resolver.main no_text Resolver.fallback_default 2 false foo_original
          = Some foo_resolved) as Hrun by by vm_compute.
  assert (Forall (λ n, Py.contains "_x" n = false ∧ Py.contains "_R" n = false)
            (global_names foo_original)) as Hclean
    by (repeat constructor).
  split; [done|]. split; [done|]. split; [done|].
  exact (PipelineRun.finalizer_recovers_duplicated_names no_text 2 false
           foo_original foo_resolved "Foo" Ht Hrun Hclean).
Defined.

(** Three types named [Foo] and the pattern [_dup]: the third [Foo] finds
    [Foo_dup] taken, and the run is still in its loop after 5 rounds. *)
Lemma constant_pattern_never_ends_witness :
  tag triple_original = Some (q "schema") ∧
  (∀ n : nat, (λ _ : nat, "_dup") n = "_dup") ∧
  ("Foo", [(0, complex_type "Foo" []); (1, complex_type "Foo" []);
           (2, complex_type "Foo" [])]) ∈ Resolver.by_name triple_original ∧
  Resolver.guess_affinity no_text (complex_type "Foo" []) = None ∧
  Resolver.main no_text (λ _, "_dup") 5 false triple_original = None.
Proof.
  assert (tag triple_original = Some (q "schema")) as Ht by done.
  assert (∀ n : nat, (λ _ : nat, "_dup") n = "_dup") as Hc by done.
  assert (("Foo", [(0, complex_type "Foo" []); (1, complex_type "Foo" []);
                   (2, complex_type "Foo" [])])
            ∈ Resolver.by_name triple_original) as Hin by by left.
  assert (Resolver.guess_affinity no_text (complex_type "Foo" []) = None)
    as Hguess by by vm_compute.
  split; [done|]. split; [done|]. split; [done|]. split; [done|].
  exact (LoopFacts.constant_pattern_never_ends no_text (λ _, "_dup") "_dup" 5
           false triple_original "Foo" _ (1, complex_type "Foo" [])
           (2, complex_type "Foo" []) Ht Hc Hin eq_refl eq_refl Hguess Hguess).
Defined.

(** In the plan for the sample, step 4 looks for [Foo], the one name declared
    twice, and its canonical name is [Foo]. *)
Lemma changed_groups_are_duplicated_witness :
  Resolver.build_plan no_text Resolver.fallback_default 2
    (Resolver.by_name foo_original) = Some foo_plan ∧
  ("Foo" ∈ Resolver.changed_groups (Resolver.rename_plan foo_plan) ↔
   ∃ i j, i < j ∧ global_names foo_original !! i = Some "Foo" ∧
     global_names foo_original !! j = Some "Foo") ∧
  ("Foo" ∈ Resolver.changed_groups (Resolver.rename_plan foo_plan) ↔
   Resolver.canonical_name foo_plan !! "Foo" = Some "Foo") ∧
  (∀ v, Resolver.canonical_name foo_plan !! "Foo" = Some v → v = "Foo").
Proof.
  assert (Resolver.build_plan no_text Resolver.fallback_default 2
            (Resolver.by_name foo_original) = Some foo_plan) as Hplan
    by by vm_compute.
  split; [done|].
  exact (LoopFacts.changed_groups_are_duplicated no_text
           Resolver.fallback_default 2 foo_original foo_plan "Foo" Hplan).
Defined.

End MoreRuns.
